(** * Webhook ingestion and reconciliation of the billing backend

    A shallow embedding of the Convex functions that receive payment
    processor (Polar) notifications, keep the local billing mirror in step
    and reconcile it on a timer, followed by the properties the
    specification states about them.

    Conventions of the embedding.
    - A Convex table is a list of slots in creation order; the position of
      a slot is the document's [_id]; a deleted document leaves an empty
      slot.  Index queries with [.first()], [.collect()] and [.take(n)]
      therefore read the list from the left.
    - An action or an HTTP action is a computation over a [World] (the
      database, the module-level circuit breaker of sync.ts, the log of
      calls made to the processor, and the number of clock readings so
      far) that returns a value or throws.
    - The processor and the clock are oracles handed to the computation.
    - Argument validators ([v.string()] and the like) are kept where a
      handler can pass [undefined] for a required argument; the storage
      schema is not modelled, a metadata object is any string-keyed map.
    - [console.log] and friends have no effect on the state and are left
      out. *)

From Stdlib Require Import ZArith String Ascii List Bool Lia DecimalString.
From stdpp Require Import base option list gmap strings.
Import ListNotations.

(** ** JavaScript values used by the code *)

(** A JSON value, as found in metadata objects. *)
Inductive json : Type :=
  | JNull
  | JBool (b : bool)
  | JNum (n : Z)
  | JStr (s : string).

(** A metadata object: own enumerable string keys to values.  Equality of
    stored objects does not depend on key order. *)
Abbreviation Metadata := (gmap string json).

(** [{ ...a, ...b }]: the keys of both, [b] winning on a clash. *)
Definition spread (a b : Metadata) : Metadata := b ∪ a.

(** [{ ...a }] where [a] may be [undefined]: spreading [undefined] adds
    nothing. *)
Definition spread_opt (a : option Metadata) : Metadata := default ∅ a.

(** Truthiness of a string: only the empty string is falsy. *)
Definition truthy_str (s : string) : bool := negb (String.eqb s "").

(** Truthiness of a possibly [undefined] string. *)
Definition truthy_ostr (o : option string) : bool :=
  match o with Some s => truthy_str s | None => false end.

(** [a || b] on possibly [undefined] strings with a string default. *)
Definition or_str (a : option string) (b : string) : string :=
  match a with
  | Some s => if truthy_str s then s else b
  | None => b
  end.

(** A number in a template literal. *)
Definition number_string (n : Z) : string :=
  NilZero.string_of_int (Z.to_int n).

(** What a [throw] carries: an [Error] with its message, or some other
    value ([error instanceof Error] is false for the latter). *)
Inductive Thrown : Type :=
  | ErrorObj (message : string)
  | OtherThrown.

(** [error instanceof Error ? error.message : "Unknown error"]. *)
Definition error_message (e : Thrown) : string :=
  match e with
  | ErrorObj m => m
  | OtherThrown => "Unknown error"
  end.

(** ** Subscription states (types.ts, schema.ts) *)

Inductive SubscriptionStatus : Type :=
  | Incomplete
  | IncompleteExpired
  | Trialing
  | Active
  | PastDue
  | Canceled
  | Unpaid
  | Revoked.

#[global] Instance SubscriptionStatus_eq_dec : EqDecision SubscriptionStatus.
Proof. solve_decision. Defined.

Definition status_string (s : SubscriptionStatus) : string :=
  match s with
  | Incomplete => "incomplete"
  | IncompleteExpired => "incomplete_expired"
  | Trialing => "trialing"
  | Active => "active"
  | PastDue => "past_due"
  | Canceled => "canceled"
  | Unpaid => "unpaid"
  | Revoked => "revoked"
  end.

(** ** The status map (webhooks.ts [mapPolarStatus]; the same literal is
    inlined in subscriptions.ts [updateSubscriptionFromWebhook] and
    sync.ts [syncSubscription]) *)

(** The own properties of the object literal [statusMap]. *)
Definition statusMap : list (string * SubscriptionStatus) :=
  [ ("incomplete", Incomplete);
    ("incomplete_expired", IncompleteExpired);
    ("trialing", Trialing);
    ("active", Active);
    ("past_due", PastDue);
    ("canceled", Canceled);
    ("unpaid", Unpaid) ].

(** [statusMap] is written as an object literal, so its prototype is
    [Object.prototype] and a property read that finds no own property
    continues there.  These are the names [Object.prototype] defines;
    each holds a function, and [__proto__] yields the prototype object
    itself, so every one of them is truthy. *)
Definition object_prototype_members : list string :=
  [ "constructor"; "hasOwnProperty"; "isPrototypeOf";
    "propertyIsEnumerable"; "toLocaleString"; "toString"; "valueOf";
    "__defineGetter__"; "__defineSetter__"; "__lookupGetter__";
    "__lookupSetter__"; "__proto__" ].

(** The result of reading [statusMap[key]] when it is not [undefined]. *)
Inductive MapValue : Type :=
  | VStatus (s : SubscriptionStatus)
  | VInherited (member : string).

Fixpoint own_property {A} (key : string) (o : list (string * A)) : option A :=
  match o with
  | [] => None
  | (k, v) :: rest => if String.eqb k key then Some v else own_property key rest
  end.

(** [statusMap[key]]: the own property, else the inherited one, else
    [undefined] (here [None]). *)
Definition statusMap_get (key : string) : option MapValue :=
  match own_property key statusMap with
  | Some s => Some (VStatus s)
  | None =>
      if existsb (String.eqb key) object_prototype_members
      then Some (VInherited key)
      else None
  end.

(** [return statusMap[polarStatus] || "revoked"].  Every value the read
    can produce is truthy, so the default applies to [undefined] only. *)
Definition mapPolarStatus (polarStatus : string) : MapValue :=
  match statusMap_get polarStatus with
  | Some v => v
  | None => VStatus Revoked
  end.

(** ** Circuit breaker (sync.ts) *)

Module CircuitBreaker.

#[local] Open Scope Z_scope.

(** [interface CircuitBreakerState].  [lastFailure] and [nextRetry] hold
    the output of [toISOString()]; that rendering has a fixed width, so
    the string comparison of the source orders two of them as their
    instants are ordered.  They are kept as instants, in milliseconds
    since the epoch. *)
Record State : Type := mkState {
  isOpen : bool;
  failures : nat;
  lastFailure : option Z;
  nextRetry : option Z;
}.

(** [const circuitBreaker = { isOpen: false, failures: 0 }]. *)
Definition initial : State :=
  {| isOpen := false; failures := 0; lastFailure := None; nextRetry := None |}.

(** Five minutes, in milliseconds ([setMinutes(getMinutes() + 5)]). *)
Definition cooldown : Z := 5 * 60 * 1000.

(** [checkCircuitBreaker()], read at instant [now]: the answer and the
    state it leaves. *)
Definition checkCircuitBreaker (now : Z) (cb : State) : bool * State :=
  match isOpen cb, nextRetry cb with
  | true, Some retry =>
      if now <? retry then (false, cb)
      else (true, {| isOpen := false; failures := 0;
                     lastFailure := lastFailure cb;
                     nextRetry := nextRetry cb |})
  | _, _ => (true, cb)
  end.

(** [recordSuccess()]. *)
Definition recordSuccess (cb : State) : State :=
  {| isOpen := false; failures := 0;
     lastFailure := lastFailure cb; nextRetry := nextRetry cb |}.

(** [recordFailure()].  The function reads the clock twice: [failedAt]
    is the reading stored in [lastFailure], [now] the later one from which
    the retry time is computed. *)
Definition recordFailure (failedAt now : Z) (cb : State) : State :=
  let n := S (failures cb) in
  if (3 <=? n)%nat
  then {| isOpen := true; failures := n;
          lastFailure := Some failedAt; nextRetry := Some (now + cooldown) |}
  else {| isOpen := isOpen cb; failures := n;
          lastFailure := Some failedAt; nextRetry := nextRetry cb |}.

End CircuitBreaker.

(** ** The document store *)

(** A document id is the position of its slot in the table. *)
Abbreviation Id := nat.

Abbreviation Table A := (list (option A)).

(** [ctx.db.get(id)]: [null] for an id that was never issued or whose
    document was deleted. *)
Definition db_get {A} (t : Table A) (id : Id) : option A :=
  match t !! id with
  | Some slot => slot
  | None => None
  end.

(** [ctx.db.insert(table, doc)]: the new table and the new id. *)
Definition db_insert {A} (t : Table A) (doc : A) : Table A * Id :=
  (t ++ [Some doc], length t).

(** Overwrite the document in slot [id]; used by the patch functions
    below, after [db_get] has found a document there. *)
Definition db_put {A} (t : Table A) (id : Id) (doc : A) : Table A :=
  <[id := Some doc]> t.

(** [ctx.db.delete(id)]. *)
Definition db_delete {A} (t : Table A) (id : Id) : Table A :=
  <[id := None]> t.

(** The documents of a table with their ids, in creation order. *)
Fixpoint docs_from {A} (i : Id) (t : Table A) : list (Id * A) :=
  match t with
  | [] => []
  | Some d :: rest => (i, d) :: docs_from (S i) rest
  | None :: rest => docs_from (S i) rest
  end.

Definition documents {A} (t : Table A) : list (Id * A) := docs_from 0 t.

(** [.withIndex(..., q => q.eq(field, value)).collect()] and
    [.filter(...)]: the documents that satisfy [p], in creation order. *)
Definition collect {A} (p : A -> bool) (t : Table A) : list (Id * A) :=
  List.filter (fun d => p (snd d)) (documents t).

(** [.first()] on the same query. *)
Definition first {A} (p : A -> bool) (t : Table A) : option (Id * A) :=
  head (collect p t).

(** [.take(n)] on the same query. *)
Definition take_docs {A} (n : nat) (p : A -> bool) (t : Table A) : list (Id * A) :=
  take n (collect p t).

(** ** Documents (schema.ts)

    Fields that no function of this development reads or writes are left
    out.  Timestamps are the ISO strings the code stores. *)

Record User : Type := mkUser {
  usr_email : string;
}.

Record Customer : Type := mkCustomer {
  cus_userId : option Id;
  cus_orgId : option Id;
  cus_email : string;
  cus_polarCustomerId : string;
  cus_createdAt : string;
  cus_lastSyncedAt : option string;
  cus_metadata : option Metadata;
}.

Record Subscription : Type := mkSubscription {
  sub_customerId : Id;
  sub_userId : option Id;
  sub_orgId : option Id;
  sub_polarSubscriptionId : string;
  sub_polarProductId : string;
  sub_planId : option Id;
  sub_status : SubscriptionStatus;
  sub_currentPeriodStart : option string;
  sub_currentPeriodEnd : option string;
  sub_cancelAtPeriodEnd : bool;
  sub_canceledAt : option string;
  sub_endedAt : option string;
  sub_trialStart : option string;
  sub_trialEnd : option string;
  sub_metadata : option Metadata;
  sub_createdAt : string;
  sub_updatedAt : string;
  sub_lastSyncedAt : option string;
}.

Inductive CheckoutStatus : Type :=
  | CheckoutPending
  | CheckoutCompleted
  | CheckoutExpired
  | CheckoutCanceled.

Record CheckoutSession : Type := mkCheckoutSession {
  chk_polarCheckoutId : string;
  chk_status : CheckoutStatus;
  chk_completedAt : option string;
  chk_metadata : option Metadata;
}.

Record Order : Type := mkOrder {
  ord_userId : option Id;
  ord_customerId : option Id;
  ord_polarOrderId : string;
  ord_totalCents : Z;
  ord_currency : string;
  ord_status : string;
  ord_metadata : option Metadata;
  ord_createdAt : string;
  ord_updatedAt : string;
}.

Record Invoice : Type := mkInvoice {
  inv_userId : option Id;
  inv_customerId : option Id;
  inv_subscriptionId : option Id;
  inv_polarInvoiceId : string;
  inv_invoiceNumber : option string;
  inv_amountDueCents : Z;
  inv_amountPaidCents : option Z;
  inv_currency : string;
  inv_status : string;
  inv_dueDate : option string;
  inv_paidAt : option string;
  inv_periodStart : option string;
  inv_periodEnd : option string;
  inv_metadata : option Metadata;
  inv_createdAt : string;
}.

Inductive PaymentMethodType : Type :=
  | PmCard
  | PmBankTransfer
  | PmPaypal.

Record PaymentMethod : Type := mkPaymentMethod {
  pm_userId : Id;
  pm_customerId : option Id;
  pm_polarPaymentMethodId : string;
  pm_type : PaymentMethodType;
  pm_brand : option string;
  pm_last4 : option string;
  pm_expMonth : option Z;
  pm_expYear : option Z;
  pm_isDefault : bool;
  pm_createdAt : string;
}.

Record UsageEvent : Type := mkUsageEvent {
  use_polarCustomerId : option string;
  use_eventType : string;
  use_eventName : string;
  use_units : Z;
  use_metadata : option Metadata;
  use_createdAt : string;
  use_ingestedAt : option string;
  use_polarEventId : option string;
  use_processed : bool;
  use_error : option string;
}.

(** The [data] object of a processor notification, with the fields the
    handlers read.  A field the notification does not carry is [None]
    ([undefined] in the source). *)
Record Card : Type := mkCard {
  card_brand : option string;
  card_last4 : option string;
  card_exp_month : option Z;
  card_exp_year : option Z;
}.

Record EventData : Type := mkEventData {
  d_id : option string;
  d_email : option string;
  d_email_verified : option bool;
  d_metadata : option Metadata;
  d_created_at : option string;
  d_modified_at : option string;
  d_customer_id : option string;
  d_customer_email : option string;
  d_product_id : option string;
  d_status : option string;
  d_current_period_start : option string;
  d_current_period_end : option string;
  d_trial_start : option string;
  d_trial_end : option string;
  d_cancel_at_period_end : option bool;
  d_canceled_at : option string;
  d_ended_at : option string;
  d_amount : option Z;
  d_currency : option string;
  d_number : option string;
  d_amount_due : option Z;
  d_subscription_id : option string;
  d_due_date : option string;
  d_period_start : option string;
  d_period_end : option string;
  d_paid_at : option string;
  d_amount_paid : option Z;
  d_type : option string;
  d_card : option Card;
}.

(** [PolarWebhookPayload] (types.ts): the parsed body of a notification.
    The dispatcher allows for a missing [id]. *)
Record Payload : Type := mkPayload {
  p_id : option string;
  p_type : string;
  p_data : EventData;
}.

Inductive WebhookSource : Type :=
  | SourcePolar
  | SourceClerk.

Inductive ProcessingResult : Type :=
  | ResultSuccess
  | ResultError
  | ResultSkipped.

Record WebhookEvent : Type := mkWebhookEvent {
  evt_eventId : string;
  evt_eventType : string;
  evt_source : WebhookSource;
  evt_payload : Payload;
  evt_receivedAt : string;
  evt_processedAt : option string;
  evt_processingResult : option ProcessingResult;
  evt_attempts : Z;
  evt_lastAttemptAt : option string;
  evt_error : option string;
}.

(** One entry of the discrepancy list built by [reconcileBilling]. *)
Record Discrepancy : Type := mkDiscrepancy {
  dis_type : string;
  dis_localId : Id;
  dis_polarId : string;
  dis_issue : string;
  dis_localData : option Metadata;
  dis_polarData : option Metadata;
}.

(** An audit log row as [logDiscrepancies] writes it; its metadata is
    [{ count, discrepancies }]. *)
Record AuditLog : Type := mkAuditLog {
  log_action : string;
  log_resourceType : string;
  log_count : nat;
  log_discrepancies : list Discrepancy;
  log_createdAt : string;
}.

(** One entry of the error list of a subscription sync: the customer's
    id, or [None] for the literal ["system"]. *)
Record SyncError : Type := mkSyncError {
  err_customerId : option Id;
  err_error : string;
}.

Inductive SyncStatusKind : Type :=
  | SyncSuccess
  | SyncPartial
  | SyncFailed.

(** A billing settings row as [recordSyncStatus] writes it. *)
Record BillingSetting : Type := mkBillingSetting {
  set_key : string;
  set_status : SyncStatusKind;
  set_synced : Z;
  set_failed : Z;
  set_duration : Z;
  set_errors : list SyncError;
  set_completedAt : string;
  set_updatedAt : string;
}.

(** The database: one table per collection. *)
Record Db : Type := mkDb {
  users : Table User;
  customers : Table Customer;
  subscriptions : Table Subscription;
  checkoutSessions : Table CheckoutSession;
  orders : Table Order;
  invoices : Table Invoice;
  paymentMethods : Table PaymentMethod;
  usageEvents : Table UsageEvent;
  webhookEvents : Table WebhookEvent;
  auditLogs : Table AuditLog;
  billingSettings : Table BillingSetting;
}.

Definition empty_db : Db :=
  mkDb [] [] [] [] [] [] [] [] [] [] [].

Definition with_customers (db : Db) (t : Table Customer) : Db :=
  mkDb (users db) t (subscriptions db) (checkoutSessions db) (orders db)
       (invoices db) (paymentMethods db) (usageEvents db) (webhookEvents db)
       (auditLogs db) (billingSettings db).

Definition with_subscriptions (db : Db) (t : Table Subscription) : Db :=
  mkDb (users db) (customers db) t (checkoutSessions db) (orders db)
       (invoices db) (paymentMethods db) (usageEvents db) (webhookEvents db)
       (auditLogs db) (billingSettings db).

Definition with_checkoutSessions (db : Db) (t : Table CheckoutSession) : Db :=
  mkDb (users db) (customers db) (subscriptions db) t (orders db)
       (invoices db) (paymentMethods db) (usageEvents db) (webhookEvents db)
       (auditLogs db) (billingSettings db).

Definition with_orders (db : Db) (t : Table Order) : Db :=
  mkDb (users db) (customers db) (subscriptions db) (checkoutSessions db) t
       (invoices db) (paymentMethods db) (usageEvents db) (webhookEvents db)
       (auditLogs db) (billingSettings db).

Definition with_invoices (db : Db) (t : Table Invoice) : Db :=
  mkDb (users db) (customers db) (subscriptions db) (checkoutSessions db)
       (orders db) t (paymentMethods db) (usageEvents db) (webhookEvents db)
       (auditLogs db) (billingSettings db).

Definition with_paymentMethods (db : Db) (t : Table PaymentMethod) : Db :=
  mkDb (users db) (customers db) (subscriptions db) (checkoutSessions db)
       (orders db) (invoices db) t (usageEvents db) (webhookEvents db)
       (auditLogs db) (billingSettings db).

Definition with_usageEvents (db : Db) (t : Table UsageEvent) : Db :=
  mkDb (users db) (customers db) (subscriptions db) (checkoutSessions db)
       (orders db) (invoices db) (paymentMethods db) t (webhookEvents db)
       (auditLogs db) (billingSettings db).

Definition with_webhookEvents (db : Db) (t : Table WebhookEvent) : Db :=
  mkDb (users db) (customers db) (subscriptions db) (checkoutSessions db)
       (orders db) (invoices db) (paymentMethods db) (usageEvents db) t
       (auditLogs db) (billingSettings db).


Definition with_billingSettings (db : Db) (t : Table BillingSetting) : Db :=
  mkDb (users db) (customers db) (subscriptions db) (checkoutSessions db)
       (orders db) (invoices db) (paymentMethods db) (usageEvents db)
       (webhookEvents db) (auditLogs db) t.

(** ** Results, mutations and actions *)

Inductive Outcome (A : Type) : Type :=
  | Ok (a : A)
  | Throw (e : Thrown).

Arguments Ok {A} a.
Arguments Throw {A} e.

(** A query handler reads the database. *)
Definition Query (A : Type) : Type := Db -> A.

(** A mutation handler runs as a transaction at one reading of the clock
    (its first argument, the value of [new Date().toISOString()]): it
    returns a value and the new database, or throws and leaves the
    database as it was. *)
Definition Mutation (A : Type) : Type := string -> Db -> Outcome (A * Db).

(** The argument validator of a required argument rejects [undefined]. *)
Definition ArgumentValidationError : Thrown :=
  ErrorObj "ArgumentValidationError".

(** [ctx.db.patch(id, ...)]: apply [f] to the document, or fail when there
    is none (Convex throws on a missing document). *)
Definition db_patch {A} (t : Table A) (id : Id) (f : A -> A) : option (Table A) :=
  match db_get t id with
  | Some doc => Some (db_put t id (f doc))
  | None => None
  end.

Definition PatchMissingDocument : Thrown :=
  ErrorObj "Update on nonexistent document".

(** *** The processor's API (lib/polar.ts, types.ts) *)

Record PolarCustomer : Type := mkPolarCustomer {
  pc_id : string;
  pc_email : string;
  pc_email_verified : bool;
  pc_metadata : option Metadata;
  pc_created_at : string;
  pc_modified_at : option string;
}.

Record PolarSubscription : Type := mkPolarSubscription {
  ps_id : string;
  ps_status : string;
  ps_product_id : string;
  ps_customer_id : string;
  ps_current_period_start : string;
  ps_current_period_end : option string;
  ps_cancel_at_period_end : bool;
  ps_ended_at : option string;
  ps_metadata : option Metadata;
}.

Record PolarOrder : Type := mkPolarOrder {
  po_id : string;
}.

(** One element of the array sent to [metrics.ingestEvents]. *)
Record PolarEvent : Type := mkPolarEvent {
  pe_customer_id : string;
  pe_event_name : string;
  pe_properties : Metadata;
  pe_timestamp : string;
}.

Record IngestResult : Type := mkIngestResult {
  accepted : Z;
  rejected : Z;
}.

(** A call to the processor, as logged in the world. *)
Inductive PolarCall : Type :=
  | CallSubscriptionsList (customer_id : string)
  | CallSubscriptionsGet (subscription_id : string)
  | CallCustomersGet (customer_id : string)
  | CallOrdersGet (order_id : string)
  | CallIngestEvents (events : list PolarEvent).

(** The processor as an oracle.  Each operation stands for the whole of
    the client call (request, retries, decoding) and answers with the
    decoded body or with what the call throws.  The first argument is the
    number of calls made before this one, so that answers may change over
    time. *)
Record PolarApi : Type := mkPolarApi {
  subscriptions_list : nat -> string -> Outcome (list PolarSubscription);
  subscriptions_get : nat -> string -> Outcome PolarSubscription;
  customers_get : nat -> string -> Outcome PolarCustomer;
  orders_get : nat -> string -> Outcome (option PolarOrder);
  metrics_ingestEvents : nat -> list PolarEvent -> Outcome IngestResult;
}.

(** A reading of the clock: [Date.now()] and the [toISOString()] of the
    same instant. *)
Record Instant : Type := mkInstant {
  ms : Z;
  iso : string;
}.

(** What surrounds a run: the deployment's environment variable, the
    clock (indexed by the number of readings taken before), the HMAC of
    [crypto], the JSON parser on notification bodies ([None] when
    [JSON.parse] throws) and the processor. *)
Record Env : Type := mkEnv {
  POLAR_WEBHOOK_SECRET : option string;
  clock : nat -> Instant;
  hmac_sha256_hex : string -> string -> string;
  JSON_parse : string -> option Payload;
  polarApi : PolarApi;
}.

Record World : Type := mkWorld {
  w_db : Db;
  w_breaker : CircuitBreaker.State;
  w_calls : list PolarCall;
  w_ticks : nat;
}.

Definition Action (A : Type) : Type := World -> Outcome A * World.

Definition ret {A} (a : A) : Action A := fun w => (Ok a, w).

Definition bind {A B} (m : Action A) (k : A -> Action B) : Action B :=
  fun w =>
    match m w with
    | (Ok a, w') => k a w'
    | (Throw e, w') => (Throw e, w')
    end.

Definition throw {A} (e : Thrown) : Action A := fun w => (Throw e, w).

(** [try { m } catch (error) { handler }]. *)
Definition try_catch {A} (m : Action A) (handler : Thrown -> Action A) : Action A :=
  fun w =>
    match m w with
    | (Ok a, w') => (Ok a, w')
    | (Throw e, w') => handler e w'
    end.

Notation "'let*' x ':=' m 'in' k" := (bind m (fun x => k))
  (at level 10, x name, m at level 100, k at level 200).
Notation "m ';;' k" := (bind m (fun _ => k))
  (at level 100, k at level 200, right associativity).

(** A required argument: the validator throws on [undefined]. *)
Definition required {A} (o : option A) : Action A :=
  match o with
  | Some a => ret a
  | None => throw ArgumentValidationError
  end.

Definition set_db (w : World) (db : Db) : World :=
  mkWorld db (w_breaker w) (w_calls w) (w_ticks w).

Definition set_breaker (w : World) (cb : CircuitBreaker.State) : World :=
  mkWorld (w_db w) cb (w_calls w) (w_ticks w).

Definition tick (w : World) : World :=
  mkWorld (w_db w) (w_breaker w) (w_calls w) (S (w_ticks w)).

Definition log_call (w : World) (c : PolarCall) : World :=
  mkWorld (w_db w) (w_breaker w) (w_calls w ++ [c]) (w_ticks w).

(** [ctx.runQuery]. *)
Definition runQuery {A} (q : Query A) : Action A :=
  fun w => (Ok (q (w_db w)), w).

(** Iterate an action over a list, left to right ([for ... of]). *)
Fixpoint for_each {A} (f : A -> Action unit) (l : list A) : Action unit :=
  match l with
  | [] => ret tt
  | x :: rest => f x ;; for_each f rest
  end.

(** [for (const x of l) { s = await f(x, s) }]. *)
Fixpoint fold_action {A S} (f : A -> S -> Action S) (l : list A) (s : S)
    : Action S :=
  match l with
  | [] => ret s
  | x :: rest => let* s' := f x s in fold_action f rest s'
  end.

(** [for (const x of l) { await f(x); n++ }] inside a [try]: the count
    reached, and what was thrown if the loop was cut short.  The counter
    is a local variable, so it keeps what it had when the exception
    left the loop. *)
Fixpoint count_until_throw {A} (f : A -> Action unit) (l : list A) (n : Z)
    : Action (Z * option Thrown) :=
  match l with
  | [] => ret (n, None)
  | x :: rest =>
      fun w =>
        match f x w with
        | (Ok _, w') => count_until_throw f rest (n + 1)%Z w'
        | (Throw e, w') => (Ok (n, Some e), w')
        end
  end.

Section WithEnv.

Variable env : Env.

(** [new Date()] or [Date.now()] in an action. *)
Definition now : Action Instant :=
  fun w => (Ok (clock env (w_ticks w)), tick w).

(** [ctx.runMutation]: the mutation sees one reading of the clock; when
    it throws, its writes are discarded. *)
Definition runMutation {A} (m : Mutation A) : Action A :=
  fun w =>
    match m (iso (clock env (w_ticks w))) (w_db w) with
    | Ok (a, db') => (Ok a, tick (set_db w db'))
    | Throw e => (Throw e, tick w)
    end.

(** A call to the processor: logged, then answered by the oracle. *)
Definition call_polar {A} (c : PolarCall)
    (answer : PolarApi -> nat -> Outcome A) : Action A :=
  fun w => (answer (polarApi env) (length (w_calls w)), log_call w c).

End WithEnv.

(** ** Customer mutators (customers.ts) *)

Module Customers.

(** [getCustomerByPolarId]. *)
Definition getCustomerByPolarId (polarCustomerId : string)
    : Query (option (Id * Customer)) :=
  fun db =>
    first (fun c => String.eqb (cus_polarCustomerId c) polarCustomerId)
          (customers db).

(** [getCustomerById]. *)
Definition getCustomerById (customerId : Id) : Query (option Customer) :=
  fun db => db_get (customers db) customerId.

(** The patch both customer mutators apply:
    [{ email, metadata: polarCustomer.metadata || {}, lastSyncedAt }]. *)
Definition patch_from_polar (polarCustomer : PolarCustomer) (now : string)
    (c : Customer) : Customer :=
  {| cus_userId := cus_userId c;
     cus_orgId := cus_orgId c;
     cus_email := pc_email polarCustomer;
     cus_polarCustomerId := cus_polarCustomerId c;
     cus_createdAt := cus_createdAt c;
     cus_lastSyncedAt := Some now;
     cus_metadata := Some (default ∅ (pc_metadata polarCustomer)) |}.

(** [updateCustomerFromPolar]. *)
Definition updateCustomerFromPolar (customerId : Id)
    (polarCustomer : PolarCustomer) : Mutation unit :=
  fun now db =>
    match db_patch (customers db) customerId
                   (patch_from_polar polarCustomer now) with
    | Some t => Ok (tt, with_customers db t)
    | None => Throw PatchMissingDocument
    end.

(** [createCustomerFromWebhook]: patch the customer with this external
    id when there is one, else insert, linked to the user with the same
    email when there is one. *)
Definition createCustomerFromWebhook (polarCustomer : PolarCustomer)
    : Mutation Id :=
  fun now db =>
    match getCustomerByPolarId (pc_id polarCustomer) db with
    | Some (id, existing) =>
        Ok (id, with_customers db
                  (db_put (customers db) id
                          (patch_from_polar polarCustomer now existing)))
    | None =>
        let user :=
          first (fun u => String.eqb (usr_email u) (pc_email polarCustomer))
                (users db) in
        let '(t, id) :=
          db_insert (customers db)
            {| cus_userId := fst <$> user;
               cus_orgId := None;
               cus_email := pc_email polarCustomer;
               cus_polarCustomerId := pc_id polarCustomer;
               cus_createdAt := now;
               cus_lastSyncedAt := None;
               cus_metadata := Some (default ∅ (pc_metadata polarCustomer)) |} in
        Ok (id, with_customers db t)
    end.

End Customers.

(** ** Subscription mutators (subscriptions.ts) *)

(** The object handed to [ctx.db.patch] for a subscription.  A field of
    the patch is absent ([None]) or present; a present optional field may
    hold [undefined], which removes it from the document. *)
Record SubscriptionPatch : Type := mkSubscriptionPatch {
  p_status : option SubscriptionStatus;
  p_currentPeriodStart : option (option string);
  p_currentPeriodEnd : option (option string);
  p_cancelAtPeriodEnd : option bool;
  p_canceledAt : option (option string);
  p_endedAt : option (option string);
  p_metadata : option (option Metadata);
  p_updatedAt : option string;
  p_lastSyncedAt : option (option string);
}.

Definition patch_subscription (p : SubscriptionPatch) (s : Subscription)
    : Subscription :=
  {| sub_customerId := sub_customerId s;
     sub_userId := sub_userId s;
     sub_orgId := sub_orgId s;
     sub_polarSubscriptionId := sub_polarSubscriptionId s;
     sub_polarProductId := sub_polarProductId s;
     sub_planId := sub_planId s;
     sub_status := default (sub_status s) (p_status p);
     sub_currentPeriodStart :=
       default (sub_currentPeriodStart s) (p_currentPeriodStart p);
     sub_currentPeriodEnd :=
       default (sub_currentPeriodEnd s) (p_currentPeriodEnd p);
     sub_cancelAtPeriodEnd :=
       default (sub_cancelAtPeriodEnd s) (p_cancelAtPeriodEnd p);
     sub_canceledAt := default (sub_canceledAt s) (p_canceledAt p);
     sub_endedAt := default (sub_endedAt s) (p_endedAt p);
     sub_trialStart := sub_trialStart s;
     sub_trialEnd := sub_trialEnd s;
     sub_metadata := default (sub_metadata s) (p_metadata p);
     sub_createdAt := sub_createdAt s;
     sub_updatedAt := default (sub_updatedAt s) (p_updatedAt p);
     sub_lastSyncedAt := default (sub_lastSyncedAt s) (p_lastSyncedAt p) |}.

(** [if (x) updates.f = x] for a possibly [undefined] string [x]. *)
Definition set_if_truthy (x : option string) : option (option string) :=
  if truthy_ostr x then Some x else None.

Module Subscriptions.

(** [getSubscriptionByPolarId]. *)
Definition getSubscriptionByPolarId (polarSubscriptionId : string)
    : Query (option (Id * Subscription)) :=
  fun db =>
    first (fun s => String.eqb (sub_polarSubscriptionId s) polarSubscriptionId)
          (subscriptions db).

Record CreateArgs : Type := mkCreateArgs {
  ca_customerId : Id;
  ca_polarSubscriptionId : string;
  ca_polarProductId : string;
  ca_planId : option Id;
  ca_status : SubscriptionStatus;
  ca_currentPeriodStart : option string;
  ca_currentPeriodEnd : option string;
  ca_trialStart : option string;
  ca_trialEnd : option string;
  ca_metadata : option Metadata;
}.

(** [createSubscription]. *)
Definition createSubscription (args : CreateArgs) : Mutation Id :=
  fun now db =>
    match getSubscriptionByPolarId (ca_polarSubscriptionId args) db with
    | Some (id, existing) =>
        let p :=
          {| p_status := Some (ca_status args);
             p_currentPeriodStart := Some (ca_currentPeriodStart args);
             p_currentPeriodEnd := Some (ca_currentPeriodEnd args);
             p_cancelAtPeriodEnd := None;
             p_canceledAt := None;
             p_endedAt := None;
             p_metadata := Some (ca_metadata args);
             p_updatedAt := Some now;
             p_lastSyncedAt := Some (Some now) |} in
        Ok (id, with_subscriptions db
                  (db_put (subscriptions db) id (patch_subscription p existing)))
    | None =>
        match db_get (customers db) (ca_customerId args) with
        | None => Throw (ErrorObj "Customer not found")
        | Some customer =>
            let '(t, id) :=
              db_insert (subscriptions db)
                {| sub_customerId := ca_customerId args;
                   sub_userId := cus_userId customer;
                   sub_orgId := cus_orgId customer;
                   sub_polarSubscriptionId := ca_polarSubscriptionId args;
                   sub_polarProductId := ca_polarProductId args;
                   sub_planId := ca_planId args;
                   sub_status := ca_status args;
                   sub_currentPeriodStart := ca_currentPeriodStart args;
                   sub_currentPeriodEnd := ca_currentPeriodEnd args;
                   sub_cancelAtPeriodEnd := false;
                   sub_canceledAt := None;
                   sub_endedAt := None;
                   sub_trialStart := ca_trialStart args;
                   sub_trialEnd := ca_trialEnd args;
                   sub_metadata := ca_metadata args;
                   sub_createdAt := now;
                   sub_updatedAt := now;
                   sub_lastSyncedAt := None |} in
            Ok (id, with_subscriptions db t)
        end
    end.

(** The [updates] argument of [updateSubscriptionFromWebhook]. *)
Record Updates : Type := mkUpdates {
  u_status : option string;
  u_currentPeriodStart : option string;
  u_currentPeriodEnd : option string;
  u_cancelAtPeriodEnd : option bool;
  u_canceledAt : option string;
  u_endedAt : option string;
  u_metadata : option Metadata;
}.

(** [let status; if (args.updates.status) status = statusMap[...] ||
    "revoked"]. *)
Definition mapped_status (u : Updates) : option MapValue :=
  match u_status u with
  | Some s => if truthy_str s then Some (mapPolarStatus s) else None
  | None => None
  end.

(** The [updates] object the mutation builds for a subscription whose
    mapped status, if any, is [status]. *)
Definition build_patch (u : Updates) (status : option SubscriptionStatus)
    (now : string) (subscription : Subscription) : SubscriptionPatch :=
  {| p_status := status;
     p_currentPeriodStart := set_if_truthy (u_currentPeriodStart u);
     p_currentPeriodEnd := set_if_truthy (u_currentPeriodEnd u);
     p_cancelAtPeriodEnd := u_cancelAtPeriodEnd u;
     p_canceledAt := set_if_truthy (u_canceledAt u);
     p_endedAt := set_if_truthy (u_endedAt u);
     p_metadata :=
       match u_metadata u with
       | Some m => Some (Some (spread (spread_opt (sub_metadata subscription)) m))
       | None => None
       end;
     p_updatedAt := Some now;
     p_lastSyncedAt := Some (Some now) |}.

(** [updateSubscriptionFromWebhook]: [null] when no subscription has the
    external id, else the id of the patched row.  A mapped status that is
    not one of the subscription states (a member inherited from
    [Object.prototype]) cannot be stored: the patch throws. *)
Definition updateSubscriptionFromWebhook (polarSubscriptionId : string)
    (u : Updates) : Mutation (option Id) :=
  fun now db =>
    match getSubscriptionByPolarId polarSubscriptionId db with
    | None => Ok (None, db)
    | Some (id, subscription) =>
        match mapped_status u with
        | Some (VInherited _) => Throw (ErrorObj "Value is not a subscription status")
        | Some (VStatus s) =>
            Ok (Some id,
                with_subscriptions db
                  (db_put (subscriptions db) id
                     (patch_subscription (build_patch u (Some s) now subscription)
                                         subscription)))
        | None =>
            Ok (Some id,
                with_subscriptions db
                  (db_put (subscriptions db) id
                     (patch_subscription (build_patch u None now subscription)
                                         subscription)))
        end
    end.

End Subscriptions.

(** ** Checkout mutator (checkout.ts) *)

Module Checkout.

(** [completeCheckoutSession]: the session after the call, or [null]. *)
Definition completeCheckoutSession (polarCheckoutId : string)
    (completedAt : option string) (metadata : option Metadata)
    : Mutation (option CheckoutSession) :=
  fun now db =>
    match first (fun s => String.eqb (chk_polarCheckoutId s) polarCheckoutId)
                (checkoutSessions db) with
    | None => Ok (None, db)
    | Some (id, session) =>
        match chk_status session with
        | CheckoutCompleted => Ok (Some session, db)
        | _ =>
            let session' :=
              {| chk_polarCheckoutId := chk_polarCheckoutId session;
                 chk_status := CheckoutCompleted;
                 chk_completedAt := Some (or_str completedAt now);
                 chk_metadata :=
                   Some (spread (spread_opt (chk_metadata session))
                                (spread_opt metadata)) |} in
            Ok (Some session',
                with_checkoutSessions db
                  (db_put (checkoutSessions db) id session'))
        end
    end.

End Checkout.

(** ** HTTP requests and responses *)

(** A request: its body text and its headers, keyed by lower-case name
    as [Headers.get] looks them up. *)
Record Request : Type := mkRequest {
  req_body : string;
  req_headers : gmap string string;
}.

Record Response : Type := mkResponse {
  resp_body : option string;
  resp_status : nat;
}.

(** [verifyWebhookSignature] (lib/polar.ts): the hex HMAC-SHA256 of the
    payload under the secret must equal the signature;
    [timingSafeEqual] throws on operands of different length and the
    [catch] turns that into [false]. *)
Definition verifyWebhookSignature (env : Env) (payload signature secret : string)
    : bool :=
  String.eqb signature (hmac_sha256_hex env secret payload).

(** ** The webhook dispatcher and its mutations (webhooks.ts) *)

Module Webhooks.

(** [getWebhookEventById]. *)
Definition getWebhookEventById (eventId : string)
    : Query (option (Id * WebhookEvent)) :=
  fun db =>
    first (fun e => String.eqb (evt_eventId e) eventId) (webhookEvents db).

(** [storeWebhookEvent]. *)
Definition storeWebhookEvent (eventId eventType : string)
    (source : WebhookSource) (payload : Payload) (receivedAt : string)
    : Mutation Id :=
  fun _ db =>
    let '(t, id) :=
      db_insert (webhookEvents db)
        {| evt_eventId := eventId;
           evt_eventType := eventType;
           evt_source := source;
           evt_payload := payload;
           evt_receivedAt := receivedAt;
           evt_processedAt := None;
           evt_processingResult := None;
           evt_attempts := 1%Z;
           evt_lastAttemptAt := None;
           evt_error := None |} in
    Ok (id, with_webhookEvents db t).

(** [markWebhookEventProcessed]. *)
Definition markWebhookEventProcessed (eventId : string)
    (processingResult : ProcessingResult) (error : option string)
    : Mutation unit :=
  fun now db =>
    match getWebhookEventById eventId db with
    | Some (id, event) =>
        Ok (tt, with_webhookEvents db
                  (db_put (webhookEvents db) id
                     {| evt_eventId := evt_eventId event;
                        evt_eventType := evt_eventType event;
                        evt_source := evt_source event;
                        evt_payload := evt_payload event;
                        evt_receivedAt := evt_receivedAt event;
                        evt_processedAt := Some now;
                        evt_processingResult := Some processingResult;
                        evt_attempts := evt_attempts event;
                        evt_lastAttemptAt := Some now;
                        evt_error := error |}))
    | None => Ok (tt, db)
    end.

(** [createOrder]. *)
Definition createOrder (customerId : Id) (polarOrderId polarProductId : string)
    (amount : Z) (currency status : string) (metadata : option Metadata)
    : Mutation (option Id) :=
  fun now db =>
    match db_get (customers db) customerId with
    | None => Ok (None, db)
    | Some customer =>
        let '(t, id) :=
          db_insert (orders db)
            {| ord_userId := cus_userId customer;
               ord_customerId := Some customerId;
               ord_polarOrderId := polarOrderId;
               ord_totalCents := amount;
               ord_currency := currency;
               ord_status := status;
               ord_metadata := metadata;
               ord_createdAt := now;
               ord_updatedAt := now |} in
        Ok (Some id, with_orders db t)
    end.

Record InvoiceArgs : Type := mkInvoiceArgs {
  ia_customerId : Id;
  ia_subscriptionId : option Id;
  ia_polarInvoiceId : string;
  ia_invoiceNumber : option string;
  ia_amountDue : Z;
  ia_currency : string;
  ia_status : string;
  ia_dueDate : option string;
  ia_periodStart : option string;
  ia_periodEnd : option string;
  ia_metadata : option Metadata;
}.

(** The patch [createInvoice] applies to an invoice it finds:
    [{ status, amountDueCents }]. *)
Definition patch_invoice_due (status : string) (amountDue : Z) (i : Invoice)
    : Invoice :=
  {| inv_userId := inv_userId i;
     inv_customerId := inv_customerId i;
     inv_subscriptionId := inv_subscriptionId i;
     inv_polarInvoiceId := inv_polarInvoiceId i;
     inv_invoiceNumber := inv_invoiceNumber i;
     inv_amountDueCents := amountDue;
     inv_amountPaidCents := inv_amountPaidCents i;
     inv_currency := inv_currency i;
     inv_status := status;
     inv_dueDate := inv_dueDate i;
     inv_paidAt := inv_paidAt i;
     inv_periodStart := inv_periodStart i;
     inv_periodEnd := inv_periodEnd i;
     inv_metadata := inv_metadata i;
     inv_createdAt := inv_createdAt i |}.

Definition invoice_by_polar_id (polarInvoiceId : string)
    : Query (option (Id * Invoice)) :=
  fun db =>
    first (fun i => String.eqb (inv_polarInvoiceId i) polarInvoiceId)
          (invoices db).

(** [createInvoice]. *)
Definition createInvoice (args : InvoiceArgs) : Mutation (option Id) :=
  fun now db =>
    match db_get (customers db) (ia_customerId args) with
    | None => Ok (None, db)
    | Some customer =>
        match invoice_by_polar_id (ia_polarInvoiceId args) db with
        | Some (id, existing) =>
            Ok (Some id,
                with_invoices db
                  (db_put (invoices db) id
                     (patch_invoice_due (ia_status args) (ia_amountDue args)
                                        existing)))
        | None =>
            let '(t, id) :=
              db_insert (invoices db)
                {| inv_userId := cus_userId customer;
                   inv_customerId := Some (ia_customerId args);
                   inv_subscriptionId := ia_subscriptionId args;
                   inv_polarInvoiceId := ia_polarInvoiceId args;
                   inv_invoiceNumber := ia_invoiceNumber args;
                   inv_amountDueCents := ia_amountDue args;
                   inv_amountPaidCents := None;
                   inv_currency := ia_currency args;
                   inv_status := ia_status args;
                   inv_dueDate := ia_dueDate args;
                   inv_paidAt := None;
                   inv_periodStart := ia_periodStart args;
                   inv_periodEnd := ia_periodEnd args;
                   inv_metadata := ia_metadata args;
                   inv_createdAt := now |} in
            Ok (Some id, with_invoices db t)
        end
    end.

(** [updateInvoiceStatus]: the patch is
    [{ status, paidAt, amountPaidCents }]. *)
Definition updateInvoiceStatus (polarInvoiceId status : string)
    (paidAt : option string) (amountPaid : option Z) : Mutation unit :=
  fun _ db =>
    match invoice_by_polar_id polarInvoiceId db with
    | Some (id, i) =>
        Ok (tt, with_invoices db
                  (db_put (invoices db) id
                     {| inv_userId := inv_userId i;
                        inv_customerId := inv_customerId i;
                        inv_subscriptionId := inv_subscriptionId i;
                        inv_polarInvoiceId := inv_polarInvoiceId i;
                        inv_invoiceNumber := inv_invoiceNumber i;
                        inv_amountDueCents := inv_amountDueCents i;
                        inv_amountPaidCents := amountPaid;
                        inv_currency := inv_currency i;
                        inv_status := status;
                        inv_dueDate := inv_dueDate i;
                        inv_paidAt := paidAt;
                        inv_periodStart := inv_periodStart i;
                        inv_periodEnd := inv_periodEnd i;
                        inv_metadata := inv_metadata i;
                        inv_createdAt := inv_createdAt i |}))
    | None => Ok (tt, db)
    end.

Definition payment_method_by_polar_id (polarPaymentMethodId : string)
    : Query (option (Id * PaymentMethod)) :=
  fun db =>
    first (fun m => String.eqb (pm_polarPaymentMethodId m) polarPaymentMethodId)
          (paymentMethods db).

(** [createPaymentMethod]: an existing row is returned as it is. *)
Definition createPaymentMethod (userId customerId : Id)
    (polarPaymentMethodId : string) (type : PaymentMethodType)
    (brand last4 : option string) (expMonth expYear : option Z)
    : Mutation Id :=
  fun now db =>
    match payment_method_by_polar_id polarPaymentMethodId db with
    | Some (id, _) => Ok (id, db)
    | None =>
        let '(t, id) :=
          db_insert (paymentMethods db)
            {| pm_userId := userId;
               pm_customerId := Some customerId;
               pm_polarPaymentMethodId := polarPaymentMethodId;
               pm_type := type;
               pm_brand := brand;
               pm_last4 := last4;
               pm_expMonth := expMonth;
               pm_expYear := expYear;
               pm_isDefault := false;
               pm_createdAt := now |} in
        Ok (id, with_paymentMethods db t)
    end.

(** [deletePaymentMethod]. *)
Definition deletePaymentMethod (polarPaymentMethodId : string)
    : Mutation unit :=
  fun _ db =>
    match payment_method_by_polar_id polarPaymentMethodId db with
    | Some (id, _) =>
        Ok (tt, with_paymentMethods db (db_delete (paymentMethods db) id))
    | None => Ok (tt, db)
    end.

Section Handlers.

Variable env : Env.

(** [x || new Date().toISOString()]: the clock is read only when [x] is
    falsy. *)
Definition or_now (x : option string) : Action string :=
  if truthy_ostr x then ret (or_str x "")
  else let* t := now env in ret (iso t).

(** The [polarCustomer] argument both customer handlers build. *)
Definition polar_customer_of (d : EventData) : Action PolarCustomer :=
  let* id := required (d_id d) in
  let* email := required (d_email d) in
  let* created_at := required (d_created_at d) in
  ret {| pc_id := id;
         pc_email := email;
         pc_email_verified := default false (d_email_verified d);
         pc_metadata := d_metadata d;
         pc_created_at := created_at;
         pc_modified_at := d_modified_at d |}.

Definition handleCustomerCreated (payload : Payload) : Action unit :=
  let* polarCustomer := polar_customer_of (p_data payload) in
  let* _ := runMutation env (Customers.createCustomerFromWebhook polarCustomer) in
  ret tt.

Definition handleCustomerUpdated (payload : Payload) : Action unit :=
  let d := p_data payload in
  let* polarCustomerId := required (d_id d) in
  let* customer := runQuery (Customers.getCustomerByPolarId polarCustomerId) in
  match customer with
  | Some (customerId, _) =>
      let* polarCustomer := polar_customer_of d in
      runMutation env (Customers.updateCustomerFromPolar customerId polarCustomer)
  | None => ret tt
  end.

(** [mapPolarStatus(subscriptionData.status)] as an argument of
    [createSubscription]: a missing status reads the key ["undefined"];
    the validator of [status] accepts the eight states only. *)
Definition mapped_status_arg (status : option string)
    : Action SubscriptionStatus :=
  match mapPolarStatus (default "undefined" status) with
  | VStatus s => ret s
  | VInherited _ => throw ArgumentValidationError
  end.

Definition handleSubscriptionCreated (payload : Payload) : Action unit :=
  let d := p_data payload in
  let* polarCustomerId := required (d_customer_id d) in
  let* found := runQuery (Customers.getCustomerByPolarId polarCustomerId) in
  let* customer :=
    match found with
    | Some (customerId, _) => ret (Some customerId)
    | None =>
        let* t := now env in
        let* customerId :=
          runMutation env
            (Customers.createCustomerFromWebhook
               {| pc_id := polarCustomerId;
                  pc_email := or_str (d_customer_email d) "";
                  pc_email_verified := false;
                  pc_metadata := None;
                  pc_created_at := iso t;
                  pc_modified_at := None |}) in
        let* c := runQuery (Customers.getCustomerById customerId) in
        ret (match c with Some _ => Some customerId | None => None end)
    end in
  match customer with
  | Some customerId =>
      let* polarSubscriptionId := required (d_id d) in
      let* polarProductId := required (d_product_id d) in
      let* status := mapped_status_arg (d_status d) in
      let* _ :=
        runMutation env
          (Subscriptions.createSubscription
             {| Subscriptions.ca_customerId := customerId;
                Subscriptions.ca_polarSubscriptionId := polarSubscriptionId;
                Subscriptions.ca_polarProductId := polarProductId;
                Subscriptions.ca_planId := None;
                Subscriptions.ca_status := status;
                Subscriptions.ca_currentPeriodStart := d_current_period_start d;
                Subscriptions.ca_currentPeriodEnd := d_current_period_end d;
                Subscriptions.ca_trialStart := d_trial_start d;
                Subscriptions.ca_trialEnd := d_trial_end d;
                Subscriptions.ca_metadata := d_metadata d |}) in
      ret tt
  | None => ret tt
  end.

Definition update_subscription (d : EventData) (u : Subscriptions.Updates)
    : Action unit :=
  let* polarSubscriptionId := required (d_id d) in
  let* _ :=
    runMutation env
      (Subscriptions.updateSubscriptionFromWebhook polarSubscriptionId u) in
  ret tt.

Definition handleSubscriptionUpdated (payload : Payload) : Action unit :=
  let d := p_data payload in
  update_subscription d
    {| Subscriptions.u_status := d_status d;
       Subscriptions.u_currentPeriodStart := d_current_period_start d;
       Subscriptions.u_currentPeriodEnd := d_current_period_end d;
       Subscriptions.u_cancelAtPeriodEnd := d_cancel_at_period_end d;
       Subscriptions.u_canceledAt := None;
       Subscriptions.u_endedAt := None;
       Subscriptions.u_metadata := d_metadata d |}.

Definition handleSubscriptionActive (payload : Payload) : Action unit :=
  let d := p_data payload in
  update_subscription d
    {| Subscriptions.u_status := Some "active";
       Subscriptions.u_currentPeriodStart := d_current_period_start d;
       Subscriptions.u_currentPeriodEnd := d_current_period_end d;
       Subscriptions.u_cancelAtPeriodEnd := None;
       Subscriptions.u_canceledAt := None;
       Subscriptions.u_endedAt := None;
       Subscriptions.u_metadata := None |}.

Definition handleSubscriptionCanceled (payload : Payload) : Action unit :=
  let d := p_data payload in
  let* canceledAt := or_now (d_canceled_at d) in
  update_subscription d
    {| Subscriptions.u_status := Some "canceled";
       Subscriptions.u_currentPeriodStart := None;
       Subscriptions.u_currentPeriodEnd := None;
       Subscriptions.u_cancelAtPeriodEnd := d_cancel_at_period_end d;
       Subscriptions.u_canceledAt := Some canceledAt;
       Subscriptions.u_endedAt := d_ended_at d;
       Subscriptions.u_metadata := None |}.

Definition handleSubscriptionRevoked (payload : Payload) : Action unit :=
  let d := p_data payload in
  let* endedAt := or_now (d_ended_at d) in
  update_subscription d
    {| Subscriptions.u_status := Some "revoked";
       Subscriptions.u_currentPeriodStart := None;
       Subscriptions.u_currentPeriodEnd := None;
       Subscriptions.u_cancelAtPeriodEnd := None;
       Subscriptions.u_canceledAt := None;
       Subscriptions.u_endedAt := Some endedAt;
       Subscriptions.u_metadata := None |}.

(** Informational only: the handler logs the checkout id. *)
Definition handleCheckoutCreated (payload : Payload) : Action unit :=
  ret tt.

Definition handleCheckoutUpdated (payload : Payload) : Action unit :=
  let d := p_data payload in
  match d_status d with
  | Some status =>
      if String.eqb status "succeeded" || String.eqb status "completed"
      then
        let* t := now env in
        let* polarCheckoutId := required (d_id d) in
        let* _ :=
          runMutation env
            (Checkout.completeCheckoutSession polarCheckoutId (Some (iso t))
               (Some {[ "polarStatus" := JStr status ]})) in
        ret tt
      else ret tt
  | None => ret tt
  end.

Definition handleOrderCreated (payload : Payload) : Action unit :=
  let d := p_data payload in
  let* polarCustomerId := required (d_customer_id d) in
  let* customer := runQuery (Customers.getCustomerByPolarId polarCustomerId) in
  match customer with
  | Some (customerId, _) =>
      let* polarOrderId := required (d_id d) in
      let* polarProductId := required (d_product_id d) in
      let* amount := required (d_amount d) in
      let* currency := required (d_currency d) in
      let* _ :=
        runMutation env
          (createOrder customerId polarOrderId polarProductId amount currency
                       "pending" (d_metadata d)) in
      ret tt
  | None => ret tt
  end.

Definition handleInvoiceCreated (payload : Payload) : Action unit :=
  let d := p_data payload in
  let* polarCustomerId := required (d_customer_id d) in
  let* customer := runQuery (Customers.getCustomerByPolarId polarCustomerId) in
  match customer with
  | Some (customerId, _) =>
      let* subscription :=
        match d_subscription_id d with
        | Some sid =>
            if truthy_str sid
            then runQuery (Subscriptions.getSubscriptionByPolarId sid)
            else ret None
        | None => ret None
        end in
      let* polarInvoiceId := required (d_id d) in
      let* amountDue := required (d_amount_due d) in
      let* currency := required (d_currency d) in
      let* status := required (d_status d) in
      let* _ :=
        runMutation env
          (createInvoice
             {| ia_customerId := customerId;
                ia_subscriptionId := fst <$> subscription;
                ia_polarInvoiceId := polarInvoiceId;
                ia_invoiceNumber := d_number d;
                ia_amountDue := amountDue;
                ia_currency := currency;
                ia_status := status;
                ia_dueDate := d_due_date d;
                ia_periodStart := d_period_start d;
                ia_periodEnd := d_period_end d;
                ia_metadata := d_metadata d |}) in
      ret tt
  | None => ret tt
  end.

Definition handleInvoicePaid (payload : Payload) : Action unit :=
  let d := p_data payload in
  let* paidAt := or_now (d_paid_at d) in
  let* polarInvoiceId := required (d_id d) in
  runMutation env
    (updateInvoiceStatus polarInvoiceId "paid" (Some paidAt) (d_amount_paid d)).

(** The validator of [type]: one of the three literals. *)
Definition payment_method_type_arg (type : option string)
    : Action PaymentMethodType :=
  match type with
  | Some t =>
      if String.eqb t "card" then ret PmCard
      else if String.eqb t "bank_transfer" then ret PmBankTransfer
      else if String.eqb t "paypal" then ret PmPaypal
      else throw ArgumentValidationError
  | None => throw ArgumentValidationError
  end.

Definition handlePaymentMethodAttached (payload : Payload) : Action unit :=
  let d := p_data payload in
  let* polarCustomerId := required (d_customer_id d) in
  let* customer := runQuery (Customers.getCustomerByPolarId polarCustomerId) in
  match customer with
  | Some (customerId, c) =>
      match cus_userId c with
      | Some userId =>
          let* polarPaymentMethodId := required (d_id d) in
          let* type := payment_method_type_arg (d_type d) in
          let* _ :=
            runMutation env
              (createPaymentMethod userId customerId polarPaymentMethodId type
                 (d_card d ≫= card_brand) (d_card d ≫= card_last4)
                 (d_card d ≫= card_exp_month) (d_card d ≫= card_exp_year)) in
          ret tt
      | None => ret tt
      end
  | None => ret tt
  end.

Definition handlePaymentMethodDetached (payload : Payload) : Action unit :=
  let d := p_data payload in
  let* polarPaymentMethodId := required (d_id d) in
  runMutation env (deletePaymentMethod polarPaymentMethodId).

(** The [switch (eventType)] of the dispatcher; an unknown type is logged
    and nothing else happens. *)
Definition dispatch (eventType : string) (payload : Payload) : Action unit :=
  if String.eqb eventType "customer.created" then handleCustomerCreated payload
  else if String.eqb eventType "customer.updated" then handleCustomerUpdated payload
  else if String.eqb eventType "subscription.created" then handleSubscriptionCreated payload
  else if String.eqb eventType "subscription.updated" then handleSubscriptionUpdated payload
  else if String.eqb eventType "subscription.active" then handleSubscriptionActive payload
  else if String.eqb eventType "subscription.canceled" then handleSubscriptionCanceled payload
  else if String.eqb eventType "subscription.revoked" then handleSubscriptionRevoked payload
  else if String.eqb eventType "checkout.created" then handleCheckoutCreated payload
  else if String.eqb eventType "checkout.updated" then handleCheckoutUpdated payload
  else if String.eqb eventType "order.created" then handleOrderCreated payload
  else if String.eqb eventType "invoice.created" then handleInvoiceCreated payload
  else if String.eqb eventType "invoice.paid" then handleInvoicePaid payload
  else if String.eqb eventType "payment_method.attached" then handlePaymentMethodAttached payload
  else if String.eqb eventType "payment_method.detached" then handlePaymentMethodDetached payload
  else ret tt.

End Handlers.

Section Dispatcher.

Variable env : Env.

(** [request.headers.get("x-webhook-signature") ||
    request.headers.get("x-polar-signature") || ""]. *)
Definition signature_header (request : Request) : string :=
  let first_header := req_headers request !! "x-webhook-signature" in
  if truthy_ostr first_header then or_str first_header ""
  else or_str (req_headers request !! "x-polar-signature") "".

(** [payload.id || `${payload.type}_${Date.now()}`]. *)
Definition event_id_of (payload : Payload) : Action string :=
  if truthy_ostr (p_id payload) then ret (or_str (p_id payload) "")
  else
    let* t := now env in
    ret (p_type payload ++ "_" ++ number_string (ms t))%string.

Definition ok_response : Response := mkResponse (Some "OK") 200.

(** The inner [try] of the dispatcher: route the event and mark it
    processed; on an exception mark it failed and answer 500.  The result
    is the early response of the [catch], if any. *)
Definition process_event (eventId eventType : string) (payload : Payload)
    : Action (option Response) :=
  try_catch
    (dispatch env eventType payload ;;
     runMutation env (markWebhookEventProcessed eventId ResultSuccess None) ;;
     ret None)
    (fun error =>
       runMutation env
         (markWebhookEventProcessed eventId ResultError
            (Some (error_message error))) ;;
       ret (Some (mkResponse (Some "Processing error") 500))).

(** The body of the outer [try] of [handlePolarWebhook]. *)
Definition handlePolarWebhook_try (request : Request) : Action Response :=
  let rawBody := req_body request in
  let signature := signature_header request in
  if negb (truthy_str signature)
  then ret (mkResponse (Some "Missing signature") 401)
  else if negb (truthy_ostr (POLAR_WEBHOOK_SECRET env))
  then ret (mkResponse (Some "Webhook secret not configured") 500)
  else if negb (verifyWebhookSignature env rawBody signature
                  (or_str (POLAR_WEBHOOK_SECRET env) ""))
  then ret (mkResponse (Some "Invalid signature") 401)
  else
    match JSON_parse env rawBody with
    | None => throw (ErrorObj "Unexpected token in JSON")
    | Some payload =>
        let* eventId := event_id_of payload in
        let eventType := p_type payload in
        let* existingEvent := runQuery (getWebhookEventById eventId) in
        match existingEvent with
        | Some _ => ret ok_response
        | None =>
            let* t := now env in
            let* _ :=
              runMutation env
                (storeWebhookEvent eventId eventType SourcePolar payload (iso t)) in
            let* early := process_event eventId eventType payload in
            match early with
            | Some response => ret response
            | None => ret ok_response
            end
        end
    end.

(** [handlePolarWebhook]: whatever the body throws becomes a 500. *)
Definition handlePolarWebhook (request : Request) (w : World)
    : Response * World :=
  match handlePolarWebhook_try request w with
  | (Ok response, w') => (response, w')
  | (Throw _, w') => (mkResponse (Some "Internal error") 500, w')
  end.

End Dispatcher.

End Webhooks.

(** ** The handler mounted on the route (polarWebhook.ts, http.ts)

    http.ts imports [handlePolarWebhook] from ["./polarWebhook"] and
    mounts it on POST /polar/webhook.  That module reads the single header
    [webhook-signature], does not verify it, and touches no table. *)

Module PolarWebhook.

Definition handlePolarWebhook (env : Env) (request : Request) (w : World)
    : Response * World :=
  let payload := req_body request in
  if negb (truthy_ostr (req_headers request !! "webhook-signature"))
  then (mkResponse (Some "Missing signature") 400, w)
  else if negb (truthy_ostr (POLAR_WEBHOOK_SECRET env))
  then (mkResponse (Some "Webhook secret not configured") 500, w)
  else
    match JSON_parse env payload with
    | Some event => (mkResponse None 200, w)
    | None => (mkResponse (Some "Webhook processing failed") 400, w)
    end.

End PolarWebhook.

(** ** Synchronisation jobs (sync.ts) *)

Module Sync.

(** *** Internal queries and mutations *)

(** [getAllCustomers]. *)
Definition getAllCustomers (limit : nat) : Query (list (Id * Customer)) :=
  fun db => take_docs limit (fun _ => true) (customers db).


(** [getPendingInvoices]. *)
Definition getPendingInvoices : Query (list (Id * Invoice)) :=
  fun db => collect (fun i => String.eqb (inv_status i) "pending") (invoices db).

(** The [polarSubscription] argument of [syncSubscription]. *)
Record SyncArg : Type := mkSyncArg {
  sa_id : string;
  sa_status : string;
  sa_product_id : string;
  sa_customer_id : string;
  sa_current_period_start : string;
  sa_current_period_end : option string;
  sa_cancel_at_period_end : bool;
  sa_canceled_at : option string;
  sa_metadata : option Metadata;
}.

Definition NotAStatus : Thrown :=
  ErrorObj "Value is not a subscription status".

(** [syncSubscription]: patch the row with this external id, or insert
    one for a known customer.  As in the webhook mutator, a mapped status
    that is not a subscription state cannot be written. *)
Definition syncSubscription (customerId : Id) (a : SyncArg) : Mutation unit :=
  fun now db =>
    let status := mapPolarStatus (sa_status a) in
    match Subscriptions.getSubscriptionByPolarId (sa_id a) db with
    | Some (id, existing) =>
        match status with
        | VInherited _ => Throw NotAStatus
        | VStatus s =>
            let p :=
              {| p_status := Some s;
                 p_currentPeriodStart := Some (Some (sa_current_period_start a));
                 p_currentPeriodEnd := Some (sa_current_period_end a);
                 p_cancelAtPeriodEnd := Some (sa_cancel_at_period_end a);
                 p_canceledAt := Some (sa_canceled_at a);
                 p_endedAt := None;
                 p_metadata := None;
                 p_updatedAt := Some now;
                 p_lastSyncedAt := Some (Some now) |} in
            Ok (tt, with_subscriptions db
                      (db_put (subscriptions db) id
                              (patch_subscription p existing)))
        end
    | None =>
        match db_get (customers db) customerId with
        | None => Ok (tt, db)
        | Some customer =>
            match status with
            | VInherited _ => Throw NotAStatus
            | VStatus s =>
                let '(t, _) :=
                  db_insert (subscriptions db)
                    {| sub_customerId := customerId;
                       sub_userId := cus_userId customer;
                       sub_orgId := cus_orgId customer;
                       sub_polarSubscriptionId := sa_id a;
                       sub_polarProductId := sa_product_id a;
                       sub_planId := None;
                       sub_status := s;
                       sub_currentPeriodStart := Some (sa_current_period_start a);
                       sub_currentPeriodEnd := sa_current_period_end a;
                       sub_cancelAtPeriodEnd := sa_cancel_at_period_end a;
                       sub_canceledAt := sa_canceled_at a;
                       sub_endedAt := None;
                       sub_trialStart := None;
                       sub_trialEnd := None;
                       sub_metadata := sa_metadata a;
                       sub_createdAt := now;
                       sub_updatedAt := now;
                       sub_lastSyncedAt := Some now |} in
                Ok (tt, with_subscriptions db t)
            end
        end
    end.

(** [updateInvoiceStatus] of sync.ts: [ctx.db.patch(invoiceId,
    { status, paidAt })]. *)
Definition updateInvoiceStatus (invoiceId : Id) (status : string)
    (paidAt : option string) : Mutation unit :=
  fun _ db =>
    match db_patch (invoices db) invoiceId
            (fun i =>
               {| inv_userId := inv_userId i;
                  inv_customerId := inv_customerId i;
                  inv_subscriptionId := inv_subscriptionId i;
                  inv_polarInvoiceId := inv_polarInvoiceId i;
                  inv_invoiceNumber := inv_invoiceNumber i;
                  inv_amountDueCents := inv_amountDueCents i;
                  inv_amountPaidCents := inv_amountPaidCents i;
                  inv_currency := inv_currency i;
                  inv_status := status;
                  inv_dueDate := inv_dueDate i;
                  inv_paidAt := paidAt;
                  inv_periodStart := inv_periodStart i;
                  inv_periodEnd := inv_periodEnd i;
                  inv_metadata := inv_metadata i;
                  inv_createdAt := inv_createdAt i |}) with
    | Some t => Ok (tt, with_invoices db t)
    | None => Throw PatchMissingDocument
    end.

(** [recordSyncStatus]. *)
Definition recordSyncStatus (type : string) (status : SyncStatusKind)
    (synced failed duration : Z) (errors : list SyncError) : Mutation unit :=
  fun now db =>
    let '(t, _) :=
      db_insert (billingSettings db)
        {| set_key := ("lastSync_" ++ type)%string;
           set_status := status;
           set_synced := synced;
           set_failed := failed;
           set_duration := duration;
           set_errors := errors;
           set_completedAt := now;
           set_updatedAt := now |} in
    Ok (tt, with_billingSettings db t).


(** *** Results of the jobs *)

(** What [syncAllSubscriptions] returns: [{ status: "skipped", reason,
    nextRetry }] or [{ status: "completed", synced, failed, duration,
    errors }]. *)
Inductive SubscriptionSyncResult : Type :=
  | SubSkipped (reason : string) (nextRetry : option Z)
  | SubCompleted (synced failed duration : Z) (errors : list SyncError).

(** What [syncPendingInvoices] returns. *)
Inductive InvoiceSyncResult : Type :=
  | InvSkipped (reason : string)
  | InvCompleted (updated failed duration : Z).







Section Jobs.

Variable env : Env.

(** *** The breaker as the jobs use it *)

(** [checkCircuitBreaker()] on the module-level state; the clock is read
    only when the breaker is open with a retry time. *)
Definition checkCircuitBreaker : Action bool :=
  fun w =>
    let cb := w_breaker w in
    match CircuitBreaker.isOpen cb, CircuitBreaker.nextRetry cb with
    | true, Some _ =>
        let '(allowed, cb') :=
          CircuitBreaker.checkCircuitBreaker (ms (clock env (w_ticks w))) cb in
        (Ok allowed, tick (set_breaker w cb'))
    | _, _ => (Ok true, w)
    end.

Definition recordSuccess : Action unit :=
  fun w => (Ok tt, set_breaker w (CircuitBreaker.recordSuccess (w_breaker w))).

(** [recordFailure()]: the second reading of the clock happens only when
    the breaker opens. *)
Definition recordFailure : Action unit :=
  fun w =>
    let cb := w_breaker w in
    let failedAt := ms (clock env (w_ticks w)) in
    if (3 <=? S (CircuitBreaker.failures cb))%nat
    then
      let retryBase := ms (clock env (S (w_ticks w))) in
      (Ok tt, tick (tick (set_breaker w
                 (CircuitBreaker.recordFailure failedAt retryBase cb))))
    else
      (Ok tt, tick (set_breaker w
                 (CircuitBreaker.recordFailure failedAt failedAt cb))).

Definition is_manual (externalId : string) : bool :=
  String.prefix "manual_" externalId.

(** *** Subscription sync *)

Definition sync_arg_of (polarSub : PolarSubscription) : SyncArg :=
  {| sa_id := ps_id polarSub;
     sa_status := ps_status polarSub;
     sa_product_id := ps_product_id polarSub;
     sa_customer_id := ps_customer_id polarSub;
     sa_current_period_start := ps_current_period_start polarSub;
     sa_current_period_end := ps_current_period_end polarSub;
     sa_cancel_at_period_end := ps_cancel_at_period_end polarSub;
     sa_canceled_at := ps_ended_at polarSub;
     sa_metadata := ps_metadata polarSub |}.

(** The body of the loop over customers, on the local variables
    [(synced, failed, errors)]. *)
Definition sync_customer (customer : Id * Customer)
    (locals : Z * Z * list SyncError) : Action (Z * Z * list SyncError) :=
  let '(synced, failed, errors) := locals in
  let '(customerId, c) := customer in
  let caught (synced' : Z) (error : Thrown) :=
    (synced', (failed + 1)%Z,
     errors ++ [ {| err_customerId := Some customerId;
                    err_error := error_message error |} ]) in
  if is_manual (cus_polarCustomerId c) then ret locals
  else
    let* listed :=
      try_catch
        (let* items :=
           call_polar env (CallSubscriptionsList (cus_polarCustomerId c))
             (fun api n => subscriptions_list api n (cus_polarCustomerId c)) in
         ret (inl items))
        (fun error => ret (inr error)) in
    match listed with
    | inr error => ret (caught synced error)
    | inl items =>
        let* counted :=
          count_until_throw
            (fun polarSub =>
               runMutation env (syncSubscription customerId (sync_arg_of polarSub)))
            items synced in
        match counted with
        | (synced', None) => ret (synced', failed, errors)
        | (synced', Some error) => ret (caught synced' error)
        end
    end.

(** [syncAllSubscriptions]. *)
Definition syncAllSubscriptions (batchSize : option nat)
    : Action SubscriptionSyncResult :=
  let* allowed := checkCircuitBreaker in
  if negb allowed
  then fun w =>
         (Ok (SubSkipped "Circuit breaker open"
                (CircuitBreaker.nextRetry (w_breaker w))), w)
  else
    let batch :=
      match batchSize with
      | Some 0 | None => 50
      | Some n => n
      end in
    let* startTime := now env in
    try_catch
      (let* customers := runQuery (getAllCustomers batch) in
       let* locals := fold_action sync_customer customers (0%Z, 0%Z, []) in
       let '(synced, failed, errors) := locals in
       let* finished := now env in
       let duration := (ms finished - ms startTime)%Z in
       runMutation env
         (recordSyncStatus "subscriptions"
            (if (failed =? 0)%Z then SyncSuccess else SyncPartial)
            synced failed duration errors) ;;
       recordSuccess ;;
       ret (SubCompleted synced failed duration (take 10 errors)))
      (fun error =>
         recordFailure ;;
         let* failedAt := now env in
         runMutation env
           (recordSyncStatus "subscriptions" SyncFailed 0%Z 0%Z
              (ms failedAt - ms startTime)%Z
              [ {| err_customerId := None;
                   err_error := error_message error |} ]) ;;
         throw error).

(** *** Invoice sync *)

(** The body of the loop over pending invoices, on [(updated, failed)]. *)
Definition sync_invoice (invoice : Id * Invoice) (locals : Z * Z)
    : Action (Z * Z) :=
  let '(updated, failed) := locals in
  let '(invoiceId, i) := invoice in
  if is_manual (inv_polarInvoiceId i) then ret locals
  else
    try_catch
      (let* order :=
         call_polar env (CallOrdersGet (inv_polarInvoiceId i))
           (fun api n => orders_get api n (inv_polarInvoiceId i)) in
       match order with
       | Some _ =>
           let* t := now env in
           runMutation env (updateInvoiceStatus invoiceId "paid" (Some (iso t))) ;;
           ret ((updated + 1)%Z, failed)
       | None => ret (updated, failed)
       end)
      (fun _ => ret (updated, (failed + 1)%Z)).

(** [syncPendingInvoices]. *)
Definition syncPendingInvoices : Action InvoiceSyncResult :=
  let* allowed := checkCircuitBreaker in
  if negb allowed
  then ret (InvSkipped "Circuit breaker open")
  else
    let* startTime := now env in
    try_catch
      (let* pendingInvoices := runQuery getPendingInvoices in
       let* locals := fold_action sync_invoice pendingInvoices (0%Z, 0%Z) in
       let '(updated, failed) := locals in
       recordSuccess ;;
       let* finished := now env in
       ret (InvCompleted updated failed (ms finished - ms startTime)%Z))
      (fun error => recordFailure ;; throw error).

(** *** Reconciliation *)










End Jobs.

End Sync.

(** ** Usage batching (usageTracking.ts) *)

Module UsageTracking.

(** [getUnprocessedEvents]. *)
Definition getUnprocessedEvents (limit : nat)
    : Query (list (Id * UsageEvent)) :=
  fun db => take_docs limit (fun e => negb (use_processed e)) (usageEvents db).

(** The patch of [markEventProcessed]: [processed] and [ingestedAt]
    always, [polarEventId] and [error] when the argument is truthy. *)
Definition mark (polarEventId error : option string) (now : string)
    (e : UsageEvent) : UsageEvent :=
  {| use_polarCustomerId := use_polarCustomerId e;
     use_eventType := use_eventType e;
     use_eventName := use_eventName e;
     use_units := use_units e;
     use_metadata := use_metadata e;
     use_createdAt := use_createdAt e;
     use_ingestedAt := Some now;
     use_polarEventId :=
       if truthy_ostr polarEventId then polarEventId else use_polarEventId e;
     use_processed := true;
     use_error := if truthy_ostr error then error else use_error e |}.

(** [markEventProcessed]. *)
Definition markEventProcessed (eventId : Id) (polarEventId : option string)
    (success : bool) (error : option string) : Mutation unit :=
  fun now db =>
    match db_patch (usageEvents db) eventId (mark polarEventId error now) with
    | Some t => Ok (tt, with_usageEvents db t)
    | None => Throw PatchMissingDocument
    end.

(** *** Grouping by customer *)

(** [eventsByCustomer]: the own properties of the object, in the order
    they were created. *)
Definition Groups : Type := list (string * list (Id * UsageEvent)).

(** [eventsByCustomer[key].push(event)], creating the array first when
    the key is new. *)
Fixpoint push_event (key : string) (event : Id * UsageEvent) (gs : Groups)
    : Groups :=
  match gs with
  | [] => [(key, [event])]
  | (k, es) :: rest =>
      if String.eqb k key then (k, es ++ [event]) :: rest
      else (k, es) :: push_event key event rest
  end.

Definition has_own (key : string) (gs : Groups) : bool :=
  existsb (fun g => String.eqb (fst g) key) gs.

(** The grouping loop.  An event without a customer id is skipped.
    [eventsByCustomer] is an object literal: for a key that
    [Object.prototype] defines and the object does not, the read
    [eventsByCustomer[key]] is truthy, no array is created, and
    [.push] is not a function of what was read: a [TypeError]. *)
Fixpoint group_events (events : list (Id * UsageEvent)) (gs : Groups)
    : Outcome Groups :=
  match events with
  | [] => Ok gs
  | event :: rest =>
      match use_polarCustomerId (snd event) with
      | None => group_events rest gs
      | Some key =>
          if negb (truthy_str key) then group_events rest gs
          else if negb (has_own key gs)
                  && existsb (String.eqb key) object_prototype_members
          then Throw (ErrorObj "eventsByCustomer[event.polarCustomerId].push is not a function")
          else group_events rest (push_event key event gs)
      end
  end.

(** *** [Object.entries]: array-index keys first, in ascending order,
    then the other keys in creation order *)

Definition digit_of (c : ascii) : option N :=
  let n := N_of_ascii c in
  if (48 <=? n)%N && (n <=? 57)%N then Some (n - 48)%N else None.

Fixpoint parse_decimal (s : string) (acc : N) : option N :=
  match s with
  | EmptyString => Some acc
  | String c rest =>
      match digit_of c with
      | Some d => parse_decimal rest (acc * 10 + d)%N
      | None => None
      end
  end.

(** The array index a key denotes, if it is the canonical decimal form
    of an integer below 2^32 - 1. *)
Definition array_index (key : string) : option N :=
  match key with
  | EmptyString => None
  | String c rest =>
      match parse_decimal key 0 with
      | Some n =>
          if (negb (Ascii.eqb c "0") || String.eqb rest "")
             && (n <? 4294967295)%N
          then Some n else None
      | None => None
      end
  end.

Fixpoint insert_by_index {A} (x : N * A) (l : list (N * A)) : list (N * A) :=
  match l with
  | [] => [x]
  | y :: rest =>
      if (fst x <=? fst y)%N then x :: l else y :: insert_by_index x rest
  end.

Definition sort_by_index {A} (l : list (N * A)) : list (N * A) :=
  fold_right insert_by_index [] l.

Definition indexed (g : string * list (Id * UsageEvent))
    : option (N * (string * list (Id * UsageEvent))) :=
  match array_index (fst g) with
  | Some n => Some (n, g)
  | None => None
  end.

Definition object_entries (gs : Groups) : Groups :=
  map snd (sort_by_index (omap indexed gs))
  ++ List.filter (fun g => negb (bool_decide (is_Some (array_index (fst g))))) gs.

(** *** The forwarder *)

(** The element sent for one usage event:
    [{ customer_id, event_name, properties: { type, units,
    ...event.metadata }, timestamp }]. *)
Definition polar_event_of (polarCustomerId : string) (event : Id * UsageEvent)
    : PolarEvent :=
  let e := snd event in
  {| pe_customer_id := polarCustomerId;
     pe_event_name := use_eventName e;
     pe_properties :=
       spread {[ "type" := JStr (use_eventType e);
                 "units" := JNum (use_units e) ]}
              (spread_opt (use_metadata e));
     pe_timestamp := use_createdAt e |}.

Record Totals : Type := mkTotals {
  processed : Z;
  failed : Z;
}.

(** [args.batchSize || 100]. *)
Definition batch_limit (batchSize : option nat) : nat :=
  match batchSize with
  | Some 0 | None => 100
  | Some n => n
  end.

Section Forwarder.

Variable env : Env.

(** Mark one event of a group whose call succeeded; the event id is
    [`batch_${Date.now()}`]. *)
Definition mark_success (event : Id * UsageEvent) : Action unit :=
  let* t := now env in
  runMutation env
    (markEventProcessed (fst event)
       (Some ("batch_" ++ number_string (ms t))%string) true None).

(** Mark one event of a group whose call failed. *)
Definition mark_failure (error : Thrown) (event : Id * UsageEvent)
    : Action unit :=
  runMutation env
    (markEventProcessed (fst event) None false (Some (error_message error))).

(** One turn of the loop over [Object.entries(eventsByCustomer)], on the
    local variables [(processed, failed)]. *)
Definition send_group (group : string * list (Id * UsageEvent))
    (locals : Totals) : Action Totals :=
  let '(polarCustomerId, customerEvents) := group in
  try_catch
    (let polarEvents := map (polar_event_of polarCustomerId) customerEvents in
     let* result :=
       call_polar env (CallIngestEvents polarEvents)
         (fun api n => metrics_ingestEvents api n polarEvents) in
     for_each mark_success customerEvents ;;
     ret {| processed := (processed locals + accepted result)%Z;
            failed := (failed locals + rejected result)%Z |})
    (fun error =>
       for_each (mark_failure error) customerEvents ;;
       ret {| processed := processed locals;
              failed := (failed locals + Z.of_nat (length customerEvents))%Z |}).

(** [batchIngestUsage]. *)
Definition batchIngestUsage (batchSize : option nat) : Action Totals :=
  let* events := runQuery (getUnprocessedEvents (batch_limit batchSize)) in
  match events with
  | [] => ret {| processed := 0; failed := 0 |}
  | _ =>
      match group_events events [] with
      | Throw error => throw error
      | Ok eventsByCustomer =>
          fold_action send_group (object_entries eventsByCustomer)
            {| processed := 0; failed := 0 |}
      end
  end.

End Forwarder.

End UsageTracking.

(** * Properties *)

(** ** Circuit breaker *)

Section CircuitBreakerProps.

Import CircuitBreaker.
#[local] Open Scope Z_scope.

(** The state [checkCircuitBreaker] leaves when it lets a call through an
    open breaker. *)
Definition half_open (cb : State) : State :=
  {| isOpen := false; failures := 0;
     lastFailure := lastFailure cb; nextRetry := nextRetry cb |}.

Lemma recordFailure_counts (failedAt now : Z) (cb : State) :
  failures (recordFailure failedAt now cb) = S (failures cb).
Proof. unfold recordFailure. by destruct (3 <=? S (failures cb))%nat. Qed.

Lemma recordFailure_trips (failedAt now : Z) (cb : State) :
  (2 <= failures cb)%nat ->
  isOpen (recordFailure failedAt now cb) = true
  /\ nextRetry (recordFailure failedAt now cb) = Some (now + cooldown).
Proof.
  intros Hcount. unfold recordFailure.
  assert (Htrip : (3 <=? S (failures cb))%nat = true) by (apply Nat.leb_le; lia).
  rewrite Htrip. done.
Qed.

Lemma checkCircuitBreaker_open (now retry : Z) (cb : State) :
  isOpen cb = true ->
  nextRetry cb = Some retry ->
  checkCircuitBreaker now cb
  = if now <? retry then (false, cb) else (true, half_open cb).
Proof.
  intros Hopen Hretry. destruct cb as [o f l r]; simpl in *; subst.
  reflexivity.
Qed.

(** C3.  From any state of the breaker, three consecutive
    [recordFailure()] calls leave it open with the retry time five
    minutes (300000 ms) after the last reading of the clock; from then on
    [checkCircuitBreaker()] answers [false] and changes nothing at every
    instant before the retry time, and at or after it answers [true]
    with the failure count reset to 0 and the breaker closed; and
    [recordSuccess()] always resets the count to 0 and closes the
    breaker. *)
Theorem C3_circuit_breaker_trip_and_reset :
  forall (cb : State) (f1 n1 f2 n2 f3 n3 : Z),
    let tripped :=
      recordFailure f3 n3 (recordFailure f2 n2 (recordFailure f1 n1 cb)) in
    isOpen tripped = true
    /\ nextRetry tripped = Some (n3 + 300000)
    /\ (forall now : Z,
          checkCircuitBreaker now tripped
          = if now <? n3 + 300000 then (false, tripped)
            else (true, half_open tripped))
    /\ failures (half_open tripped) = 0%nat
    /\ isOpen (half_open tripped) = false
    /\ (forall any : State,
          failures (recordSuccess any) = 0%nat
          /\ isOpen (recordSuccess any) = false).
Proof.
  intros cb f1 n1 f2 n2 f3 n3 tripped.
  assert (Hcount : (2 <= failures (recordFailure f2 n2 (recordFailure f1 n1 cb)))%nat).
  { rewrite !recordFailure_counts. lia. }
  destruct (recordFailure_trips f3 n3 _ Hcount) as [Hopen Hretry].
  change (n3 + cooldown) with (n3 + 300000) in Hretry.
  repeat split; try done.
  intros now. by apply checkCircuitBreaker_open.
Qed.

End CircuitBreakerProps.

(** ** Status mapping *)

Lemma own_property_statusMap (key : string) (s : SubscriptionStatus) :
  own_property key statusMap = Some s -> status_string s = key.
Proof.
  unfold statusMap. cbn [own_property].
  repeat match goal with
         | |- context [String.eqb ?k key] =>
             destruct (String.eqb_spec k key) as [<- | _];
             [intros [= <-]; reflexivity |]
         end.
  discriminate.
Qed.

(** Away from the names [Object.prototype] defines, the mapping is as
    intended: a known status maps to itself, any other string to
    [revoked]. *)
Lemma mapPolarStatus_plain (key : string) :
  existsb (String.eqb key) object_prototype_members = false ->
  mapPolarStatus key
  = VStatus (default Revoked (own_property key statusMap)).
Proof.
  intros Hplain. unfold mapPolarStatus, statusMap_get.
  destruct (own_property key statusMap); [done |]. by rewrite Hplain.
Qed.

Lemma mapPolarStatus_known (s : SubscriptionStatus) :
  s <> Revoked -> mapPolarStatus (status_string s) = VStatus s.
Proof. by destruct s. Qed.

(** C5 (at the failing input).  For the status string ["constructor"]
    the mapping returns the member inherited from [Object.prototype],
    which is none of the eight subscription states; in particular it is
    not [revoked]. *)
Theorem C5_mapPolarStatus_inherited_member :
  mapPolarStatus "constructor" = VInherited "constructor"
  /\ forall s : SubscriptionStatus, mapPolarStatus "constructor" <> VStatus s.
Proof. split; [reflexivity | intros s; discriminate]. Qed.

(** ** The document store *)

Section StoreProps.

Context {A : Type}.
Implicit Types (t : Table A) (p : A -> bool) (id : Id) (d : A).

Lemma docs_from_In (k : Id) t id d :
  In (id, d) (docs_from k t) <-> k <= id /\ t !! (id - k) = Some (Some d).
Proof.
  revert k. induction t as [| slot rest IH]; intros k; simpl.
  - split; [done | intros [_ Hl]; done].
  - assert (Hstep : In (id, d) (docs_from (S k) rest)
                    <-> k <= id /\ id <> k /\ (slot :: rest) !! (id - k) = Some (Some d)).
    { rewrite IH. split.
      - intros [Hle Hl]. repeat split; [lia | lia |].
        replace (id - k) with (S (id - S k)) by lia. done.
      - intros (Hle & Hne & Hl). split; [lia |].
        replace (id - k) with (S (id - S k)) in Hl by lia. done. }
    destruct slot as [d0 |]; simpl; rewrite Hstep.
    + split.
      * intros [[= <- <-] | (Hle & Hne & Hl)]; [| done].
        split; [lia |]. by rewrite Nat.sub_diag.
      * intros [Hle Hl]. destruct (decide (id = k)) as [-> | Hne].
        -- left. rewrite Nat.sub_diag in Hl. simpl in Hl. congruence.
        -- right. done.
    + split.
      * intros (Hle & Hne & Hl). done.
      * intros [Hle Hl]. destruct (decide (id = k)) as [-> | Hne].
        -- rewrite Nat.sub_diag in Hl. simpl in Hl. congruence.
        -- done.
Qed.

Lemma documents_In t id d : In (id, d) (documents t) <-> db_get t id = Some d.
Proof.
  unfold documents. rewrite docs_from_In, Nat.sub_0_r. unfold db_get.
  split.
  - intros [_ Hl]. by rewrite Hl.
  - intros Hget. split; [lia |].
    destruct (t !! id) as [[d' |] |]; congruence.
Qed.

Lemma collect_In p t id d :
  In (id, d) (collect p t) <-> db_get t id = Some d /\ p d = true.
Proof. unfold collect. by rewrite filter_In, documents_In. Qed.

Lemma head_In {B} (l : list B) (x : B) : head l = Some x -> In x l.
Proof. destruct l; [done |]. intros [= ->]. by left. Qed.

Lemma first_Some p t id d :
  first p t = Some (id, d) -> db_get t id = Some d /\ p d = true.
Proof. intros Hfirst. apply collect_In. by apply head_In. Qed.

Lemma db_get_lt t id d : db_get t id = Some d -> id < length t.
Proof.
  unfold db_get. destruct (t !! id) as [slot |] eqn:Hl; [| done].
  intros _. by eapply lookup_lt_Some.
Qed.

Lemma db_get_put_eq t id d : id < length t -> db_get (db_put t id d) id = Some d.
Proof. intros Hlt. unfold db_get, db_put. by rewrite list_lookup_insert_eq. Qed.

Lemma db_get_put_ne t id id' d :
  id <> id' -> db_get (db_put t id d) id' = db_get t id'.
Proof. intros Hne. unfold db_get, db_put. by rewrite list_lookup_insert_ne. Qed.



Lemma db_get_insert_old t d id :
  id < length t -> db_get (fst (db_insert t d)) id = db_get t id.
Proof. intros Hlt. unfold db_get, db_insert. simpl. by rewrite lookup_app_l. Qed.

(** Overwriting a document found by [first] with another that satisfies
    the predicate leaves it the first match. *)
Lemma docs_from_put_first (k : Id) t p id d d' :
  head (List.filter (fun x => p (snd x)) (docs_from k t)) = Some (id, d) ->
  p d' = true ->
  head (List.filter (fun x => p (snd x)) (docs_from k (<[id - k := Some d']> t)))
  = Some (id, d').
Proof.
  revert k. induction t as [| slot rest IH]; intros k Hhead Hp; [done |].
  assert (Hle : k <= id).
  { apply head_In, filter_In in Hhead as [Hin _].
    apply docs_from_In in Hin. lia. }
  destruct (decide (id = k)) as [-> | Hne].
  - rewrite Nat.sub_diag. simpl. by rewrite Hp.
  - replace (id - k) with (S (id - S k)) by lia. simpl.
    destruct slot as [d0 |]; simpl in *.
    + destruct (p d0) eqn:Hd0; simpl in *.
      * injection Hhead as -> ->. lia.
      * by apply IH.
    + by apply IH.
Qed.

Lemma first_put p t id d d' :
  first p t = Some (id, d) -> p d' = true ->
  first p (db_put t id d') = Some (id, d').
Proof.
  intros Hfirst Hp. unfold first, collect, documents, db_put in *.
  pose proof (docs_from_put_first 0 t p id d d' Hfirst Hp) as H.
  by rewrite Nat.sub_0_r in H.
Qed.

End StoreProps.

(** ** Subscription updates from notifications *)

(** Run a mutation as a transaction: its writes on success, the database
    as it was when it throws. *)
Definition commit {A} (m : Mutation A) (now : string) (db : Db) : Db :=
  match m now db with
  | Ok (_, db') => db'
  | Throw _ => db
  end.

(** Apply the same "subscription.updated" arguments once per clock
    reading of [times], in order. *)
Definition apply_all (polarSubscriptionId : string)
    (u : Subscriptions.Updates) (times : list string) (db : Db) : Db :=
  fold_left
    (fun db now =>
       commit (Subscriptions.updateSubscriptionFromWebhook polarSubscriptionId u)
              now db)
    times db.

(** A subscription without the two stamps the mutator refreshes. *)
Definition clear_stamps (s : Subscription) : Subscription :=
  patch_subscription
    {| p_status := None; p_currentPeriodStart := None;
       p_currentPeriodEnd := None; p_cancelAtPeriodEnd := None;
       p_canceledAt := None; p_endedAt := None; p_metadata := None;
       p_updatedAt := Some ""; p_lastSyncedAt := Some None |} s.

Section UpdateProps.

Import Subscriptions.




Lemma patch_modulo_stamps (u : Updates) (st : option SubscriptionStatus)
    (t1 t2 : string) (s : Subscription) :
  clear_stamps (patch_subscription (build_patch u st t1 s) s)
  = clear_stamps (patch_subscription (build_patch u st t2 s) s).
Proof. reflexivity. Qed.










End UpdateProps.

(** ** Metadata on upsert *)

Section MetadataProps.









End MetadataProps.

(** ** Sample data for the concrete cases *)

Definition sample_customer : Customer :=
  {| cus_userId := None;
     cus_orgId := None;
     cus_email := "ada@example.com";
     cus_polarCustomerId := "cus_1";
     cus_createdAt := "2024-01-01T00:00:00.000Z";
     cus_lastSyncedAt := None;
     cus_metadata := Some {[ "b" := JNum 2 ]} |}.

Definition sample_subscription : Subscription :=
  {| sub_customerId := 0;
     sub_userId := None;
     sub_orgId := None;
     sub_polarSubscriptionId := "sub_1";
     sub_polarProductId := "prod_1";
     sub_planId := None;
     sub_status := Active;
     sub_currentPeriodStart := Some "2024-01-01T00:00:00Z";
     sub_currentPeriodEnd := None;
     sub_cancelAtPeriodEnd := false;
     sub_canceledAt := None;
     sub_endedAt := None;
     sub_trialStart := None;
     sub_trialEnd := None;
     sub_metadata := Some {[ "b" := JNum 2 ]};
     sub_createdAt := "2024-01-01T00:00:00.000Z";
     sub_updatedAt := "2024-01-01T00:00:00.000Z";
     sub_lastSyncedAt := None |}.

(** One customer [cus_1] with one active subscription [sub_1], both with
    metadata [{b: 2}]. *)
Definition sample_db : Db :=
  with_subscriptions (with_customers empty_db [Some sample_customer])
                     [Some sample_subscription].

(** The arguments of a "subscription.updated" notification for [sub_1]:
    status [past_due], metadata [{a: 1}]. *)
Definition sample_updates : Subscriptions.Updates :=
  {| Subscriptions.u_status := Some "past_due";
     Subscriptions.u_currentPeriodStart := None;
     Subscriptions.u_currentPeriodEnd := None;
     Subscriptions.u_cancelAtPeriodEnd := Some false;
     Subscriptions.u_canceledAt := None;
     Subscriptions.u_endedAt := None;
     Subscriptions.u_metadata := Some {[ "a" := JNum 1 ]} |}.




(** The same notification on the subscription side merges. *)
Example update_merges_sample :
  sub_metadata <$>
    db_get (subscriptions
              (apply_all "sub_1" sample_updates ["2024-02-01T00:00:00.000Z"]
                         sample_db)) 0
  = Some (Some {[ "a" := JNum 1; "b" := JNum 2 ]}).
Proof. vm_compute. reflexivity. Qed.

(** ** Relations every step of an action preserves *)

(** A relation between the world before and after that holds across no
    step at all, composes, and does not look at the clock. *)
Class Stable (R : World -> World -> Prop) : Prop := {
  stable_refl : forall w, R w w;
  stable_trans : forall a b c, R a b -> R b c -> R a c;
  stable_tick : forall w, R w (tick w);
}.

Definition preserves (R : World -> World -> Prop) {A} (m : Action A) : Prop :=
  forall w, R w (snd (m w)).

(** A mutation whose committed writes are in the relation. *)
Definition mutation_within (R : World -> World -> Prop) {A} (m : Mutation A)
    : Prop :=
  forall now w a db', m now (w_db w) = Ok (a, db') -> R w (set_db w db').

Section Preservation.

Context (R : World -> World -> Prop) `{!Stable R}.

Lemma preserves_ret {A} (a : A) : preserves R (ret a).
Proof. intros w. apply stable_refl. Qed.

Lemma preserves_throw {A} (e : Thrown) : preserves R (@throw A e).
Proof. intros w. apply stable_refl. Qed.

Lemma preserves_bind {A B} (m : Action A) (k : A -> Action B) :
  preserves R m -> (forall a, preserves R (k a)) -> preserves R (bind m k).
Proof.
  intros Hm Hk w. unfold bind. specialize (Hm w).
  destruct (m w) as [[a | e] w1]; simpl in *; [| done].
  eapply stable_trans; [exact Hm | apply Hk].
Qed.

Lemma preserves_try_catch {A} (m : Action A) (h : Thrown -> Action A) :
  preserves R m -> (forall e, preserves R (h e)) -> preserves R (try_catch m h).
Proof.
  intros Hm Hh w. unfold try_catch. specialize (Hm w).
  destruct (m w) as [[a | e] w1]; simpl in *; [done |].
  eapply stable_trans; [exact Hm | apply Hh].
Qed.

Lemma preserves_required {A} (o : option A) : preserves R (required o).
Proof. destruct o; [apply preserves_ret | apply preserves_throw]. Qed.

Lemma preserves_runQuery {A} (q : Query A) : preserves R (runQuery q).
Proof. intros w. apply stable_refl. Qed.

Lemma preserves_now (env : Env) : preserves R (now env).
Proof. intros w. apply stable_tick. Qed.

Lemma preserves_runMutation {A} (env : Env) (m : Mutation A) :
  mutation_within R m -> preserves R (runMutation env m).
Proof.
  intros Hm w. unfold runMutation.
  destruct (m (iso (clock env (w_ticks w))) (w_db w)) as [[a db'] | e] eqn:Hrun;
    simpl.
  - eapply stable_trans; [by eapply Hm | apply stable_tick].
  - apply stable_tick.
Qed.

Lemma preserves_for_each {A} (f : A -> Action unit) (l : list A) :
  (forall x, preserves R (f x)) -> preserves R (for_each f l).
Proof.
  intros Hf. induction l as [| x rest IH]; simpl.
  - apply preserves_ret.
  - apply preserves_bind; [apply Hf | intros _; apply IH].
Qed.

Lemma preserves_fold_action {A S} (f : A -> S -> Action S) (l : list A) (s : S) :
  (forall x s, preserves R (f x s)) -> preserves R (fold_action f l s).
Proof.
  intros Hf. revert s. induction l as [| x rest IH]; intros s; simpl.
  - apply preserves_ret.
  - apply preserves_bind; [apply Hf | intros s'; apply IH].
Qed.

Lemma preserves_count_until_throw {A} (f : A -> Action unit) (l : list A) (n : Z) :
  (forall x, preserves R (f x)) -> preserves R (count_until_throw f l n).
Proof.
  intros Hf. revert n. induction l as [| x rest IH]; intros n w; simpl.
  - apply stable_refl.
  - specialize (Hf x w). destruct (f x w) as [[[] | e] w1]; simpl in *; [| done].
    eapply stable_trans; [exact Hf | apply IH].
Qed.

End Preservation.

(** ** The dispatcher and the event store *)

(** The event store is as it was. *)
Definition events_kept (w w' : World) : Prop :=
  webhookEvents (w_db w') = webhookEvents (w_db w).

#[local] Instance events_kept_stable : Stable events_kept.
Proof.
  split; unfold events_kept.
  - done.
  - intros a b c Hab Hbc. by rewrite Hbc.
  - done.
Qed.

(** Unfold a mutation run in [Hrun] and read off the written table. *)
Ltac mutation_cases Hrun :=
  unfold db_insert in Hrun; simpl in Hrun;
  repeat case_match; simplify_eq; try done.

Section DomainMutatorsFrame.

Lemma createCustomerFromWebhook_events pc :
  mutation_within events_kept (Customers.createCustomerFromWebhook pc).
Proof.
  intros now w a db' Hrun.
  unfold events_kept, Customers.createCustomerFromWebhook in *.
  mutation_cases Hrun.
Qed.

Lemma updateCustomerFromPolar_events id pc :
  mutation_within events_kept (Customers.updateCustomerFromPolar id pc).
Proof.
  intros now w a db' Hrun.
  unfold events_kept, Customers.updateCustomerFromPolar in *.
  mutation_cases Hrun.
Qed.

Lemma createSubscription_events args :
  mutation_within events_kept (Subscriptions.createSubscription args).
Proof.
  intros now w a db' Hrun.
  unfold events_kept, Subscriptions.createSubscription in *.
  mutation_cases Hrun.
Qed.

Lemma updateSubscriptionFromWebhook_events pid u :
  mutation_within events_kept (Subscriptions.updateSubscriptionFromWebhook pid u).
Proof.
  intros now w a db' Hrun.
  unfold events_kept, Subscriptions.updateSubscriptionFromWebhook in *.
  mutation_cases Hrun.
Qed.

Lemma completeCheckoutSession_events cid completedAt metadata :
  mutation_within events_kept
    (Checkout.completeCheckoutSession cid completedAt metadata).
Proof.
  intros now w a db' Hrun.
  unfold events_kept, Checkout.completeCheckoutSession in *.
  mutation_cases Hrun.
Qed.

Lemma createOrder_events customerId oid pid amount currency status metadata :
  mutation_within events_kept
    (Webhooks.createOrder customerId oid pid amount currency status metadata).
Proof.
  intros now w a db' Hrun.
  unfold events_kept, Webhooks.createOrder in *.
  mutation_cases Hrun.
Qed.

Lemma createInvoice_events args :
  mutation_within events_kept (Webhooks.createInvoice args).
Proof.
  intros now w a db' Hrun.
  unfold events_kept, Webhooks.createInvoice in *.
  mutation_cases Hrun.
Qed.

Lemma updateInvoiceStatus_events iid status paidAt amountPaid :
  mutation_within events_kept
    (Webhooks.updateInvoiceStatus iid status paidAt amountPaid).
Proof.
  intros now w a db' Hrun.
  unfold events_kept, Webhooks.updateInvoiceStatus in *.
  mutation_cases Hrun.
Qed.

Lemma createPaymentMethod_events userId customerId pmid type brand last4 m y :
  mutation_within events_kept
    (Webhooks.createPaymentMethod userId customerId pmid type brand last4 m y).
Proof.
  intros now w a db' Hrun.
  unfold events_kept, Webhooks.createPaymentMethod in *.
  mutation_cases Hrun.
Qed.

Lemma deletePaymentMethod_events pmid :
  mutation_within events_kept (Webhooks.deletePaymentMethod pmid).
Proof.
  intros now w a db' Hrun.
  unfold events_kept, Webhooks.deletePaymentMethod in *.
  mutation_cases Hrun.
Qed.

End DomainMutatorsFrame.

Create HintDb frame discriminated.

#[local] Hint Resolve createCustomerFromWebhook_events
  updateCustomerFromPolar_events createSubscription_events
  updateSubscriptionFromWebhook_events completeCheckoutSession_events
  createOrder_events createInvoice_events updateInvoiceStatus_events
  createPaymentMethod_events deletePaymentMethod_events : frame.

(** One structural step of a preservation proof. *)
Ltac preserve_step :=
  first
    [ apply preserves_ret; exact _
    | apply preserves_throw; exact _
    | apply preserves_required; exact _
    | apply preserves_now; exact _
    | apply preserves_runQuery; exact _
    | apply preserves_bind; [exact _ | | intros ?]
    | apply preserves_try_catch; [exact _ | | intros ?]
    | apply preserves_runMutation; [exact _ | solve [auto with frame]]
    | case_match ].

Ltac preserve := repeat preserve_step.

(** No handler of the dispatcher writes to the event store. *)
Lemma dispatch_keeps_events (env : Env) (eventType : string) (payload : Payload) :
  preserves events_kept (Webhooks.dispatch env eventType payload).
Proof.
  unfold Webhooks.dispatch.
  repeat case_match;
    unfold Webhooks.handleCustomerCreated, Webhooks.handleCustomerUpdated,
      Webhooks.handleSubscriptionCreated, Webhooks.handleSubscriptionUpdated,
      Webhooks.handleSubscriptionActive, Webhooks.handleSubscriptionCanceled,
      Webhooks.handleSubscriptionRevoked, Webhooks.handleCheckoutCreated,
      Webhooks.handleCheckoutUpdated, Webhooks.handleOrderCreated,
      Webhooks.handleInvoiceCreated, Webhooks.handleInvoicePaid,
      Webhooks.handlePaymentMethodAttached,
      Webhooks.handlePaymentMethodDetached, Webhooks.update_subscription,
      Webhooks.polar_customer_of, Webhooks.or_now,
      Webhooks.mapped_status_arg, Webhooks.payment_method_type_arg;
    preserve.
Qed.

(** The event id is in the event store. *)
Definition recorded (eventId : string) (db : Db) : Prop :=
  is_Some (Webhooks.getWebhookEventById eventId db).



(** Once recorded, always recorded. *)
Definition stays_recorded (eventId : string) (w w' : World) : Prop :=
  recorded eventId (w_db w) -> recorded eventId (w_db w').

#[local] Instance stays_recorded_stable eventId : Stable (stays_recorded eventId).
Proof. split; unfold stays_recorded; simpl; auto. Qed.





(** A delivery the dispatcher lets in: the secret is configured, and the
    request carries a signature that verifies against its body. *)
Definition authentic (env : Env) (request : Request) : Prop :=
  truthy_ostr (POLAR_WEBHOOK_SECRET env) = true
  /\ truthy_str (Webhooks.signature_header request) = true
  /\ verifyWebhookSignature env (req_body request)
       (Webhooks.signature_header request)
       (or_str (POLAR_WEBHOOK_SECRET env) "") = true.

(** The dispatcher on an authentic delivery of a notification that has
    an id. *)
Lemma handle_authentic (env : Env) (request : Request) (payload : Payload)
    (eventId : string) (w : World) :
  authentic env request ->
  JSON_parse env (req_body request) = Some payload ->
  p_id payload = Some eventId ->
  eventId <> "" ->
  Webhooks.handlePolarWebhook env request w
  = match Webhooks.getWebhookEventById eventId (w_db w) with
    | Some _ => (Webhooks.ok_response, w)
    | None =>
        let receivedAt := iso (clock env (w_ticks w)) in
        let stored :=
          runMutation env
            (Webhooks.storeWebhookEvent eventId (p_type payload) SourcePolar
               payload receivedAt) (tick w) in
        match Webhooks.process_event env eventId (p_type payload) payload
                (snd stored) with
        | (Ok (Some response), w') => (response, w')
        | (Ok None, w') => (Webhooks.ok_response, w')
        | (Throw _, w') => (mkResponse (Some "Internal error") 500, w')
        end
    end.
Proof.
  intros (Hsecret & Hsig & Hverify) Hparse Hid Hne.
  unfold Webhooks.handlePolarWebhook, Webhooks.handlePolarWebhook_try.
  rewrite Hsig, Hsecret, Hverify, Hparse. simpl.
  unfold Webhooks.event_id_of. rewrite Hid. simpl.
  assert (Htruthy : truthy_str eventId = true).
  { unfold truthy_str. by destruct (String.eqb_spec eventId ""). }
  rewrite Htruthy. unfold bind at 1. simpl. unfold bind at 1. simpl.
  destruct (Webhooks.getWebhookEventById eventId (w_db w)); [done |].
  unfold bind at 1. simpl. unfold bind at 1.
  unfold runMutation at 1. unfold Webhooks.storeWebhookEvent at 1. simpl.
  unfold bind at 1.
  destruct (Webhooks.process_event env eventId (p_type payload) payload _)
    as [[[response |] | e] w']; reflexivity.
Qed.



(** A request without any of the signature headers the two handlers
    read. *)
Definition no_signature_header (request : Request) : Prop :=
  req_headers request !! "x-webhook-signature" = None
  /\ req_headers request !! "x-polar-signature" = None
  /\ req_headers request !! "webhook-signature" = None.

(** C2 (amended).  A POST without a signature header is rejected and
    changes nothing: the dispatcher of webhooks.ts answers 401, the
    handler mounted on the route answers 400, and in both the world
    (event store included) is as it was. *)
Theorem C2_missing_signature_rejected
    (env : Env) (request : Request) (w : World) :
  no_signature_header request ->
  Webhooks.handlePolarWebhook env request w
  = (mkResponse (Some "Missing signature") 401, w)
  /\ PolarWebhook.handlePolarWebhook env request w
     = (mkResponse (Some "Missing signature") 400, w).
Proof.
  intros (Hx & Hpolar & Hplain). split.
  - unfold Webhooks.handlePolarWebhook, Webhooks.handlePolarWebhook_try,
      Webhooks.signature_header.
    by rewrite Hx, Hpolar.
  - unfold PolarWebhook.handlePolarWebhook. by rewrite Hplain.
Qed.

(** *** A concrete deployment *)

(** The [data] of a "subscription.updated" notification for [sub_1]. *)
Definition sample_data : EventData :=
  {| d_id := Some "sub_1";
     d_email := None;
     d_email_verified := None;
     d_metadata := Some {[ "a" := JNum 1 ]};
     d_created_at := None;
     d_modified_at := None;
     d_customer_id := Some "cus_1";
     d_customer_email := None;
     d_product_id := Some "prod_1";
     d_status := Some "past_due";
     d_current_period_start := Some "2024-02-01T00:00:00Z";
     d_current_period_end := None;
     d_trial_start := None;
     d_trial_end := None;
     d_cancel_at_period_end := Some false;
     d_canceled_at := None;
     d_ended_at := None;
     d_amount := None;
     d_currency := None;
     d_number := None;
     d_amount_due := None;
     d_subscription_id := None;
     d_due_date := None;
     d_period_start := None;
     d_period_end := None;
     d_paid_at := None;
     d_amount_paid := None;
     d_type := None;
     d_card := None |}.

Definition sample_payload : Payload :=
  {| p_id := Some "evt_1";
     p_type := "subscription.updated";
     p_data := sample_data |}.

Definition sample_body : string := "{id:evt_1,type:subscription.updated,data:{id:sub_1}}".

(** A processor that knows [sub_1] as [past_due], and nothing else. *)
Definition sample_polar_subscription : PolarSubscription :=
  {| ps_id := "sub_1";
     ps_status := "past_due";
     ps_product_id := "prod_1";
     ps_customer_id := "cus_1";
     ps_current_period_start := "2024-02-01T00:00:00Z";
     ps_current_period_end := None;
     ps_cancel_at_period_end := false;
     ps_ended_at := None;
     ps_metadata := None |}.

Definition sample_polarApi : PolarApi :=
  {| subscriptions_list := fun _ _ => Ok [sample_polar_subscription];
     subscriptions_get := fun _ _ => Ok sample_polar_subscription;
     customers_get := fun _ _ => Throw (ErrorObj "Polar API error: Not Found");
     orders_get := fun _ _ => Ok None;
     metrics_ingestEvents :=
       fun _ _ => Throw (ErrorObj "Polar API error: Service Unavailable") |}.

(** A deployment with the secret set, a clock that advances one
    millisecond per reading from 2024-02-01, an HMAC that signs
    [sample_body] with ["5f2c"], and a parser that reads [sample_body]. *)
Definition sample_env : Env :=
  {| POLAR_WEBHOOK_SECRET := Some "whsec_test";
     clock := fun n =>
       {| ms := 1706745600000 + Z.of_nat n;
          iso := "2024-02-01T00:00:00.000Z" |};
     hmac_sha256_hex := fun _ _ => "5f2c";
     JSON_parse := fun body =>
       if String.eqb body sample_body then Some sample_payload else None;
     polarApi := sample_polarApi |}.

Definition sample_world : World :=
  {| w_db := sample_db;
     w_breaker := CircuitBreaker.initial;
     w_calls := [];
     w_ticks := 0 |}.

(** A signed delivery of [sample_body], and an unsigned one. *)
Definition signed_request : Request :=
  {| req_body := sample_body;
     req_headers := {[ "x-webhook-signature" := "5f2c" ]} |}.

Definition unsigned_request : Request :=
  {| req_body := sample_body;
     req_headers := {[ "content-type" := "application/json" ]} |}.


(** The first delivery of the sample notification is processed: 200, the
    subscription becomes [past_due], the event is stored as a success. *)
Example first_delivery_processed :
  let result := Webhooks.handlePolarWebhook sample_env signed_request sample_world in
  resp_status (fst result) = 200
  /\ sub_status <$> db_get (subscriptions (w_db (snd result))) 0 = Some PastDue
  /\ evt_processingResult <$> db_get (webhookEvents (w_db (snd result))) 0
     = Some (Some ResultSuccess).
Proof. vm_compute. repeat split; reflexivity. Qed.


Lemma unsigned_request_no_signature : no_signature_header unsigned_request.
Proof. repeat split; vm_compute; reflexivity. Qed.

(** C2 (amended) at the unsigned sample request. *)
Lemma C2_witness_unsigned :
  no_signature_header unsigned_request
  /\ Webhooks.handlePolarWebhook sample_env unsigned_request sample_world
     = (mkResponse (Some "Missing signature") 401, sample_world)
  /\ PolarWebhook.handlePolarWebhook sample_env unsigned_request sample_world
     = (mkResponse (Some "Missing signature") 400, sample_world).
Proof.
  split; [exact unsigned_request_no_signature |].
  exact (C2_missing_signature_rejected sample_env unsigned_request sample_world
           unsigned_request_no_signature).
Defined.

(** C2, as stated, fails on the route: the handler http.ts mounts on
    POST /polar/webhook answers an unsigned request with 400, not 401. *)
Lemma C2_counterexample_route_answers_400 :
  no_signature_header unsigned_request
  /\ resp_status
       (fst (PolarWebhook.handlePolarWebhook sample_env unsigned_request
               sample_world)) = 400
  /\ resp_status
       (fst (PolarWebhook.handlePolarWebhook sample_env unsigned_request
               sample_world)) <> 401.
Proof.
  split; [exact unsigned_request_no_signature |].
  split; [vm_compute; reflexivity | vm_compute; discriminate].
Qed.

(** ** The jobs and the circuit breaker *)


Section Returns.

Context {A : Type} (P : A -> Prop).





End Returns.

(** The breaker refuses the attempt made in world [w]: it is open and
    the clock reads an instant before the retry time. *)
Definition breaker_denies (env : Env) (w : World) : bool :=
  negb (fst (CircuitBreaker.checkCircuitBreaker
               (ms (clock env (w_ticks w))) (w_breaker w))).



Lemma check_when_allowed (env : Env) (w : World) :
  breaker_denies env w = false ->
  exists w1,
    Sync.checkCircuitBreaker env w = (Ok true, w1)
    /\ w_db w1 = w_db w /\ w_calls w1 = w_calls w.
Proof.
  unfold breaker_denies, Sync.checkCircuitBreaker,
    CircuitBreaker.checkCircuitBreaker.
  destruct (CircuitBreaker.isOpen (w_breaker w));
    [| by eexists].
  destruct (CircuitBreaker.nextRetry (w_breaker w)) as [retry |];
    [| by eexists].
  destruct (ms (clock env (w_ticks w)) <? retry)%Z; [done |].
  intros _. by eexists.
Qed.





(** The breaker is as it was. *)
Definition breaker_kept (w w' : World) : Prop := w_breaker w' = w_breaker w.

#[local] Instance breaker_kept_stable : Stable breaker_kept.
Proof.
  split; unfold breaker_kept.
  - done.
  - intros a b c Hab Hbc. by rewrite Hbc.
  - done.
Qed.

Lemma mutation_within_breaker_kept {A} (m : Mutation A) :
  mutation_within breaker_kept m.
Proof. by intros now w a db' _. Qed.

#[local] Hint Resolve mutation_within_breaker_kept : frame.

Lemma preserves_call_polar (R : World -> World -> Prop) {A} (env : Env)
    (c : PolarCall) (answer : PolarApi -> nat -> Outcome A) :
  (forall w, R w (log_call w c)) -> preserves R (call_polar env c answer).
Proof. intros Hlog w. apply Hlog. Qed.






(** ** Reconciliation detects and does not repair *)


















(** ** The usage forwarder *)

Section GroupingProps.

Import UsageTracking.

Lemma take_In {B} (n : nat) (l : list B) (x : B) : In x (take n l) -> In x l.
Proof.
  rewrite <- !list_elem_of_In. intros Hin. by eapply subseteq_take.
Qed.

(** What the forwarder reads is stored and unprocessed. *)
Lemma unprocessed_In (limit : nat) (db : Db) (id : Id) (e : UsageEvent) :
  In (id, e) (getUnprocessedEvents limit db) ->
  db_get (usageEvents db) id = Some e /\ use_processed e = false.
Proof.
  unfold getUnprocessedEvents, take_docs. intros Hin.
  apply take_In, collect_In in Hin as [Hget Hp].
  split; [done |]. by destruct (use_processed e).
Qed.

Lemma push_event_In (key : string) (event0 : Id * UsageEvent) (gs : Groups)
    (k : string) (es : list (Id * UsageEvent)) (event : Id * UsageEvent) :
  In (k, es) (push_event key event0 gs) -> In event es ->
  (k = key /\ event = event0)
  \/ exists es0, In (k, es0) gs /\ In event es0.
Proof.
  induction gs as [| [k1 es1] rest IH]; simpl.
  - intros [[= <- <-] | []] [<- | []]. by left.
  - destruct (String.eqb_spec k1 key) as [-> | Hne]; simpl.
    + intros [[= <- <-] | Hrest] Hin.
      * apply in_app_or in Hin as [Hold | [<- | []]].
        -- right. exists es1. split; [by left | done].
        -- by left.
      * right. exists es. split; [by right | done].
    + intros [[= <- <-] | Hrest] Hin.
      * right. exists es1. split; [by left | done].
      * destruct (IH Hrest Hin) as [Hnew | (es0 & Hin0 & Hev)]; [by left |].
        right. exists es0. split; [by right | done].
Qed.

(** Every event of a group came from the batch, and carries the group's
    key as its customer id. *)
Lemma group_events_In (events : list (Id * UsageEvent)) (acc gs : Groups)
    (k : string) (es : list (Id * UsageEvent)) (event : Id * UsageEvent) :
  group_events events acc = Ok gs ->
  In (k, es) gs -> In event es ->
  (exists es0, In (k, es0) acc /\ In event es0)
  \/ (In event events /\ use_polarCustomerId (snd event) = Some k).
Proof.
  revert acc. induction events as [| event0 rest IH]; intros acc; simpl.
  - intros [= <-] Hg Hev. left. by exists es.
  - destruct (use_polarCustomerId (snd event0)) as [key |] eqn:Hkey.
    + destruct (truthy_str key); simpl.
      * destruct (negb (has_own key acc) && _); [discriminate |].
        intros Hrun Hg Hev.
        destruct (IH _ Hrun Hg Hev) as [(es0 & Hin0 & Hev0) | [Hin Hcust]].
        -- destruct (push_event_In _ _ _ _ _ _ Hin0 Hev0)
             as [[-> ->] | Hold]; [| by left].
           right. split; [by left | done].
        -- right. split; [by right | done].
      * intros Hrun Hg Hev.
        destruct (IH _ Hrun Hg Hev) as [Hold | [Hin Hcust]]; [by left |].
        right. split; [by right | done].
    + intros Hrun Hg Hev.
      destruct (IH _ Hrun Hg Hev) as [Hold | [Hin Hcust]]; [by left |].
      right. split; [by right | done].
Qed.

(** Grouping does not see an event without a customer id. *)
Lemma group_events_skips (events : list (Id * UsageEvent)) (acc : Groups)
    (id : Id) :
  (forall event, In event events -> fst event = id ->
                 use_polarCustomerId (snd event) = None) ->
  group_events events acc
  = group_events (List.filter (fun event => negb (Nat.eqb (fst event) id)) events)
                 acc.
Proof.
  revert acc. induction events as [| event0 rest IH]; intros acc Hnone; [done |].
  simpl. destruct (Nat.eqb_spec (fst event0) id) as [Heq | Hne]; simpl.
  - rewrite (Hnone event0) by (by left || done).
    apply IH. intros event Hin. apply Hnone. by right.
  - assert (Hrest : forall event, In event rest -> fst event = id ->
                      use_polarCustomerId (snd event) = None)
      by (intros event Hin; apply Hnone; by right).
    destruct (use_polarCustomerId (snd event0)) as [key |]; [| by apply IH].
    destruct (negb (truthy_str key)); [by apply IH |].
    destruct (negb (has_own key acc) && _); [done | by apply IH].
Qed.

Lemma insert_by_index_In {B} (x y : N * B) (l : list (N * B)) :
  In y (insert_by_index x l) -> y = x \/ In y l.
Proof.
  induction l as [| z rest IH]; simpl.
  - intros [<- | []]. by left.
  - destruct (fst x <=? fst z)%N; simpl.
    + intros [<- | Hin]; [by left | by right].
    + intros [<- | Hin]; [right; by left |].
      destruct (IH Hin) as [-> | Hrest]; [by left | right; by right].
Qed.

Lemma sort_by_index_In {B} (y : N * B) (l : list (N * B)) :
  In y (sort_by_index l) -> In y l.
Proof.
  induction l as [| x rest IH]; simpl; [done |].
  intros Hin. apply insert_by_index_In in Hin as [-> | Hin]; [by left |].
  right. by apply IH.
Qed.

(** [Object.entries] reorders the groups and invents none. *)
Lemma object_entries_In (gs : Groups) (g : string * list (Id * UsageEvent)) :
  In g (object_entries gs) -> In g gs.
Proof.
  unfold object_entries. intros Hin. apply in_app_or in Hin as [Hidx | Hrest].
  - apply in_map_iff in Hidx as ([n g'] & Hsnd & Hsorted). simpl in Hsnd. subst g'.
    apply sort_by_index_In in Hsorted.
    apply list_elem_of_In, list_elem_of_omap in Hsorted as (x & Hx & Hindexed).
    unfold indexed in Hindexed.
    destruct (array_index (fst x)); simplify_eq. by apply list_elem_of_In.
  - by apply filter_In in Hrest as [Hin _].
Qed.

(** An event without a customer id is in no group of the batch. *)
Lemma not_grouped (limit : nat) (db : Db) (id : Id) (e : UsageEvent)
    (gs : Groups) (key : string) (es : list (Id * UsageEvent)) :
  db_get (usageEvents db) id = Some e ->
  use_polarCustomerId e = None ->
  group_events (getUnprocessedEvents limit db) [] = Ok gs ->
  In (key, es) (object_entries gs) ->
  ~ In id (map fst es).
Proof.
  intros Hget Hnone Hgroups Hentry Hin.
  apply in_map_iff in Hin as ([id' e'] & Hid & Hev). simpl in Hid. subst id'.
  apply object_entries_In in Hentry.
  destruct (group_events_In _ _ _ _ _ _ Hgroups Hentry Hev)
    as [(es0 & [] & _) | [Hbatch Hcust]].
  apply unprocessed_In in Hbatch as [Hget' _]. simpl in Hcust. congruence.
Qed.

End GroupingProps.

Section PreservationIn.

Context (R : World -> World -> Prop) `{!Stable R}.

Lemma preserves_for_each_In {A} (f : A -> Action unit) (l : list A) :
  (forall x, In x l -> preserves R (f x)) -> preserves R (for_each f l).
Proof.
  induction l as [| x rest IH]; intros Hf; simpl.
  - by apply preserves_ret.
  - apply preserves_bind; [exact _ | apply Hf; by left | intros _].
    apply IH. intros y Hy. apply Hf. by right.
Qed.

Lemma preserves_fold_action_In {A S} (f : A -> S -> Action S) (l : list A)
    (s : S) :
  (forall x s, In x l -> preserves R (f x s)) -> preserves R (fold_action f l s).
Proof.
  revert s. induction l as [| x rest IH]; intros s Hf; simpl.
  - by apply preserves_ret.
  - apply preserves_bind; [exact _ | apply Hf; by left | intros s'].
    apply IH. intros y s'' Hy. apply Hf. by right.
Qed.

End PreservationIn.


Section MarkingProps.

Import UsageTracking.

(** The usage event [id] is as it was. *)
Definition usage_kept (id : Id) (w w' : World) : Prop :=
  db_get (usageEvents (w_db w')) id = db_get (usageEvents (w_db w)) id.

#[global] Instance usage_kept_stable id : Stable (usage_kept id).
Proof.
  split; unfold usage_kept.
  - done.
  - intros a b c Hab Hbc. by rewrite Hbc.
  - done.
Qed.

Lemma markEventProcessed_other (id marked : Id) polarEventId success error :
  marked <> id ->
  mutation_within (usage_kept id)
    (markEventProcessed marked polarEventId success error).
Proof.
  intros Hne now w [] db' Hrun. unfold usage_kept, markEventProcessed, db_patch in *.
  destruct (db_get (usageEvents (w_db w)) marked); simplify_eq. simpl.
  by apply db_get_put_ne.
Qed.

(** A usage event is stored; it is stored with property [Q]. *)
Definition stored (w : World) (id : Id) : Prop :=
  is_Some (db_get (usageEvents (w_db w)) id).

Definition marked (Q : UsageEvent -> Prop) (w : World) (id : Id) : Prop :=
  exists e, db_get (usageEvents (w_db w)) id = Some e /\ Q e.

(** Stored events stay stored and [Q] stays true of them. *)
Definition marks_stay (Q : UsageEvent -> Prop) (w w' : World) : Prop :=
  (forall id, stored w id -> stored w' id)
  /\ (forall id, marked Q w id -> marked Q w' id).

(** [Q] survives every patch of [markEventProcessed]. *)
Class MarkClosed (Q : UsageEvent -> Prop) : Prop :=
  mark_closed : forall polarEventId error now e,
    Q e -> Q (mark polarEventId error now e).

#[global] Instance marks_stay_stable Q : Stable (marks_stay Q).
Proof.
  split; unfold marks_stay.
  - done.
  - intros a b c [Hs1 Hq1] [Hs2 Hq2]. split; auto.
  - done.
Qed.

Lemma markEventProcessed_marks_stay Q `{!MarkClosed Q} id polarEventId success
    error :
  mutation_within (marks_stay Q) (markEventProcessed id polarEventId success error).
Proof.
  intros now w [] db' Hrun. unfold markEventProcessed, db_patch in Hrun.
  destruct (db_get (usageEvents (w_db w)) id) as [e0 |] eqn:Hget; simplify_eq.
  pose proof (db_get_lt _ _ _ Hget) as Hlt.
  split; intros id'; unfold stored, marked; simpl.
  - destruct (decide (id = id')) as [<- | Hne].
    + rewrite db_get_put_eq by done. by eexists.
    + by rewrite db_get_put_ne.
  - intros (e & Hget' & HQ). destruct (decide (id = id')) as [<- | Hne].
    + rewrite db_get_put_eq by done. eexists. split; [reflexivity |].
      apply mark_closed. congruence.
    + rewrite db_get_put_ne by done. by exists e.
Qed.

(** The log of calls is as it was. *)
Definition calls_kept (w w' : World) : Prop := w_calls w' = w_calls w.

#[global] Instance calls_kept_stable : Stable calls_kept.
Proof.
  split; unfold calls_kept.
  - done.
  - intros a b c Hab Hbc. by rewrite Hbc.
  - done.
Qed.

Lemma mutation_within_calls_kept {A} (m : Mutation A) :
  mutation_within calls_kept m.
Proof. by intros now w a db' _. Qed.

Section OneMark.

Context (env : Env).

Lemma mark_success_marks_stay Q `{!MarkClosed Q} event :
  preserves (marks_stay Q) (mark_success env event).
Proof.
  unfold mark_success.
  apply preserves_bind; [exact _ | apply preserves_now; exact _ | intros t].
  apply preserves_runMutation; [exact _ |].
  by apply markEventProcessed_marks_stay.
Qed.

Lemma mark_failure_marks_stay Q `{!MarkClosed Q} error event :
  preserves (marks_stay Q) (mark_failure env error event).
Proof.
  unfold mark_failure. apply preserves_runMutation; [exact _ |].
  by apply markEventProcessed_marks_stay.
Qed.

Lemma mark_success_calls_kept event :
  preserves calls_kept (mark_success env event).
Proof.
  unfold mark_success.
  apply preserves_bind; [exact _ | apply preserves_now; exact _ | intros t].
  apply preserves_runMutation; [exact _ |]. apply mutation_within_calls_kept.
Qed.

Lemma mark_failure_calls_kept error event :
  preserves calls_kept (mark_failure env error event).
Proof.
  unfold mark_failure.
  apply preserves_runMutation; [exact _ |]. apply mutation_within_calls_kept.
Qed.

Lemma mark_success_usage_kept id event :
  fst event <> id -> preserves (usage_kept id) (mark_success env event).
Proof.
  intros Hne. unfold mark_success.
  apply preserves_bind; [exact _ | apply preserves_now; exact _ | intros t].
  apply preserves_runMutation; [exact _ |]. by apply markEventProcessed_other.
Qed.

Lemma mark_failure_usage_kept id error event :
  fst event <> id -> preserves (usage_kept id) (mark_failure env error event).
Proof.
  intros Hne. unfold mark_failure.
  apply preserves_runMutation; [exact _ |]. by apply markEventProcessed_other.
Qed.

(** Marking a stored event returns and writes the patch. *)
Lemma run_mark id polarEventId success error w e :
  db_get (usageEvents (w_db w)) id = Some e ->
  runMutation env (markEventProcessed id polarEventId success error) w
  = (Ok tt,
     tick (set_db w
             (with_usageEvents (w_db w)
                (db_put (usageEvents (w_db w)) id
                   (mark polarEventId error (iso (clock env (w_ticks w))) e))))).
Proof.
  intros Hget. unfold runMutation, markEventProcessed, db_patch.
  by rewrite Hget.
Qed.

End OneMark.

End MarkingProps.

Section ForwarderProps.

Import UsageTracking.

Context (env : Env).

(** An event the forwarder has marked processed; one it has marked
    processed with an error field. *)
Definition processed_mark (e : UsageEvent) : Prop := use_processed e = true.

Definition failure_mark (e : UsageEvent) : Prop :=
  use_processed e = true /\ truthy_ostr (use_error e) = true.

#[global] Instance processed_mark_closed : MarkClosed processed_mark.
Proof. by intros polarEventId error now e _. Qed.

#[global] Instance failure_mark_closed : MarkClosed failure_mark.
Proof.
  intros polarEventId error now e [_ Herror]. split; [done |]. simpl.
  by destruct (truthy_ostr error) eqn:Hnew.
Qed.

#[global] Instance anything_closed : MarkClosed (fun _ => True).
Proof. done. Qed.

(** A loop of marks over stored events returns, and leaves each of them
    with the mark. *)
Lemma for_each_establishes (Q : UsageEvent -> Prop)
    (f : Id * UsageEvent -> Action unit) (es : list (Id * UsageEvent))
    (w : World) :
  (forall event w0, stored w0 (fst event) ->
                    exists w1, f event w0 = (Ok tt, w1)
                               /\ marked Q w1 (fst event)) ->
  (forall event, preserves (marks_stay Q) (f event)) ->
  (forall event, In event es -> stored w (fst event)) ->
  exists w', for_each f es w = (Ok tt, w')
             /\ forall event, In event es -> marked Q w' (fst event).
Proof.
  intros Hruns Hstay. revert w.
  induction es as [| event rest IH]; intros w Hstored; simpl.
  - by eexists.
  - destruct (Hruns event w) as (w1 & Hrun & Hmarked); [apply Hstored; by left |].
    pose proof (Hstay event w) as [Hs1 _]. rewrite Hrun in Hs1. simpl in Hs1.
    destruct (IH w1) as (w' & Hrest & Hall).
    { intros ev Hin. apply Hs1, Hstored. by right. }
    exists w'. unfold bind. rewrite Hrun. split; [exact Hrest |].
    intros ev [<- | Hin]; [| by apply Hall].
    assert (Hkeep : marks_stay Q w1 w').
    { pose proof (preserves_for_each (marks_stay Q) f rest Hstay w1) as H.
      by rewrite Hrest in H. }
    by apply Hkeep.
Qed.

Lemma mark_success_establishes (event : Id * UsageEvent) (w : World) :
  stored w (fst event) ->
  exists w1, mark_success env event w = (Ok tt, w1)
             /\ marked processed_mark w1 (fst event).
Proof.
  intros [e Hget]. unfold mark_success, bind, now.
  rewrite (run_mark env _ _ _ _ (tick w) e) by done.
  eexists. split; [reflexivity |]. unfold marked. simpl.
  rewrite db_get_put_eq by by eapply db_get_lt. by eexists.
Qed.

Lemma mark_failure_establishes (error : Thrown) (event : Id * UsageEvent)
    (w : World) :
  error_message error <> "" ->
  stored w (fst event) ->
  exists w1, mark_failure env error event w = (Ok tt, w1)
             /\ marked failure_mark w1 (fst event).
Proof.
  intros Hmessage [e Hget]. unfold mark_failure.
  rewrite (run_mark env _ _ _ _ w e) by done.
  eexists. split; [reflexivity |]. unfold marked. simpl.
  rewrite db_get_put_eq by by eapply db_get_lt.
  eexists. split; [reflexivity |]. split; [done |]. simpl.
  assert (Htruthy : truthy_str (error_message error) = true).
  { unfold truthy_str. by destruct (String.eqb_spec (error_message error) ""). }
  by rewrite Htruthy.
Qed.

Lemma mark_failure_runs (error : Thrown) (event : Id * UsageEvent) (w : World) :
  stored w (fst event) ->
  exists w1, mark_failure env error event w = (Ok tt, w1)
             /\ marked (fun _ => True) w1 (fst event).
Proof.
  intros [e Hget]. unfold mark_failure.
  rewrite (run_mark env _ _ _ _ w e) by done.
  eexists. split; [reflexivity |]. unfold marked. simpl.
  rewrite db_get_put_eq by by eapply db_get_lt. by eexists.
Qed.

(** The processor call of a group, and what the group adds to the
    totals when [n] calls were made before it. *)
Definition call_of (group : string * list (Id * UsageEvent)) : PolarCall :=
  CallIngestEvents (map (polar_event_of (fst group)) (snd group)).

Definition answer_for (n : nat) (group : string * list (Id * UsageEvent))
    : Outcome IngestResult :=
  metrics_ingestEvents (polarApi env) n
    (map (polar_event_of (fst group)) (snd group)).

Definition tally_step (n : nat) (group : string * list (Id * UsageEvent))
    (locals : Totals) : Totals :=
  match answer_for n group with
  | Ok result =>
      {| processed := (processed locals + accepted result)%Z;
         failed := (failed locals + rejected result)%Z |}
  | Throw _ =>
      {| processed := processed locals;
         failed := (failed locals + Z.of_nat (length (snd group)))%Z |}
  end.

Fixpoint tally (n : nat) (entries : Groups) (locals : Totals) : Totals :=
  match entries with
  | [] => locals
  | group :: rest => tally (S n) rest (tally_step n group locals)
  end.

Lemma stored_log_call (w : World) (c : PolarCall) (id : Id) :
  stored (log_call w c) id <-> stored w id.
Proof. done. Qed.

(** The [catch] of [send_group], run in [w1]. *)
Definition group_failed (error : Thrown) (es : list (Id * UsageEvent))
    (locals : Totals) (w1 : World) : Outcome Totals * World :=
  match for_each (mark_failure env error) es w1 with
  | (Ok _, w2) =>
      (Ok {| processed := processed locals;
             failed := (failed locals + Z.of_nat (length es))%Z |}, w2)
  | (Throw e, w2) => (Throw e, w2)
  end.

Lemma send_group_unfold (key : string) (es : list (Id * UsageEvent))
    (locals : Totals) (w : World) :
  send_group env (key, es) locals w
  = match answer_for (length (w_calls w)) (key, es) with
    | Ok result =>
        match for_each (mark_success env) es (log_call w (call_of (key, es))) with
        | (Ok _, w1) =>
            (Ok {| processed := (processed locals + accepted result)%Z;
                   failed := (failed locals + rejected result)%Z |}, w1)
        | (Throw error, w1) => group_failed error es locals w1
        end
    | Throw error =>
        group_failed error es locals (log_call w (call_of (key, es)))
    end.
Proof.
  unfold send_group, group_failed, answer_for, call_of, try_catch, bind,
    call_polar. simpl.
  destruct (metrics_ingestEvents (polarApi env) (length (w_calls w))
              (map (polar_event_of key) es)) as [result | error]; [| done].
  by destruct (for_each (mark_success env) es _) as [[[] | e] w1].
Qed.

Lemma for_each_calls_kept (f : Id * UsageEvent -> Action unit)
    (es : list (Id * UsageEvent)) (w w' : World) (o : Outcome unit) :
  (forall event, preserves calls_kept (f event)) ->
  for_each f es w = (o, w') -> w_calls w' = w_calls w.
Proof.
  intros Hf Hrun.
  pose proof (preserves_for_each calls_kept f es Hf w) as H.
  by rewrite Hrun in H.
Qed.

(** The failure marks of a group of stored events: the loop returns and
    every event ends processed, with an error field when the failure
    carries a message. *)
Lemma group_failed_run (error : Thrown) (es : list (Id * UsageEvent))
    (locals : Totals) (w1 : World) :
  (forall event, In event es -> stored w1 (fst event)) ->
  exists w2,
    group_failed error es locals w1
    = (Ok {| processed := processed locals;
             failed := (failed locals + Z.of_nat (length es))%Z |}, w2)
    /\ w_calls w2 = w_calls w1
    /\ (forall event, In event es -> marked processed_mark w2 (fst event))
    /\ (error_message error <> "" ->
        forall event, In event es -> marked failure_mark w2 (fst event)).
Proof.
  intros Hstored. unfold group_failed.
  destruct (for_each_establishes processed_mark (mark_failure env error) es w1)
    as (w2 & Hrun & Hall).
  { intros event w0 [e0 Hget0]. unfold mark_failure.
    rewrite (run_mark env _ _ _ _ w0 e0) by done.
    eexists. split; [reflexivity |]. unfold marked. simpl.
    rewrite db_get_put_eq by by eapply db_get_lt. by eexists. }
  { intros event. apply mark_failure_marks_stay; exact _. }
  { exact Hstored. }
  rewrite Hrun. exists w2. split; [reflexivity |]. split.
  - eapply for_each_calls_kept; [| exact Hrun].
    apply mark_failure_calls_kept.
  - split; [exact Hall |]. intros Hmessage.
    destruct (for_each_establishes failure_mark (mark_failure env error) es w1)
      as (w3 & Hrun3 & Hall3).
    { intros event w0 Hs. apply mark_failure_establishes; assumption. }
    { intros event. apply mark_failure_marks_stay; exact _. }
    { exact Hstored. }
    rewrite Hrun in Hrun3. by injection Hrun3 as <-.
Qed.

(** One group, run: it returns, adds its share to the totals, logs its
    call, and leaves every event of the group marked processed, with an
    error field when the call failed with a message. *)
Lemma send_group_run (group : string * list (Id * UsageEvent))
    (locals : Totals) (w : World) :
  (forall event, In event (snd group) -> stored w (fst event)) ->
  exists w',
    send_group env group locals w
    = (Ok (tally_step (length (w_calls w)) group locals), w')
    /\ w_calls w' = w_calls w ++ [call_of group]
    /\ (forall event, In event (snd group) ->
                      marked processed_mark w' (fst event))
    /\ (forall error, answer_for (length (w_calls w)) group = Throw error ->
                      error_message error <> "" ->
                      forall event, In event (snd group) ->
                                    marked failure_mark w' (fst event)).
Proof.
  destruct group as [key es]. intros Hstored.
  rewrite send_group_unfold. unfold tally_step. simpl in *.
  destruct (answer_for (length (w_calls w)) (key, es)) as [result | error].
  - destruct (for_each_establishes processed_mark (mark_success env) es
                (log_call w (call_of (key, es)))) as (w' & Hrun & Hall).
    { apply mark_success_establishes. }
    { intros event. apply mark_success_marks_stay; exact _. }
    { intros event Hin. by apply Hstored. }
    rewrite Hrun. exists w'. split; [reflexivity |].
    split; [| split; [exact Hall | done]].
    rewrite (for_each_calls_kept (mark_success env) _ _ _ _
               (mark_success_calls_kept env) Hrun).
    reflexivity.
  - destruct (group_failed_run error es locals (log_call w (call_of (key, es))))
      as (w' & Hrun & Hcalls & Hall & Hfail).
    { intros event Hin. by apply Hstored. }
    exists w'. split; [exact Hrun |]. split; [exact Hcalls |].
    split; [exact Hall |].
    intros error' [= <-] Hmessage. by apply Hfail.
Qed.

End ForwarderProps.

(** Forwarder runs in a row, each with its own surroundings and batch
    size; what a run throws is dropped, as the scheduler drops it. *)
Fixpoint run_many (runs : list (Env * option nat)) (w : World) : World :=
  match runs with
  | [] => w
  | (env, batchSize) :: rest =>
      run_many rest (snd (UsageTracking.batchIngestUsage env batchSize w))
  end.

Section BatchProps.

Import UsageTracking.

Context (env : Env).

Definition no_totals : Totals := {| processed := 0; failed := 0 |}.

Lemma marks_stay_log_call Q (w : World) (c : PolarCall) :
  marks_stay Q w (log_call w c).
Proof. done. Qed.

Lemma send_group_marks_stay Q `{!MarkClosed Q}
    (group : string * list (Id * UsageEvent)) (locals : Totals) :
  preserves (marks_stay Q) (send_group env group locals).
Proof.
  destruct group as [key es]. unfold send_group.
  apply preserves_try_catch; [exact _ | | intros error].
  - apply preserves_bind; [exact _ | | intros result].
    + apply preserves_call_polar. intros w. apply marks_stay_log_call.
    + apply preserves_bind; [exact _ | | intros _; apply preserves_ret; exact _].
      apply preserves_for_each; [exact _ |]. intros event.
      apply mark_success_marks_stay; exact _.
  - apply preserves_bind; [exact _ | | intros _; apply preserves_ret; exact _].
    apply preserves_for_each; [exact _ |]. intros event.
    apply mark_failure_marks_stay; exact _.
Qed.

Lemma send_group_usage_kept (id : Id)
    (group : string * list (Id * UsageEvent)) (locals : Totals) :
  ~ In id (map fst (snd group)) ->
  preserves (usage_kept id) (send_group env group locals).
Proof.
  destruct group as [key es]. simpl. intros Hout.
  assert (Hne : forall event, In event es -> fst event <> id).
  { intros event Hin <-. apply Hout. by apply in_map. }
  unfold send_group.
  apply preserves_try_catch; [exact _ | | intros error].
  - apply preserves_bind; [exact _ | | intros result].
    + by apply preserves_call_polar.
    + apply preserves_bind; [exact _ | | intros _; apply preserves_ret; exact _].
      apply preserves_for_each_In; [exact _ |]. intros event Hin.
      apply mark_success_usage_kept. by apply Hne.
  - apply preserves_bind; [exact _ | | intros _; apply preserves_ret; exact _].
    apply preserves_for_each_In; [exact _ |]. intros event Hin.
    apply mark_failure_usage_kept. by apply Hne.
Qed.

(** A pass over groups of stored events returns their tally and logs one
    call per group. *)
Lemma fold_run (entries : Groups) (locals : Totals) (w : World) :
  (forall group event, In group entries -> In event (snd group) ->
                       stored w (fst event)) ->
  exists w',
    fold_action (send_group env) entries locals w
    = (Ok (tally env (length (w_calls w)) entries locals), w')
    /\ w_calls w' = w_calls w ++ map call_of entries.
Proof.
  revert locals w. induction entries as [| group rest IH]; intros locals w Hstored.
  - exists w. simpl. by rewrite app_nil_r.
  - destruct (send_group_run env group locals w) as (w1 & Hrun & Hcalls & _).
    { intros event Hin. eapply Hstored; [by left | done]. }
    pose proof (send_group_marks_stay (fun _ => True) group locals w) as [Hs _].
    rewrite Hrun in Hs. simpl in Hs.
    destruct (IH (tally_step env (length (w_calls w)) group locals) w1)
      as (w' & Hrest & Hcalls').
    { intros g event Hg Hin. apply Hs. eapply Hstored; [by right | done]. }
    exists w'. simpl. unfold bind. rewrite Hrun. split.
    + rewrite Hrest. rewrite Hcalls, length_app. simpl.
      by rewrite Nat.add_1_r.
    + rewrite Hcalls', Hcalls. by rewrite <- app_assoc.
Qed.

(** The forwarder is the pass over the groups of its batch. *)
Lemma batch_unfold (batchSize : option nat) (w : World) :
  batchIngestUsage env batchSize w
  = match group_events
            (getUnprocessedEvents (batch_limit batchSize) (w_db w)) [] with
    | Ok groups =>
        fold_action (send_group env) (object_entries groups) no_totals w
    | Throw error => (Throw error, w)
    end.
Proof.
  unfold batchIngestUsage, bind, runQuery.
  destruct (getUnprocessedEvents (batch_limit batchSize) (w_db w))
    as [| event rest]; [done |].
  by destruct (group_events (event :: rest) []).
Qed.

Lemma groups_stored (batchSize : option nat) (w : World) (groups : Groups) :
  group_events (getUnprocessedEvents (batch_limit batchSize) (w_db w)) []
  = Ok groups ->
  forall group event,
    In group (object_entries groups) -> In event (snd group) ->
    stored w (fst event).
Proof.
  intros Hgroups [key es] [id e] Hentry Hin. simpl in *.
  apply object_entries_In in Hentry.
  destruct (group_events_In _ _ _ _ _ _ Hgroups Hentry Hin)
    as [(es0 & [] & _) | [Hbatch _]].
  apply unprocessed_In in Hbatch as [Hget _]. by exists e.
Qed.

End BatchProps.

Section BatchRun.

Import UsageTracking.

Context (env : Env).



End BatchRun.


(** Two usage events waiting to be forwarded: one of customer [cus_1],
    one recorded before the user had a customer account. *)
Definition sample_usage (polarCustomerId : option string) : UsageEvent :=
  {| use_polarCustomerId := polarCustomerId;
     use_eventType := "api_call";
     use_eventName := "api.request";
     use_units := 1;
     use_metadata := None;
     use_createdAt := "2024-02-01T00:00:00.000Z";
     use_ingestedAt := None;
     use_polarEventId := None;
     use_processed := false;
     use_error := None |}.

Definition usage_world : World :=
  {| w_db := with_usageEvents sample_db
               [Some (sample_usage (Some "cus_1")); Some (sample_usage None)];
     w_breaker := CircuitBreaker.initial;
     w_calls := [];
     w_ticks := 0 |}.


Section SkippedEvent.

Import UsageTracking.

(** A run of the forwarder leaves an event without customer id as it
    is stored. *)
Lemma batch_keeps_event (env : Env) (batchSize : option nat) (w : World)
    (id : Id) (e : UsageEvent) :
  db_get (usageEvents (w_db w)) id = Some e ->
  use_polarCustomerId e = None ->
  db_get (usageEvents (w_db (snd (batchIngestUsage env batchSize w)))) id
  = Some e.
Proof.
  intros Hget Hnone. rewrite batch_unfold.
  destruct (group_events
              (getUnprocessedEvents (batch_limit batchSize) (w_db w)) [])
    as [groups | error] eqn:Hgroups; [| done].
  assert (Hkept : preserves (usage_kept id)
                    (fold_action (send_group env) (object_entries groups)
                       no_totals)).
  { apply preserves_fold_action_In; [exact _ |]. intros [key es] s Hentry.
    apply send_group_usage_kept. simpl.
    by eapply not_grouped. }
  specialize (Hkept w). unfold usage_kept in Hkept. by rewrite Hkept.
Qed.

Lemma run_many_keeps_event (runs : list (Env * option nat)) (w : World)
    (id : Id) (e : UsageEvent) :
  db_get (usageEvents (w_db w)) id = Some e ->
  use_polarCustomerId e = None ->
  db_get (usageEvents (w_db (run_many runs w))) id = Some e.
Proof.
  intros Hget Hnone. revert w Hget.
  induction runs as [| [env batchSize] rest IH]; intros w Hget; [done |].
  simpl. apply IH. by apply batch_keeps_event.
Qed.

End SkippedEvent.

(** C10.  Take a stored usage event that is unprocessed and has no
    Polar customer id.  In every run of the forwarder, from every world
    that stores it: grouping the batch gives what grouping the batch
    without the event gives; the event is stored unchanged afterwards;
    when grouping succeeds, the run returns the tally of the groups and
    adds exactly one metering call per group, and no group holds the
    event, so it is neither sent nor counted; when grouping throws, the
    run throws and changes nothing.  Hence after any number of runs the
    event is still among the unprocessed events. *)
Theorem C10_event_without_customer_skipped (id : Id) (e : UsageEvent) :
  use_polarCustomerId e = None ->
  use_processed e = false ->
  (forall env batchSize w,
     db_get (usageEvents (w_db w)) id = Some e ->
     let events :=
       UsageTracking.getUnprocessedEvents
         (UsageTracking.batch_limit batchSize) (w_db w) in
     let run := UsageTracking.batchIngestUsage env batchSize w in
     UsageTracking.group_events events []
     = UsageTracking.group_events
         (List.filter (fun event => negb (Nat.eqb (fst event) id)) events) []
     /\ db_get (usageEvents (w_db (snd run))) id = Some e
     /\ match UsageTracking.group_events events [] with
        | Ok groups =>
            fst run
            = Ok (tally env (length (w_calls w))
                    (UsageTracking.object_entries groups) no_totals)
            /\ w_calls (snd run)
               = w_calls w ++ map call_of (UsageTracking.object_entries groups)
            /\ (forall key es,
                  In (key, es) (UsageTracking.object_entries groups) ->
                  ~ In id (map fst es))
        | Throw error => run = (Throw error, w)
        end)
  /\ (forall runs w,
        db_get (usageEvents (w_db w)) id = Some e ->
        In (id, e)
           (collect (fun e => negb (use_processed e))
              (usageEvents (w_db (run_many runs w))))).
Proof.
  intros Hnone Hunprocessed. split.
  - intros env batchSize w Hget events run. split; [| split].
    + apply group_events_skips. intros [id' e'] Hin Hid.
      simpl in *. subst id'.
      apply unprocessed_In in Hin as [Hget' _]. congruence.
    + by apply batch_keeps_event.
    + subst run. rewrite batch_unfold. fold events.
      destruct (UsageTracking.group_events events []) as [groups | error]
        eqn:Hgroups; [| done].
      destruct (fold_run env (UsageTracking.object_entries groups) no_totals w)
        as (w' & Hrun & Hcalls).
      { by eapply groups_stored. }
      rewrite Hrun. split; [done |]. split; [done |].
      intros key es Hentry. by eapply not_grouped.
  - intros runs w Hget. apply collect_In. split.
    + by apply run_many_keeps_event.
    + by rewrite Hunprocessed.
Qed.

(** C10 at the sample deployment: after two runs the event without
    customer id is still among the unprocessed events, and a run sends
    only the event of [cus_1]. *)
Lemma C10_witness_two_runs :
  In (1, sample_usage None)
     (collect (fun e => negb (use_processed e))
        (usageEvents
           (w_db (run_many [(sample_env, None); (sample_env, Some 10)]
                    usage_world))))
  /\ w_calls (snd (UsageTracking.batchIngestUsage sample_env None usage_world))
     = [call_of ("cus_1", [(0, sample_usage (Some "cus_1"))])].
Proof.
  pose proof (C10_event_without_customer_skipped 1 (sample_usage None)
                eq_refl eq_refl) as [Hrun Hruns].
  split.
  - exact (Hruns [(sample_env, None); (sample_env, Some 10)] usage_world
             eq_refl).
  - exact (proj1 (proj2 (proj2 (proj2
             (Hrun sample_env None usage_world eq_refl))))).
Defined.

(** ** Further properties *)

(** X1.  Away from the names [Object.prototype] defines, the status
    mapping is as intended: each of the seven listed states maps to itself, and
    every other string to [revoked]. *)
Theorem mapPolarStatus_away_from_prototype :
  (forall s : SubscriptionStatus,
      s <> Revoked -> mapPolarStatus (status_string s) = VStatus s)
  /\ (forall key : string,
        existsb (String.eqb key) object_prototype_members = false ->
        own_property key statusMap = None ->
        mapPolarStatus key = VStatus Revoked).
Proof.
  split.
  - intros s Hs. by apply mapPolarStatus_known.
  - intros key Hplain Hnone. rewrite mapPolarStatus_plain by done.
    by rewrite Hnone.
Qed.

(** X2.  The handler mounted on the webhook route checks that a signature
    header is present and that the secret is configured, but never
    verifies the signature: every such delivery with a parseable body is
    answered 200, and the handler writes nothing. *)
Theorem routed_handler_accepts_unverified
    (env : Env) (request : Request) (event : Payload) (w : World) :
  truthy_ostr (req_headers request !! "webhook-signature") = true ->
  truthy_ostr (POLAR_WEBHOOK_SECRET env) = true ->
  JSON_parse env (req_body request) = Some event ->
  PolarWebhook.handlePolarWebhook env request w = (mkResponse None 200, w).
Proof.
  intros Hheader Hsecret Hparse. unfold PolarWebhook.handlePolarWebhook.
  by rewrite Hheader, Hsecret, Hparse.
Qed.

(** A delivery of [sample_body] with a signature that does not verify. *)
Definition forged_request : Request :=
  {| req_body := sample_body;
     req_headers := {[ "webhook-signature" := "0000" ]} |}.

Lemma routed_handler_accepts_forged :
  verifyWebhookSignature sample_env (req_body forged_request) "0000"
    "whsec_test" = false
  /\ PolarWebhook.handlePolarWebhook sample_env forged_request sample_world
     = (mkResponse None 200, sample_world).
Proof.
  split; [reflexivity |].
  exact (routed_handler_accepts_unverified sample_env forged_request
           sample_payload sample_world eq_refl eq_refl eq_refl).
Defined.

Lemma group_events_none (events : list (Id * UsageEvent))
    (acc : UsageTracking.Groups) :
  (forall event, In event events -> use_polarCustomerId (snd event) = None) ->
  UsageTracking.group_events events acc = Ok acc.
Proof.
  induction events as [| event rest IH]; intros Hnone; [done |].
  simpl. rewrite (Hnone event) by (by left).
  apply IH. intros event' Hin. apply Hnone. by right.
Qed.

(** X3.  Events without customer id keep their place at the head of the
    unprocessed events.  When they fill the batch, a run of the
    forwarder returns zero totals, makes no call and changes nothing; so
    does every later run with that batch size, and the events stored
    behind them are never forwarded. *)
Theorem forwarder_blocked_by_events_without_customer
    (batchSize : option nat) (w : World) :
  (forall event,
      In event (UsageTracking.getUnprocessedEvents
                  (UsageTracking.batch_limit batchSize) (w_db w)) ->
      use_polarCustomerId (snd event) = None) ->
  (forall env,
      UsageTracking.batchIngestUsage env batchSize w = (Ok no_totals, w))
  /\ (forall runs,
        (forall run, In run runs -> snd run = batchSize) ->
        run_many runs w = w).
Proof.
  intros Hnone.
  assert (Hrun : forall env,
             UsageTracking.batchIngestUsage env batchSize w = (Ok no_totals, w)).
  { intros env. rewrite batch_unfold. by rewrite group_events_none. }
  split; [exact Hrun |].
  induction runs as [| [env size] rest IH]; intros Hsize; [done |].
  assert (Hsame : size = batchSize) by (apply (Hsize (env, size)); by left).
  subst size. simpl. rewrite Hrun.
  apply IH. intros run Hin. apply Hsize. by right.
Qed.

(** A store where an event without customer id is ahead of an event of
    [cus_1], read one event at a time. *)
Definition blocked_world : World :=
  {| w_db := with_usageEvents sample_db
               [Some (sample_usage None); Some (sample_usage (Some "cus_1"))];
     w_breaker := CircuitBreaker.initial;
     w_calls := [];
     w_ticks := 0 |}.

Lemma forwarder_blocked_sample :
  run_many [(sample_env, Some 1); (sample_env, Some 1); (sample_env, Some 1)]
    blocked_world
  = blocked_world
  /\ In (1, sample_usage (Some "cus_1"))
        (collect (fun e => negb (use_processed e))
           (usageEvents (w_db blocked_world))).
Proof.
  split.
  - apply (forwarder_blocked_by_events_without_customer (Some 1) blocked_world).
    + intros event [<- | []]. reflexivity.
    + intros run [<- | [<- | [<- | []]]]; reflexivity.
  - right. left. reflexivity.
Defined.

(** * The rest of the billing backend

    The functions around the ones above: the HTTP client of the
    processor, the remaining paths of the webhook dispatcher and of its
    mutators, the maintenance jobs of sync.ts, the subscription and
    checkout mutators, and the meter aggregates. *)

(** ** The Polar client (lib/polar.ts) *)

Module PolarClient.

Record PolarConfig : Type := mkPolarConfig {
  organizationToken : string;
  server : string;
  webhookSecret : option string;
}.

(** [getPolarConfig], from the environment variables
    [POLAR_ORGANIZATION_TOKEN], [POLAR_SERVER], [POLAR_WEBHOOK_SECRET]. *)
Definition getPolarConfig (token serverName secret : option string)
    : Outcome PolarConfig :=
  if negb (truthy_ostr token)
  then Throw (ErrorObj "POLAR_ORGANIZATION_TOKEN environment variable is required")
  else Ok {| organizationToken := or_str token "";
             server := or_str serverName "sandbox";
             webhookSecret := secret |}.

(** [getPolarApiUrl]. *)
Definition getPolarApiUrl (config : PolarConfig) : string :=
  if String.eqb (server config) "production"
  then "https://api.polar.sh"
  else "https://sandbox-api.polar.sh".

(** What a caught exception of [polarRequest] is: a [PolarAPIError] the
    function built itself, or whatever [fetch] or [response.json()]
    rejected with. *)
Inductive RequestError : Type :=
  | PolarAPIError (message : string) (statusCode : Z) (code : string)
  | PlatformError (e : Thrown).

(** What the network has seen: the URLs fetched and the delays waited,
    in order. *)
Record Net : Type := mkNet {
  fetched : list string;
  slept : list Z;
}.

Section Request.

(** [T] is what a JSON body decodes to; [detail_of] and [type_of] read
    its [detail] and [type] properties. *)
Context {T : Type}.
Variable detail_of : T -> option string.
Variable type_of : T -> option string.

Record HttpResponse : Type := mkHttpResponse {
  ok : bool;
  status : Z;
  statusText : string;
  json : Outcome T;
}.

Inductive FetchAnswer : Type :=
  | Rejected (e : Thrown)
  | Responded (r : HttpResponse).

(** [fetch], indexed by the number of requests made before. *)
Variable fetch : nat -> string -> FetchAnswer.

(** [await response.json().catch(() => null)]. *)
Definition error_data (r : HttpResponse) : option T :=
  match json r with
  | Ok body => Some body
  | Throw _ => None
  end.

(** The body of the [try]: the decoded body, or what is thrown. *)
Definition attempt_once (answer : FetchAnswer) : RequestError + T :=
  match answer with
  | Rejected e => inl (PlatformError e)
  | Responded r =>
      if negb (ok r)
      then
        let errorData := error_data r in
        inl (PolarAPIError
               (or_str (errorData ≫= detail_of)
                       ("Polar API error: " ++ statusText r))
               (status r)
               (or_str (errorData ≫= type_of) "POLAR_API_ERROR"))
      else
        match json r with
        | Ok data => inr data
        | Throw e => inl (PlatformError e)
        end
  end.

(** [error instanceof PolarAPIError && error.statusCode &&
    error.statusCode < 500]. *)
Definition is_client_error (error : RequestError) : bool :=
  match error with
  | PolarAPIError _ statusCode _ =>
      negb (statusCode =? 0)%Z && (statusCode <? 500)%Z
  | PlatformError _ => false
  end.

(** [Math.pow(2, attempt) * 1000]. *)
Definition backoff_delay (attempt : nat) : Z := (2 ^ Z.of_nat attempt * 1000)%Z.

(** The [for] loop with [remaining = retries - attempt] turns to go. *)
Fixpoint attempts (url : string) (remaining attempt : nat)
    (lastError : option RequestError) (net : Net)
    : (RequestError + T) * Net :=
  match remaining with
  | 0 =>
      (inl (default
              (PlatformError (ErrorObj "Failed to complete Polar API request"))
              lastError),
       net)
  | S remaining' =>
      let answer := fetch (length (fetched net)) url in
      let net1 := {| fetched := fetched net ++ [url]; slept := slept net |} in
      match attempt_once answer with
      | inr data => (inr data, net1)
      | inl error =>
          if is_client_error error then (inl error, net1)
          else
            let net2 :=
              match remaining' with
              | 0 => net1
              | S _ =>
                  {| fetched := fetched net1;
                     slept := slept net1 ++ [backoff_delay attempt] |}
              end in
            attempts url remaining' (S attempt) (Some error) net2
      end
  end.

(** [polarRequest(path, options, config, retries)]. *)
Definition polarRequest (path : string) (config : PolarConfig) (retries : nat)
    (net : Net) : (RequestError + T) * Net :=
  attempts (getPolarApiUrl config ++ path) retries 0 None net.

(** An answer after which the loop goes round again. *)
Definition retried (answer : FetchAnswer) : option RequestError :=
  match attempt_once answer with
  | inl error => if is_client_error error then None else Some error
  | inr _ => None
  end.

(** The waits between [k + 1] attempts that start at [attempt]. *)
Definition backoff (attempt k : nat) : list Z :=
  map backoff_delay (seq attempt k).

End Request.

(** The retry count every method of the client leaves at its default. *)
Definition default_retries : nat := 3.

End PolarClient.

Section PolarRequestProps.

Import PolarClient.

Context {T : Type}.
Variable detail_of : T -> option string.
Variable type_of : T -> option string.
Variable fetch : nat -> string -> @FetchAnswer T.

Abbreviation attempts := (attempts detail_of type_of fetch).
Abbreviation attempt_once := (attempt_once detail_of type_of).
Abbreviation retried := (retried detail_of type_of).

(** The requests numbered from [n] on fail one after the other with
    [errors], each in a way that is retried. *)
Fixpoint failing (url : string) (n : nat) (errors : list RequestError)
    : Prop :=
  match errors with
  | [] => True
  | error :: rest =>
      retried (fetch n url) = Some error /\ failing url (S n) rest
  end.

(** The error the loop holds after [errors], starting from [lastError]. *)
Definition last_error (errors : list RequestError)
    (lastError : option RequestError) : option RequestError :=
  match last errors with
  | Some error => Some error
  | None => lastError
  end.

Definition total_delay (delays : list Z) : Z := foldr Z.add 0%Z delays.

Lemma retried_Some (answer : FetchAnswer) (error : RequestError) :
  retried answer = Some error ->
  attempt_once answer = inl error /\ is_client_error error = false.
Proof.
  unfold PolarClient.retried. destruct (attempt_once answer) as [e | data]; [| done].
  destruct (is_client_error e) eqn:Hclient; [done |]. by intros [= <-].
Qed.

Lemma backoff_cons (attempt k : nat) :
  backoff attempt (S k) = backoff_delay attempt :: backoff (S attempt) k.
Proof. done. Qed.

Lemma total_delay_app (l1 l2 : list Z) :
  total_delay (l1 ++ l2) = (total_delay l1 + total_delay l2)%Z.
Proof.
  unfold total_delay. induction l1 as [| d rest IH]; simpl; [done |].
  rewrite IH. lia.
Qed.

(** The waits before attempt [k] add up to [(2^k - 1)] seconds. *)
Lemma backoff_total (k : nat) :
  total_delay (backoff 0 k) = ((2 ^ Z.of_nat k - 1) * 1000)%Z.
Proof.
  induction k as [| k IH]; [done |].
  unfold backoff in *. rewrite seq_S, map_app, total_delay_app, IH.
  simpl. unfold total_delay, backoff_delay. simpl.
  rewrite Nat2Z.inj_succ, Z.pow_succ_r by lia. lia.
Qed.

(** The loop over a run of retried failures. *)
Lemma attempts_failing (url : string) (errors : list RequestError) :
  forall (remaining attempt : nat) (lastError : option RequestError)
         (net : Net),
    failing url (length (fetched net)) errors ->
    length errors <= remaining ->
    attempts url remaining attempt lastError net
    = attempts url (remaining - length errors) (attempt + length errors)
        (last_error errors lastError)
        {| fetched := fetched net ++ repeat url (length errors);
           slept := slept net
                    ++ backoff attempt
                         (Nat.min (length errors) (remaining - 1)) |}.
Proof.
  induction errors as [| error rest IH];
    intros remaining attempt lastError net Hfail Hlen.
  - simpl. rewrite Nat.sub_0_r, Nat.add_0_r, !app_nil_r. by destruct net.
  - destruct remaining as [| r]; [simpl in Hlen; lia |].
    destruct Hfail as [Hfirst Hrest].
    apply retried_Some in Hfirst as [Honce Hclient].
    simpl in Hlen. simpl attempts. rewrite Honce, Hclient.
    assert (Hlast : last_error rest (Some error)
                    = last_error (error :: rest) lastError).
    { unfold last_error. destruct rest as [| e' rest']; [done |].
      change (last (error :: e' :: rest')) with (last (e' :: rest')).
      destruct (last (e' :: rest')) eqn:Hl; [done |].
      by apply last_None in Hl. }
    destruct r as [| r'].
    + destruct rest; [| simpl in Hlen; lia]. simpl.
      unfold backoff. simpl. by rewrite app_nil_r.
    + rewrite IH.
      * simpl length. rewrite <- Hlast.
        replace (S attempt + length rest) with (attempt + S (length rest)) by lia.
        replace (S (S r') - S (length rest)) with (S r' - length rest) by lia.
        f_equal. simpl fetched. simpl slept.
        rewrite <- !app_assoc. simpl.
        replace (S r' - 1) with r' by lia.
        replace (S (S r') - 1) with (S r') by lia.
        rewrite Nat.sub_0_r, backoff_cons. done.
      * simpl. rewrite length_app. simpl. by rewrite Nat.add_1_r.
      * lia.
Qed.

End PolarRequestProps.

Section PolarRequestRuns.

Import PolarClient.

Context {T : Type}.
Variable detail_of : T -> option string.
Variable type_of : T -> option string.
Variable fetch : nat -> string -> @FetchAnswer T.

Lemma or_str_nonempty (a : option string) (d : string) :
  d <> "" -> or_str a d <> "".
Proof.
  intros Hd. unfold or_str, truthy_str. destruct a as [s |]; [| done].
  destruct (String.eqb_spec s ""); simpl; done.
Qed.

Lemma last_error_snoc (errors : list RequestError) (error : RequestError)
    (lastError : option RequestError) :
  last_error (errors ++ [error]) lastError = Some error.
Proof. unfold last_error. by rewrite last_snoc. Qed.

(** Where the loop stands after [errors]: at attempt [length errors],
    having fetched once per error and waited after each. *)
Lemma polarRequest_after_failures (path : string) (config : PolarConfig)
    (retries : nat) (net : Net) (errors : list RequestError) :
  let url := (getPolarApiUrl config ++ path)%string in
  failing detail_of type_of fetch url (length (fetched net)) errors ->
  length errors < retries ->
  polarRequest detail_of type_of fetch path config retries net
  = attempts detail_of type_of fetch url (retries - length errors)
      (length errors) (last_error errors None)
      {| fetched := fetched net ++ repeat url (length errors);
         slept := slept net ++ backoff 0 (length errors) |}.
Proof.
  intros url Hfail Hlen. unfold polarRequest. fold url.
  rewrite (attempts_failing detail_of type_of fetch url errors) by (done || lia).
  by replace (Nat.min (length errors) (retries - 1)) with (length errors) by lia.
Qed.

(** The last turn of the loop, when the attempt ends it. *)
Lemma attempts_ends (url : string) (remaining attempt : nat)
    (lastError : option RequestError) (net : Net) (result : RequestError + T) :
  attempt_once detail_of type_of (fetch (length (fetched net)) url) = result ->
  match result with
  | inl error => is_client_error error = true
  | inr _ => True
  end ->
  attempts detail_of type_of fetch url (S remaining) attempt lastError net
  = (result, {| fetched := fetched net ++ [url]; slept := slept net |}).
Proof.
  intros Honce Hends. simpl. rewrite Honce.
  destruct result as [error | data]; [| done]. by rewrite Hends.
Qed.

Lemma polarRequest_ends_after (path : string) (config : PolarConfig)
    (retries : nat) (net : Net) (errors : list RequestError)
    (result : RequestError + T) :
  let url := (getPolarApiUrl config ++ path)%string in
  failing detail_of type_of fetch url (length (fetched net)) errors ->
  length errors < retries ->
  attempt_once detail_of type_of
    (fetch (length (fetched net) + length errors) url) = result ->
  match result with
  | inl error => is_client_error error = true
  | inr _ => True
  end ->
  polarRequest detail_of type_of fetch path config retries net
  = (result,
     {| fetched := fetched net ++ repeat url (S (length errors));
        slept := slept net ++ backoff 0 (length errors) |}).
Proof.
  intros url Hfail Hlen Honce Hends.
  rewrite (polarRequest_after_failures path config retries net errors)
    by done.
  fold url.
  destruct (retries - length errors) as [| remaining] eqn:Hleft; [lia |].
  rewrite (attempts_ends url remaining _ _ _ result); [| | done].
  - simpl. by rewrite <- app_assoc, <- repeat_cons.
  - simpl. by rewrite length_app, repeat_length.
Qed.

End PolarRequestRuns.

(** X4.  When the first [retries] requests all fail in a way that is
    retried (the network rejects, the server answers 5xx, or an ok
    answer has no JSON body), [polarRequest] throws the error of the
    last attempt after exactly [retries] requests to the same URL, having
    waited 1 s, 2 s, 4 s, ... between them and not after the last:
    [(2^(retries-1) - 1)] seconds in all. *)
Theorem polarRequest_gives_up_after_retries {T : Type}
    (detail_of type_of : T -> option string)
    (fetch : nat -> string -> @PolarClient.FetchAnswer T)
    (path : string) (config : PolarClient.PolarConfig) (retries : nat)
    (net : PolarClient.Net) (errors : list PolarClient.RequestError)
    (error : PolarClient.RequestError) :
  let url := (PolarClient.getPolarApiUrl config ++ path)%string in
  failing detail_of type_of fetch url (length (PolarClient.fetched net))
    (errors ++ [error]) ->
  length (errors ++ [error]) = retries ->
  PolarClient.polarRequest detail_of type_of fetch path config retries net
  = (inl error,
     {| PolarClient.fetched := PolarClient.fetched net ++ repeat url retries;
        PolarClient.slept :=
          PolarClient.slept net ++ PolarClient.backoff 0 (retries - 1) |})
  /\ total_delay (PolarClient.backoff 0 (retries - 1))
     = ((2 ^ Z.of_nat (retries - 1) - 1) * 1000)%Z.
Proof.
  intros url Hfail Hlen. split; [| apply backoff_total].
  unfold PolarClient.polarRequest. fold url.
  rewrite (attempts_failing detail_of type_of fetch url (errors ++ [error]))
    by (done || lia).
  rewrite Hlen, Nat.sub_diag, last_error_snoc. simpl.
  by replace (Nat.min retries (retries - 1)) with (retries - 1) by lia.
Qed.

(** X5.  A client error (an answer that is not ok with a status below
    500) ends the request at once: after any number of retried failures,
    the [PolarAPIError] of that answer is thrown with no further request
    and no wait after it. *)
Theorem polarRequest_client_error_not_retried {T : Type}
    (detail_of type_of : T -> option string)
    (fetch : nat -> string -> @PolarClient.FetchAnswer T)
    (path : string) (config : PolarClient.PolarConfig) (retries : nat)
    (net : PolarClient.Net) (errors : list PolarClient.RequestError)
    (r : PolarClient.HttpResponse) :
  let url := (PolarClient.getPolarApiUrl config ++ path)%string in
  failing detail_of type_of fetch url (length (PolarClient.fetched net)) errors ->
  length errors < retries ->
  fetch (length (PolarClient.fetched net) + length errors) url
  = PolarClient.Responded r ->
  PolarClient.ok r = false ->
  (PolarClient.status r <> 0 /\ PolarClient.status r < 500)%Z ->
  PolarClient.polarRequest detail_of type_of fetch path config retries net
  = (inl (PolarClient.PolarAPIError
            (or_str (PolarClient.error_data r ≫= detail_of)
                    ("Polar API error: " ++ PolarClient.statusText r))
            (PolarClient.status r)
            (or_str (PolarClient.error_data r ≫= type_of) "POLAR_API_ERROR")),
     {| PolarClient.fetched :=
          PolarClient.fetched net ++ repeat url (S (length errors));
        PolarClient.slept :=
          PolarClient.slept net ++ PolarClient.backoff 0 (length errors) |}).
Proof.
  intros url Hfail Hlen Hanswer Hok [Hstatus Hclient].
  apply polarRequest_ends_after; [done | done | |].
  - fold url. rewrite Hanswer. simpl. by rewrite Hok.
  - simpl. apply andb_true_iff. split.
    + apply negb_true_iff. by apply Z.eqb_neq.
    + by apply Z.ltb_lt.
Qed.

(** X6.  The request returns the decoded body of the first ok answer
    that has one: after [k] retried failures it has made [k + 1]
    requests and waited [(2^k - 1)] seconds. *)
Theorem polarRequest_returns_first_success {T : Type}
    (detail_of type_of : T -> option string)
    (fetch : nat -> string -> @PolarClient.FetchAnswer T)
    (path : string) (config : PolarClient.PolarConfig) (retries : nat)
    (net : PolarClient.Net) (errors : list PolarClient.RequestError)
    (r : PolarClient.HttpResponse) (data : T) :
  let url := (PolarClient.getPolarApiUrl config ++ path)%string in
  failing detail_of type_of fetch url (length (PolarClient.fetched net)) errors ->
  length errors < retries ->
  fetch (length (PolarClient.fetched net) + length errors) url
  = PolarClient.Responded r ->
  PolarClient.ok r = true ->
  PolarClient.json r = Ok data ->
  PolarClient.polarRequest detail_of type_of fetch path config retries net
  = (inr data,
     {| PolarClient.fetched :=
          PolarClient.fetched net ++ repeat url (S (length errors));
        PolarClient.slept :=
          PolarClient.slept net ++ PolarClient.backoff 0 (length errors) |})
  /\ total_delay (PolarClient.backoff 0 (length errors))
     = ((2 ^ Z.of_nat (length errors) - 1) * 1000)%Z.
Proof.
  intros url Hfail Hlen Hanswer Hok Hjson. split; [| apply backoff_total].
  apply polarRequest_ends_after; [done | done | | done].
  fold url. rewrite Hanswer. simpl. by rewrite Hok, Hjson.
Qed.

Section PolarRequestShape.

Import PolarClient.

Context {T : Type}.
Variable detail_of : T -> option string.
Variable type_of : T -> option string.
Variable fetch : nat -> string -> @FetchAnswer T.

(** A [PolarAPIError] with a message. *)
Definition has_message (error : RequestError) : Prop :=
  match error with
  | PolarAPIError message _ _ => message <> ""
  | PlatformError _ => True
  end.

Lemma attempt_once_message (answer : FetchAnswer) (error : RequestError) :
  attempt_once detail_of type_of answer = inl error -> has_message error.
Proof.
  destruct answer as [e | r]; simpl.
  - by intros [= <-].
  - destruct (ok r); simpl.
    + destruct (json r); [done |]. by intros [= <-].
    + intros [= <-]. simpl. by apply or_str_nonempty.
Qed.

Lemma attempt_once_data (answer : FetchAnswer) (data : T) :
  attempt_once detail_of type_of answer = inr data ->
  exists r, answer = Responded r /\ ok r = true /\ json r = Ok data.
Proof.
  destruct answer as [e | r]; simpl; [done |].
  destruct (ok r) eqn:Hok; simpl; [| done].
  destruct (json r) as [body |] eqn:Hjson; [| done].
  intros [= <-]. by exists r.
Qed.

(** What any run of the loop has done when it ends. *)
Lemma attempts_shape (url : string) (remaining : nat) :
  forall (attempt : nat) (lastError : option RequestError) (net : Net)
         (result : RequestError + T) (net' : Net),
    attempts detail_of type_of fetch url remaining attempt lastError net
    = (result, net') ->
    from_option has_message True lastError ->
    exists n,
      n <= remaining
      /\ (1 <= remaining -> 1 <= n)
      /\ fetched net' = fetched net ++ repeat url n
      /\ slept net' = slept net ++ backoff attempt (n - 1)
      /\ match result with
         | inl error => has_message error
         | inr data =>
             exists i r,
               i < n
               /\ fetch (length (fetched net) + i) url = Responded r
               /\ ok r = true /\ json r = Ok data
         end.
Proof.
  induction remaining as [| remaining' IH];
    intros attempt lastError net result net' Hrun Hlast.
  - simpl in Hrun. injection Hrun as <- <-. exists 0.
    rewrite !app_nil_r. repeat split; [lia | lia |].
    by destruct lastError.
  - simpl in Hrun.
    destruct (attempt_once detail_of type_of
                (fetch (length (fetched net)) url)) as [error | data] eqn:Honce.
    + pose proof (attempt_once_message _ _ Honce) as Hmessage.
      destruct (is_client_error error).
      * injection Hrun as <- <-. exists 1. simpl.
        rewrite app_nil_r. repeat split; (lia || done).
      * apply IH in Hrun as (n & Hn & Hpos & Hfetched & Hslept & Hresult);
          [| done].
        exists (S n). split; [lia |]. split; [lia |].
        split; [| split].
        -- rewrite Hfetched. destruct remaining'; simpl;
             by rewrite <- app_assoc.
        -- rewrite Hslept. destruct remaining' as [| r]; simpl.
           ++ assert (n = 0) by lia. subst n. done.
           ++ rewrite <- app_assoc. simpl. rewrite Nat.sub_0_r.
              destruct n as [| n']; [lia |]. simpl. by rewrite Nat.sub_0_r.
        -- destruct result as [e | data]; [done |].
           destruct Hresult as (i & r & Hi & Hanswer & Hok & Hjson).
           exists (S i), r. split; [lia |]. split; [| done].
           rewrite <- Hanswer. f_equal.
           destruct remaining'; simpl; rewrite length_app; simpl; lia.
    + injection Hrun as <- <-. exists 1. simpl. rewrite app_nil_r.
      repeat split; [lia | lia |].
      apply attempt_once_data in Honce as (r & Hanswer & Hok & Hjson).
      exists 0, r. rewrite Nat.add_0_r. repeat split; (lia || done).
Qed.

End PolarRequestShape.


(** X8.  What [polarRequest] returns is the decoded body of an ok answer
    to one of its requests; an answer that is not ok, or an ok answer
    whose body is not JSON (a 204, say), is never returned from. *)
Theorem polarRequest_returns_only_ok_body {T : Type}
    (detail_of type_of : T -> option string)
    (fetch : nat -> string -> @PolarClient.FetchAnswer T)
    (path : string) (config : PolarClient.PolarConfig) (retries : nat)
    (net : PolarClient.Net) (data : T) :
  let url := (PolarClient.getPolarApiUrl config ++ path)%string in
  fst (PolarClient.polarRequest detail_of type_of fetch path config retries net)
  = inr data ->
  exists i r,
    i < retries
    /\ fetch (length (PolarClient.fetched net) + i) url = PolarClient.Responded r
    /\ PolarClient.ok r = true
    /\ PolarClient.json r = Ok data.
Proof.
  intros url. unfold PolarClient.polarRequest. fold url.
  destruct (PolarClient.attempts detail_of type_of fetch url retries 0 None net)
    as [result net'] eqn:Hrun.
  simpl. intros ->.
  apply attempts_shape in Hrun as (n & Hn & _ & _ & _ & Hresult); [| done].
  destruct Hresult as (i & r & Hi & Hanswer & Hok & Hjson).
  exists i, r. repeat split; (lia || done).
Qed.

(** A JSON body as a map, with its [detail] and [type] properties. *)
Definition body_detail (body : Metadata) : option string :=
  match body !! "detail" with
  | Some (JStr s) => Some s
  | _ => None
  end.

Definition body_type (body : Metadata) : option string :=
  match body !! "type" with
  | Some (JStr s) => Some s
  | _ => None
  end.

(** Answers of the processor: 204 with no body, 503 with an HTML body,
    404 with a JSON error, 200 with a JSON body. *)
Definition no_content : @PolarClient.HttpResponse Metadata :=
  {| PolarClient.ok := true;
     PolarClient.status := 204;
     PolarClient.statusText := "No Content";
     PolarClient.json := Throw (ErrorObj "Unexpected end of JSON input") |}.

Definition unavailable : @PolarClient.HttpResponse Metadata :=
  {| PolarClient.ok := false;
     PolarClient.status := 503;
     PolarClient.statusText := "Service Unavailable";
     PolarClient.json := Throw (ErrorObj "Unexpected token < in JSON") |}.

Definition not_found : @PolarClient.HttpResponse Metadata :=
  {| PolarClient.ok := false;
     PolarClient.status := 404;
     PolarClient.statusText := "Not Found";
     PolarClient.json := Ok {[ "detail" := JStr "Customer not found" ]} |}.

Definition ingested : @PolarClient.HttpResponse Metadata :=
  {| PolarClient.ok := true;
     PolarClient.status := 200;
     PolarClient.statusText := "OK";
     PolarClient.json := Ok {[ "accepted" := JNum 2 ]} |}.

Definition sample_config : PolarClient.PolarConfig :=
  {| PolarClient.organizationToken := "polar_oat_test";
     PolarClient.server := "sandbox";
     PolarClient.webhookSecret := None |}.

Definition quiet_net : PolarClient.Net :=
  {| PolarClient.fetched := []; PolarClient.slept := [] |}.

(** A server that deletes and answers 204; one that is down for the
    first request; one that is unreachable once and then answers 404. *)
Definition fetch_no_content (n : nat) (url : string)
    : @PolarClient.FetchAnswer Metadata :=
  PolarClient.Responded no_content.

Definition fetch_recovering (n : nat) (url : string)
    : @PolarClient.FetchAnswer Metadata :=
  match n with
  | 0 => PolarClient.Responded unavailable
  | _ => PolarClient.Responded ingested
  end.

Definition fetch_then_not_found (n : nat) (url : string)
    : @PolarClient.FetchAnswer Metadata :=
  match n with
  | 0 => PolarClient.Rejected (ErrorObj "fetch failed")
  | _ => PolarClient.Responded not_found
  end.

(** X4 at a DELETE that the server answers with 204 each time: three
    requests, three seconds of waiting, and the call throws. *)
Lemma polarRequest_gives_up_on_no_content :
  PolarClient.polarRequest body_detail body_type fetch_no_content
    "/v1/customers/cus_1" sample_config PolarClient.default_retries quiet_net
  = (inl (PolarClient.PlatformError (ErrorObj "Unexpected end of JSON input")),
     {| PolarClient.fetched :=
          [ "https://sandbox-api.polar.sh/v1/customers/cus_1";
            "https://sandbox-api.polar.sh/v1/customers/cus_1";
            "https://sandbox-api.polar.sh/v1/customers/cus_1" ];
        PolarClient.slept := [1000; 2000]%Z |}).
Proof.
  exact (proj1 (polarRequest_gives_up_after_retries body_detail body_type
                  fetch_no_content "/v1/customers/cus_1" sample_config 3
                  quiet_net
                  [ PolarClient.PlatformError
                      (ErrorObj "Unexpected end of JSON input");
                    PolarClient.PlatformError
                      (ErrorObj "Unexpected end of JSON input") ]
                  (PolarClient.PlatformError
                     (ErrorObj "Unexpected end of JSON input"))
                  (conj eq_refl (conj eq_refl (conj eq_refl I))) eq_refl)).
Defined.

(** X5 at a server that is unreachable once and then answers 404. *)
Lemma polarRequest_stops_at_not_found :
  PolarClient.polarRequest body_detail body_type fetch_then_not_found
    "/v1/customers/cus_1" sample_config PolarClient.default_retries quiet_net
  = (inl (PolarClient.PolarAPIError "Customer not found" 404 "POLAR_API_ERROR"),
     {| PolarClient.fetched :=
          [ "https://sandbox-api.polar.sh/v1/customers/cus_1";
            "https://sandbox-api.polar.sh/v1/customers/cus_1" ];
        PolarClient.slept := [1000]%Z |}).
Proof.
  exact (polarRequest_client_error_not_retried body_detail body_type
           fetch_then_not_found "/v1/customers/cus_1" sample_config 3 quiet_net
           [PolarClient.PlatformError (ErrorObj "fetch failed")] not_found
           (conj eq_refl I) ltac:(simpl; lia) eq_refl eq_refl
           ltac:(simpl; lia)).
Defined.

(** X6 at a server that is down for the first request. *)
Lemma polarRequest_recovers :
  PolarClient.polarRequest body_detail body_type fetch_recovering
    "/v1/metrics/events" sample_config PolarClient.default_retries quiet_net
  = (inr {[ "accepted" := JNum 2 ]},
     {| PolarClient.fetched :=
          [ "https://sandbox-api.polar.sh/v1/metrics/events";
            "https://sandbox-api.polar.sh/v1/metrics/events" ];
        PolarClient.slept := [1000]%Z |}).
Proof.
  exact (proj1 (polarRequest_returns_first_success body_detail body_type
                  fetch_recovering "/v1/metrics/events" sample_config 3
                  quiet_net
                  [PolarClient.PolarAPIError
                     "Polar API error: Service Unavailable" 503
                     "POLAR_API_ERROR"]
                  ingested {[ "accepted" := JNum 2 ]}
                  (conj eq_refl I) ltac:(simpl; lia) eq_refl eq_refl eq_refl)).
Defined.

(** X8 at the same server: the body returned is that of the second
    answer. *)
Lemma polarRequest_returned_body_was_answered :
  exists i r,
    i < 3
    /\ fetch_recovering (0 + i) "https://sandbox-api.polar.sh/v1/metrics/events"
       = PolarClient.Responded r
    /\ PolarClient.ok r = true
    /\ PolarClient.json r = Ok {[ "accepted" := JNum 2 ]}.
Proof.
  exact (polarRequest_returns_only_ok_body body_detail body_type
           fetch_recovering "/v1/metrics/events" sample_config 3 quiet_net
           {[ "accepted" := JNum 2 ]} eq_refl).
Defined.

(** ** The dispatcher: rejected and failed deliveries (webhooks.ts) *)

(** X9.  The dispatcher of webhooks.ts writes only for deliveries it has
    authenticated.  A delivery without a valid signature, or received
    while the secret is not configured, is answered 401 or 500 and the
    world is left as it was: no event is stored, no mutator runs.  An
    authenticated delivery whose body is not JSON is answered 500, again
    with nothing written. *)
Theorem dispatcher_rejects_without_writing
    (env : Env) (request : Request) (w : World) :
  (~ authentic env request ->
   snd (Webhooks.handlePolarWebhook env request w) = w
   /\ (resp_status (fst (Webhooks.handlePolarWebhook env request w)) = 401
       \/ resp_status (fst (Webhooks.handlePolarWebhook env request w)) = 500))
  /\ (authentic env request ->
      JSON_parse env (req_body request) = None ->
      Webhooks.handlePolarWebhook env request w
      = (mkResponse (Some "Internal error") 500, w)).
Proof.
  unfold authentic, Webhooks.handlePolarWebhook, Webhooks.handlePolarWebhook_try.
  split.
  - intros Hnot.
    destruct (truthy_str (Webhooks.signature_header request)) eqn:Hsig; simpl;
      [| by auto].
    destruct (truthy_ostr (POLAR_WEBHOOK_SECRET env)) eqn:Hsecret; simpl;
      [| by auto].
    destruct (verifyWebhookSignature env (req_body request)
                (Webhooks.signature_header request)
                (or_str (POLAR_WEBHOOK_SECRET env) "")) eqn:Hverify; simpl;
      [| by auto].
    by destruct Hnot.
  - intros (Hsecret & Hsig & Hverify) Hparse.
    by rewrite Hsig, Hsecret, Hverify, Hparse.
Qed.

(** A delivery of [sample_body] whose signature does not verify. *)
Definition tampered_request : Request :=
  {| req_body := sample_body;
     req_headers := {[ "x-webhook-signature" := "0000" ]} |}.

Lemma tampered_request_rejected :
  snd (Webhooks.handlePolarWebhook sample_env tampered_request sample_world)
  = sample_world.
Proof.
  apply (proj1 (dispatcher_rejects_without_writing sample_env
                  tampered_request sample_world)).
  intros (_ & _ & Hverify). vm_compute in Hverify. discriminate.
Defined.

Section StoreAppend.

Context {A : Type}.
Implicit Types (t : Table A) (p : A -> bool) (id : Id) (d : A).

Lemma docs_from_app (k : Id) t1 t2 :
  docs_from k (t1 ++ t2) = docs_from k t1 ++ docs_from (k + length t1) t2.
Proof.
  revert k. induction t1 as [| slot rest IH]; intros k; simpl.
  - by rewrite Nat.add_0_r.
  - rewrite IH. replace (S k + length rest) with (k + S (length rest)) by lia.
    by destruct slot.
Qed.

Lemma collect_insert p t d :
  collect p (fst (db_insert t d))
  = collect p t ++ (if p d then [(length t, d)] else []).
Proof.
  unfold collect, documents, db_insert. simpl.
  rewrite docs_from_app, List.filter_app. by simpl.
Qed.

Lemma first_None p t :
  first p t = None <-> forall id d, db_get t id = Some d -> p d = false.
Proof.
  unfold first. split.
  - intros Hhead id d Hget. destruct (p d) eqn:Hp; [| done].
    assert (Hin : In (id, d) (collect p t)) by by apply collect_In.
    by destruct (collect p t).
  - intros Hnone. destruct (collect p t) as [| [id d] rest] eqn:Hc; [done |].
    assert (Hin : In (id, d) (collect p t)) by (rewrite Hc; by left).
    apply collect_In in Hin as [Hget Hp]. by rewrite (Hnone id d) in Hp.
Qed.

(** [.first()] after an insert: an earlier match stays first, else the
    new document is found if it matches. *)
Lemma first_insert p t d :
  first p (fst (db_insert t d))
  = match first p t with
    | Some found => Some found
    | None => if p d then Some (length t, d) else None
    end.
Proof.
  unfold first. rewrite collect_insert.
  destruct (collect p t); [by destruct (p d) | done].
Qed.

Lemma first_append p t d :
  first p (t ++ [Some d])
  = match first p t with
    | Some found => Some found
    | None => if p d then Some (length t, d) else None
    end.
Proof. apply first_insert. Qed.

Lemma db_get_insert_new t d : db_get (fst (db_insert t d)) (length t) = Some d.
Proof.
  unfold db_get, db_insert. simpl.
  by rewrite lookup_app_r, Nat.sub_diag.
Qed.

Lemma db_get_insert_beyond t d id :
  length t < id -> db_get (fst (db_insert t d)) id = None.
Proof.
  intros Hlt. unfold db_get, db_insert. simpl.
  rewrite lookup_ge_None_2; [done |]. rewrite length_app. simpl. lia.
Qed.

Lemma db_get_beyond t id : length t <= id -> db_get t id = None.
Proof. intros Hle. unfold db_get. by rewrite lookup_ge_None_2. Qed.

End StoreAppend.

(** The inner [try] of the dispatcher: what the handler did, then the
    mark. *)
Lemma process_event_outcome (env : Env) (eventId eventType : string)
    (payload : Payload) (w : World) :
  Webhooks.process_event env eventId eventType payload w
  = match Webhooks.dispatch env eventType payload w with
    | (Ok _, w1) =>
        (Ok None,
         snd (runMutation env
                (Webhooks.markWebhookEventProcessed eventId ResultSuccess None)
                w1))
    | (Throw error, w1) =>
        (Ok (Some (mkResponse (Some "Processing error") 500)),
         snd (runMutation env
                (Webhooks.markWebhookEventProcessed eventId ResultError
                   (Some (error_message error))) w1))
    end.
Proof.
  unfold Webhooks.process_event, try_catch, bind.
  destruct (Webhooks.dispatch env eventType payload w) as [[[] | error] w1].
  - unfold runMutation, Webhooks.markWebhookEventProcessed.
    by destruct (Webhooks.getWebhookEventById eventId (w_db w1)) as [[id event] |].
  - unfold runMutation, Webhooks.markWebhookEventProcessed.
    by destruct (Webhooks.getWebhookEventById eventId (w_db w1)) as [[id event] |].
Qed.

(** X10.  When the processing of a new notification fails (a handler
    throws), the dispatcher answers 500 "Processing error", and the event
    is left in the store marked [error] with the message and with
    [attempts] still 1.  A redelivery of the notification then finds the
    stored event and is answered 200 without any processing: the 500
    does not lead to a retry of the handler. *)
Theorem failed_delivery_recorded_and_never_retried
    (env : Env) (request : Request) (payload : Payload) (eventId : string)
    (w : World) :
  authentic env request ->
  JSON_parse env (req_body request) = Some payload ->
  p_id payload = Some eventId ->
  eventId <> "" ->
  ~ recorded eventId (w_db w) ->
  resp_status (fst (Webhooks.handlePolarWebhook env request w)) = 500 ->
  let first_delivery := Webhooks.handlePolarWebhook env request w in
  fst first_delivery = mkResponse (Some "Processing error") 500
  /\ (exists id event,
        Webhooks.getWebhookEventById eventId (w_db (snd first_delivery))
        = Some (id, event)
        /\ evt_processingResult event = Some ResultError
        /\ is_Some (evt_error event)
        /\ evt_attempts event = 1%Z)
  /\ Webhooks.handlePolarWebhook env request (snd first_delivery)
     = (Webhooks.ok_response, snd first_delivery).
Proof.
  intros Hauth Hparse Hid Hne Hnew Hstatus first_delivery.
  subst first_delivery.
  assert (Hnone : Webhooks.getWebhookEventById eventId (w_db w) = None).
  { destruct (Webhooks.getWebhookEventById eventId (w_db w)) eqn:Hfound;
      [| done].
    exfalso. apply Hnew. unfold recorded. by rewrite Hfound. }
  rewrite (handle_authentic env request payload eventId w) in * by done.
  rewrite Hnone in *. cbv zeta in *.
  set (ws := snd (runMutation env _ (tick w))) in *.
  assert (Hstored :
            Webhooks.getWebhookEventById eventId (w_db ws)
            = Some (length (webhookEvents (w_db w)),
                    {| evt_eventId := eventId;
                       evt_eventType := p_type payload;
                       evt_source := SourcePolar;
                       evt_payload := payload;
                       evt_receivedAt := iso (clock env (w_ticks w));
                       evt_processedAt := None;
                       evt_processingResult := None;
                       evt_attempts := 1%Z;
                       evt_lastAttemptAt := None;
                       evt_error := None |})).
  { subst ws. unfold Webhooks.getWebhookEventById in *. simpl.
    match goal with
    | |- first ?p (?t ++ [Some ?d]) = _ =>
        change (t ++ [Some d]) with (fst (db_insert t d))
    end.
    rewrite first_insert, Hnone. simpl. by rewrite String.eqb_refl. }
  rewrite process_event_outcome in *.
  pose proof (dispatch_keeps_events env (p_type payload) payload ws) as Hkept.
  destruct (Webhooks.dispatch env (p_type payload) payload ws)
    as [[[] | error] w1]; simpl in Hstatus; [discriminate |].
  unfold events_kept in Hkept. simpl in Hkept.
  assert (Hfound : Webhooks.getWebhookEventById eventId (w_db w1)
                   = Webhooks.getWebhookEventById eventId (w_db ws)).
  { unfold Webhooks.getWebhookEventById. by rewrite Hkept. }
  rewrite Hstored in Hfound.
  set (w2 := snd (runMutation env _ w1)).
  assert (Hmarked :
            exists id event,
              Webhooks.getWebhookEventById eventId (w_db w2) = Some (id, event)
              /\ evt_processingResult event = Some ResultError
              /\ is_Some (evt_error event)
              /\ evt_attempts event = 1%Z).
  { subst w2. unfold runMutation, Webhooks.markWebhookEventProcessed.
    rewrite Hfound. simpl. eexists _, _. split.
    - unfold Webhooks.getWebhookEventById in *. simpl.
      eapply first_put; [exact Hfound |]. simpl. apply String.eqb_refl.
    - simpl. by eauto. }
  split; [done |]. split; [exact Hmarked |].
  simpl. destruct Hmarked as (id & event & Hget & _).
  rewrite (handle_authentic env request payload eventId w2) by done.
  by rewrite Hget.
Qed.

(** An "order.created" notification for [cus_1] that carries no amount:
    the validator of [createOrder] rejects it. *)
Definition order_payload : Payload :=
  {| p_id := Some "evt_2";
     p_type := "order.created";
     p_data := sample_data |}.

Definition order_body : string :=
  "{id:evt_2,type:order.created,data:{id:sub_1,customer_id:cus_1}}".

Definition order_env : Env :=
  {| POLAR_WEBHOOK_SECRET := Some "whsec_test";
     clock := clock sample_env;
     hmac_sha256_hex := fun _ _ => "5f2c";
     JSON_parse := fun body =>
       if String.eqb body order_body then Some order_payload else None;
     polarApi := sample_polarApi |}.

Definition order_request : Request :=
  {| req_body := order_body;
     req_headers := {[ "x-webhook-signature" := "5f2c" ]} |}.

Lemma failed_order_delivery_not_retried :
  fst (Webhooks.handlePolarWebhook order_env order_request sample_world)
  = mkResponse (Some "Processing error") 500
  /\ Webhooks.handlePolarWebhook order_env order_request
       (snd (Webhooks.handlePolarWebhook order_env order_request sample_world))
     = (Webhooks.ok_response,
        snd (Webhooks.handlePolarWebhook order_env order_request sample_world)).
Proof.
  assert (Hauth : authentic order_env order_request)
    by (repeat split; vm_compute; reflexivity).
  assert (Hne : "evt_2" <> "") by discriminate.
  assert (Hnew : ~ recorded "evt_2" (w_db sample_world)).
  { intros [found Hfound]. vm_compute in Hfound. discriminate. }
  assert (Hstatus :
            resp_status
              (fst (Webhooks.handlePolarWebhook order_env order_request
                      sample_world)) = 500)
    by (vm_compute; reflexivity).
  destruct (failed_delivery_recorded_and_never_retried order_env order_request
              order_payload "evt_2" sample_world Hauth eq_refl eq_refl Hne
              Hnew Hstatus) as (Hfirst & _ & Hsecond).
  split; [exact Hfirst | exact Hsecond].
Defined.

(** The event types the [switch] of the dispatcher has a case for. *)
Definition handled_event_types : list string :=
  [ "customer.created"; "customer.updated";
    "subscription.created"; "subscription.updated"; "subscription.active";
    "subscription.canceled"; "subscription.revoked";
    "checkout.created"; "checkout.updated";
    "order.created";
    "invoice.created"; "invoice.paid";
    "payment_method.attached"; "payment_method.detached" ].

Lemma dispatch_unhandled (env : Env) (eventType : string) (payload : Payload) :
  ~ In eventType handled_event_types ->
  Webhooks.dispatch env eventType payload = ret tt.
Proof.
  intros Hother. unfold Webhooks.dispatch.
  repeat match goal with
         | |- context [String.eqb eventType ?name] =>
             destruct (String.eqb_spec eventType name) as [-> | _];
               [exfalso; apply Hother; simpl; tauto |]
         end.
  reflexivity.
Qed.

(** The tables other than the event store are as they were. *)
Definition domain_kept (db db' : Db) : Prop :=
  users db' = users db
  /\ customers db' = customers db
  /\ subscriptions db' = subscriptions db
  /\ checkoutSessions db' = checkoutSessions db
  /\ orders db' = orders db
  /\ invoices db' = invoices db
  /\ paymentMethods db' = paymentMethods db
  /\ usageEvents db' = usageEvents db
  /\ auditLogs db' = auditLogs db
  /\ billingSettings db' = billingSettings db.

(** X11.  A new, authenticated notification of a type the dispatcher
    has no case for is acknowledged: it is answered 200, its event is
    stored and marked [success], and no table other than the event store
    changes. *)
Theorem unhandled_event_acknowledged
    (env : Env) (request : Request) (payload : Payload) (eventId : string)
    (w : World) :
  authentic env request ->
  JSON_parse env (req_body request) = Some payload ->
  p_id payload = Some eventId ->
  eventId <> "" ->
  ~ recorded eventId (w_db w) ->
  ~ In (p_type payload) handled_event_types ->
  let run := Webhooks.handlePolarWebhook env request w in
  fst run = Webhooks.ok_response
  /\ (exists id event,
        Webhooks.getWebhookEventById eventId (w_db (snd run)) = Some (id, event)
        /\ evt_processingResult event = Some ResultSuccess
        /\ evt_error event = None)
  /\ domain_kept (w_db w) (w_db (snd run))
  /\ w_calls (snd run) = w_calls w.
Proof.
  intros Hauth Hparse Hid Hne Hnew Hother run. subst run.
  assert (Hnone : Webhooks.getWebhookEventById eventId (w_db w) = None).
  { destruct (Webhooks.getWebhookEventById eventId (w_db w)) eqn:Hfound;
      [| done].
    exfalso. apply Hnew. unfold recorded. by rewrite Hfound. }
  rewrite (handle_authentic env request payload eventId w) by done.
  rewrite Hnone. cbv zeta.
  rewrite process_event_outcome, dispatch_unhandled by done.
  unfold ret. cbn [fst snd].
  set (ws := snd (runMutation env _ (tick w))).
  assert (Hstored :
            exists event,
              Webhooks.getWebhookEventById eventId (w_db ws)
              = Some (length (webhookEvents (w_db w)), event)
              /\ evt_eventId event = eventId).
  { subst ws. unfold Webhooks.getWebhookEventById in *. simpl.
    match goal with
    | |- exists _, first ?p (?t ++ [Some ?d]) = _ /\ _ =>
        change (t ++ [Some d]) with (fst (db_insert t d)); exists d
    end.
    rewrite first_insert, Hnone. simpl. by rewrite String.eqb_refl. }
  destruct Hstored as (event & Hstored & Hevent).
  split; [done |].
  unfold runMutation at 1 2 3, Webhooks.markWebhookEventProcessed.
  rewrite Hstored. cbn [fst snd w_db set_db tick w_calls].
  split; [| split].
  - eexists _, _. split.
    + unfold Webhooks.getWebhookEventById in *. cbn [webhookEvents with_webhookEvents].
      eapply first_put; [exact Hstored |]. simpl. by apply String.eqb_eq.
    + done.
  - subst ws. unfold domain_kept. simpl. by repeat split.
  - subst ws. done.
Qed.

(** A "benefit.granted" notification, which the dispatcher has no case
    for. *)
Definition benefit_payload : Payload :=
  {| p_id := Some "evt_3";
     p_type := "benefit.granted";
     p_data := sample_data |}.

Definition benefit_body : string :=
  "{id:evt_3,type:benefit.granted,data:{id:sub_1}}".

Definition benefit_env : Env :=
  {| POLAR_WEBHOOK_SECRET := Some "whsec_test";
     clock := clock sample_env;
     hmac_sha256_hex := fun _ _ => "5f2c";
     JSON_parse := fun body =>
       if String.eqb body benefit_body then Some benefit_payload else None;
     polarApi := sample_polarApi |}.

Definition benefit_request : Request :=
  {| req_body := benefit_body;
     req_headers := {[ "x-polar-signature" := "5f2c" ]} |}.

Lemma benefit_granted_acknowledged :
  fst (Webhooks.handlePolarWebhook benefit_env benefit_request sample_world)
  = Webhooks.ok_response
  /\ domain_kept (w_db sample_world)
       (w_db (snd (Webhooks.handlePolarWebhook benefit_env benefit_request
                     sample_world))).
Proof.
  assert (Hauth : authentic benefit_env benefit_request)
    by (repeat split; vm_compute; reflexivity).
  assert (Hne : "evt_3" <> "") by discriminate.
  assert (Hnew : ~ recorded "evt_3" (w_db sample_world)).
  { intros [found Hfound]. vm_compute in Hfound. discriminate. }
  assert (Hother : ~ In (p_type benefit_payload) handled_event_types).
  { simpl. intros Hin. repeat destruct Hin as [Hin | Hin]; try discriminate.
    exact Hin. }
  destruct (unhandled_event_acknowledged benefit_env benefit_request
              benefit_payload "evt_3" sample_world Hauth eq_refl eq_refl Hne
              Hnew Hother) as (Hresponse & _ & Hkept & _).
  split; [exact Hresponse | exact Hkept].
Defined.

(** ** External ids stay unique *)

(** No two documents of the table have the same key. *)
Definition unique_on {A} (key : A -> string) (t : Table A) : Prop :=
  forall i j a b,
    db_get t i = Some a -> db_get t j = Some b -> key a = key b -> i = j.

Section UniqueProps.

Context {A : Type} (key : A -> string).
Implicit Types (t : Table A) (id : Id) (d : A).

Lemma unique_put t id d d' :
  unique_on key t -> db_get t id = Some d -> key d' = key d ->
  unique_on key (db_put t id d').
Proof.
  intros Hu Hget Hkey i j a b Hi Hj Hab.
  assert (Hlt : id < length t) by by eapply db_get_lt.
  destruct (decide (i = id)) as [-> | Hi'], (decide (j = id)) as [-> | Hj'];
    [done | | |].
  - rewrite db_get_put_eq in Hi by done. rewrite db_get_put_ne in Hj by done.
    simplify_eq. symmetry. apply (Hu j id b d); [done | done | congruence].
  - rewrite db_get_put_ne in Hi by done. rewrite db_get_put_eq in Hj by done.
    simplify_eq. apply (Hu i id a d); [done | done | congruence].
  - rewrite db_get_put_ne in Hi, Hj by done. by eapply Hu.
Qed.

Lemma unique_patch t t' id (f : A -> A) :
  unique_on key t -> (forall d, key (f d) = key d) ->
  db_patch t id f = Some t' -> unique_on key t'.
Proof.
  intros Hu Hf. unfold db_patch.
  destruct (db_get t id) as [d |] eqn:Hget; [| done].
  intros [= <-]. by eapply unique_put.
Qed.

Lemma unique_insert t d (k : string) :
  unique_on key t ->
  first (fun x => String.eqb (key x) k) t = None -> key d = k ->
  unique_on key (fst (db_insert t d)).
Proof.
  intros Hu Hnone Hkey i j a b Hi Hj Hab.
  assert (Hold : forall id x,
             id < length t -> db_get (fst (db_insert t d)) id = Some x ->
             key x <> k).
  { intros id x Hlt Hget. rewrite db_get_insert_old in Hget by done.
    pose proof (proj1 (first_None _ _) Hnone id x Hget) as Hp.
    simpl in Hp. by apply String.eqb_neq. }
  assert (Hnew : forall id x,
             length t <= id -> db_get (fst (db_insert t d)) id = Some x ->
             id = length t /\ x = d).
  { intros id x Hle Hget. destruct (decide (id = length t)) as [-> | Hne].
    - rewrite db_get_insert_new in Hget. by simplify_eq.
    - rewrite db_get_insert_beyond in Hget by lia. done. }
  destruct (decide (i < length t)) as [Hil | Hil],
           (decide (j < length t)) as [Hjl | Hjl].
  - rewrite db_get_insert_old in Hi, Hj by done. by eapply Hu.
  - destruct (Hnew j b) as [-> ->]; [lia | done |].
    exfalso. apply (Hold i a); [done | done | congruence].
  - destruct (Hnew i a) as [-> ->]; [lia | done |].
    exfalso. apply (Hold j b); [done | done | congruence].
  - destruct (Hnew i a) as [-> _]; [lia | done |].
    destruct (Hnew j b) as [-> _]; [lia | done |]. done.
Qed.

Lemma unique_append t d (k : string) :
  unique_on key t ->
  first (fun x => String.eqb (key x) k) t = None -> key d = k ->
  unique_on key (t ++ [Some d]).
Proof. apply unique_insert. Qed.

Lemma unique_put_found t id d d' (k : string) :
  unique_on key t ->
  first (fun x => String.eqb (key x) k) t = Some (id, d) -> key d' = key d ->
  unique_on key (db_put t id d').
Proof.
  intros Hu Hfound Hkey. apply first_Some in Hfound as [Hget _].
  by eapply unique_put.
Qed.

Lemma unique_delete t id : unique_on key t -> unique_on key (db_delete t id).
Proof.
  intros Hu i j a b Hi Hj Hab. unfold db_delete, db_get in *.
  destruct (decide (i = id)) as [-> | Hi'].
  { destruct (decide (id < length t)).
    - by rewrite list_lookup_insert_eq in Hi.
    - rewrite list_insert_ge in Hi by lia.
      by rewrite lookup_ge_None_2 in Hi by lia. }
  destruct (decide (j = id)) as [-> | Hj'].
  { destruct (decide (id < length t)).
    - by rewrite list_lookup_insert_eq in Hj.
    - rewrite list_insert_ge in Hj by lia.
      by rewrite lookup_ge_None_2 in Hj by lia. }
  rewrite list_lookup_insert_ne in Hi, Hj by done. by eapply Hu.
Qed.

End UniqueProps.

(** Each mirrored record is found under one external id only. *)
Definition external_ids_unique (db : Db) : Prop :=
  unique_on cus_polarCustomerId (customers db)
  /\ unique_on sub_polarSubscriptionId (subscriptions db)
  /\ unique_on inv_polarInvoiceId (invoices db)
  /\ unique_on pm_polarPaymentMethodId (paymentMethods db).

Definition keeps_unique (w w' : World) : Prop :=
  external_ids_unique (w_db w) -> external_ids_unique (w_db w').

#[global] Instance keeps_unique_stable : Stable keeps_unique.
Proof. split; unfold keeps_unique; simpl; auto. Qed.

Section UniqueMutators.

(** Split the invariant and discharge the tables that were not written. *)
Ltac unique_tables :=
  unfold external_ids_unique; simpl;
  repeat (split; [try assumption |]); try assumption.

Ltac committed Hrun :=
  unfold db_insert in Hrun; simpl in Hrun; simplify_eq.

Lemma createCustomerFromWebhook_unique pc :
  mutation_within keeps_unique (Customers.createCustomerFromWebhook pc).
Proof.
  intros now w a db' Hrun (Hc & Hs & Hi & Hp).
  unfold Customers.createCustomerFromWebhook, Customers.getCustomerByPolarId
    in Hrun.
  destruct (first _ (customers (w_db w))) as [[id existing] |] eqn:Hfound;
    committed Hrun; unique_tables.
  - by eapply unique_put_found.
  - by apply (unique_append _ _ _ (pc_id pc)).
Qed.

Lemma updateCustomerFromPolar_unique id pc :
  mutation_within keeps_unique (Customers.updateCustomerFromPolar id pc).
Proof.
  intros now w a db' Hrun (Hc & Hs & Hi & Hp).
  unfold Customers.updateCustomerFromPolar in Hrun.
  destruct (db_patch _ id _) as [t |] eqn:Hpatch; simplify_eq.
  unique_tables. eapply unique_patch; [eassumption | | exact Hpatch]; done.
Qed.

Lemma createSubscription_unique args :
  mutation_within keeps_unique (Subscriptions.createSubscription args).
Proof.
  intros now w a db' Hrun (Hc & Hs & Hi & Hp).
  unfold Subscriptions.createSubscription, Subscriptions.getSubscriptionByPolarId
    in Hrun.
  destruct (first _ (subscriptions (w_db w))) as [[id existing] |] eqn:Hfound.
  - simplify_eq. unique_tables. by eapply unique_put_found.
  - destruct (db_get (customers (w_db w)) _); committed Hrun.
    unique_tables.
    by apply (unique_append _ _ _ (Subscriptions.ca_polarSubscriptionId args)).
Qed.

Lemma updateSubscriptionFromWebhook_unique pid u :
  mutation_within keeps_unique
    (Subscriptions.updateSubscriptionFromWebhook pid u).
Proof.
  intros now w a db' Hrun (Hc & Hs & Hi & Hp).
  unfold Subscriptions.updateSubscriptionFromWebhook,
    Subscriptions.getSubscriptionByPolarId in Hrun.
  destruct (first _ (subscriptions (w_db w))) as [[id existing] |] eqn:Hfound;
    [| simplify_eq; by unique_tables].
  destruct (Subscriptions.mapped_status u) as [[s | member] |]; simplify_eq;
    unique_tables; by eapply unique_put_found.
Qed.

Lemma syncSubscription_unique customerId a :
  mutation_within keeps_unique (Sync.syncSubscription customerId a).
Proof.
  intros now w [] db' Hrun (Hc & Hs & Hi & Hp).
  unfold Sync.syncSubscription, Subscriptions.getSubscriptionByPolarId in Hrun.
  destruct (first _ (subscriptions (w_db w))) as [[id existing] |] eqn:Hfound.
  - destruct (mapPolarStatus (Sync.sa_status a)); simplify_eq.
    unique_tables. by eapply unique_put_found.
  - destruct (db_get (customers (w_db w)) customerId);
      [| simplify_eq; by unique_tables].
    destruct (mapPolarStatus (Sync.sa_status a)); committed Hrun.
    unique_tables.
    by apply (unique_append _ _ _ (Sync.sa_id a)).
Qed.

Lemma completeCheckoutSession_unique cid completedAt metadata :
  mutation_within keeps_unique
    (Checkout.completeCheckoutSession cid completedAt metadata).
Proof.
  intros now w a db' Hrun (Hc & Hs & Hi & Hp).
  unfold Checkout.completeCheckoutSession in Hrun.
  mutation_cases Hrun; by unique_tables.
Qed.

Lemma createOrder_unique customerId oid pid amount currency status metadata :
  mutation_within keeps_unique
    (Webhooks.createOrder customerId oid pid amount currency status metadata).
Proof.
  intros now w a db' Hrun (Hc & Hs & Hi & Hp).
  unfold Webhooks.createOrder in Hrun.
  mutation_cases Hrun; by unique_tables.
Qed.

Lemma createInvoice_unique args :
  mutation_within keeps_unique (Webhooks.createInvoice args).
Proof.
  intros now w a db' Hrun (Hc & Hs & Hi & Hp).
  unfold Webhooks.createInvoice, Webhooks.invoice_by_polar_id in Hrun.
  destruct (db_get (customers (w_db w)) _); [| simplify_eq; by unique_tables].
  destruct (first _ (invoices (w_db w))) as [[id existing] |] eqn:Hfound;
    committed Hrun; unique_tables.
  - by eapply unique_put_found.
  - by apply (unique_append _ _ _ (Webhooks.ia_polarInvoiceId args)).
Qed.

Lemma updateInvoiceStatus_unique iid status paidAt amountPaid :
  mutation_within keeps_unique
    (Webhooks.updateInvoiceStatus iid status paidAt amountPaid).
Proof.
  intros now w [] db' Hrun (Hc & Hs & Hi & Hp).
  unfold Webhooks.updateInvoiceStatus, Webhooks.invoice_by_polar_id in Hrun.
  destruct (first _ (invoices (w_db w))) as [[id existing] |] eqn:Hfound;
    simplify_eq; unique_tables.
  by eapply unique_put_found.
Qed.

Lemma sync_updateInvoiceStatus_unique iid status paidAt :
  mutation_within keeps_unique (Sync.updateInvoiceStatus iid status paidAt).
Proof.
  intros now w [] db' Hrun (Hc & Hs & Hi & Hp).
  unfold Sync.updateInvoiceStatus in Hrun.
  destruct (db_patch _ iid _) as [t |] eqn:Hpatch; simplify_eq.
  unique_tables. eapply unique_patch; [eassumption | | exact Hpatch]; done.
Qed.

Lemma createPaymentMethod_unique userId customerId pmid type brand last4 m y :
  mutation_within keeps_unique
    (Webhooks.createPaymentMethod userId customerId pmid type brand last4 m y).
Proof.
  intros now w a db' Hrun (Hc & Hs & Hi & Hp).
  unfold Webhooks.createPaymentMethod, Webhooks.payment_method_by_polar_id
    in Hrun.
  destruct (first _ (paymentMethods (w_db w))) as [[id existing] |] eqn:Hfound;
    committed Hrun; unique_tables.
  by apply (unique_append _ _ _ pmid).
Qed.

Lemma deletePaymentMethod_unique pmid :
  mutation_within keeps_unique (Webhooks.deletePaymentMethod pmid).
Proof.
  intros now w [] db' Hrun (Hc & Hs & Hi & Hp).
  unfold Webhooks.deletePaymentMethod in Hrun.
  destruct (Webhooks.payment_method_by_polar_id pmid (w_db w)) as [[id m] |];
    simplify_eq; unique_tables.
  by apply unique_delete.
Qed.

Lemma storeWebhookEvent_unique eventId eventType source payload receivedAt :
  mutation_within keeps_unique
    (Webhooks.storeWebhookEvent eventId eventType source payload receivedAt).
Proof.
  intros now w a db' Hrun (Hc & Hs & Hi & Hp).
  unfold Webhooks.storeWebhookEvent in Hrun.
  mutation_cases Hrun; by unique_tables.
Qed.

Lemma markWebhookEventProcessed_unique eventId result error :
  mutation_within keeps_unique
    (Webhooks.markWebhookEventProcessed eventId result error).
Proof.
  intros now w a db' Hrun (Hc & Hs & Hi & Hp).
  unfold Webhooks.markWebhookEventProcessed in Hrun.
  mutation_cases Hrun; by unique_tables.
Qed.

Lemma recordSyncStatus_unique type status synced failed duration errors :
  mutation_within keeps_unique
    (Sync.recordSyncStatus type status synced failed duration errors).
Proof.
  intros now w a db' Hrun (Hc & Hs & Hi & Hp).
  unfold Sync.recordSyncStatus in Hrun.
  mutation_cases Hrun; by unique_tables.
Qed.

End UniqueMutators.

#[local] Hint Resolve createCustomerFromWebhook_unique
  updateCustomerFromPolar_unique createSubscription_unique
  updateSubscriptionFromWebhook_unique syncSubscription_unique
  completeCheckoutSession_unique createOrder_unique createInvoice_unique
  updateInvoiceStatus_unique sync_updateInvoiceStatus_unique
  createPaymentMethod_unique deletePaymentMethod_unique
  storeWebhookEvent_unique markWebhookEventProcessed_unique
  recordSyncStatus_unique : frame.

Lemma same_db_keeps_unique (w w' : World) :
  w_db w' = w_db w -> keeps_unique w w'.
Proof. intros Hdb Hu. by rewrite Hdb. Qed.

Lemma dispatch_keeps_unique (env : Env) (eventType : string) (payload : Payload) :
  preserves keeps_unique (Webhooks.dispatch env eventType payload).
Proof.
  unfold Webhooks.dispatch.
  repeat case_match;
    unfold Webhooks.handleCustomerCreated, Webhooks.handleCustomerUpdated,
      Webhooks.handleSubscriptionCreated, Webhooks.handleSubscriptionUpdated,
      Webhooks.handleSubscriptionActive, Webhooks.handleSubscriptionCanceled,
      Webhooks.handleSubscriptionRevoked, Webhooks.handleCheckoutCreated,
      Webhooks.handleCheckoutUpdated, Webhooks.handleOrderCreated,
      Webhooks.handleInvoiceCreated, Webhooks.handleInvoicePaid,
      Webhooks.handlePaymentMethodAttached,
      Webhooks.handlePaymentMethodDetached, Webhooks.update_subscription,
      Webhooks.polar_customer_of, Webhooks.or_now,
      Webhooks.mapped_status_arg, Webhooks.payment_method_type_arg;
    preserve.
Qed.

Lemma handlePolarWebhook_try_keeps_unique (env : Env) (request : Request) :
  preserves keeps_unique (Webhooks.handlePolarWebhook_try env request).
Proof.
  unfold Webhooks.handlePolarWebhook_try.
  destruct (negb (truthy_str _)); [preserve |].
  destruct (negb (truthy_ostr _)); [preserve |].
  destruct (negb (verifyWebhookSignature _ _ _ _)); [preserve |].
  destruct (JSON_parse env (req_body request)) as [payload |]; [| preserve].
  apply preserves_bind; [exact _ | unfold Webhooks.event_id_of; preserve |].
  intros eventId.
  apply preserves_bind; [exact _ | preserve | intros [found |]; [preserve |]].
  apply preserves_bind; [exact _ | preserve | intros t].
  apply preserves_bind; [exact _ | preserve | intros _].
  apply preserves_bind; [exact _ | | intros [response |]; preserve].
  unfold Webhooks.process_event.
  apply preserves_try_catch; [exact _ | | intros error; preserve].
  apply preserves_bind; [exact _ | apply dispatch_keeps_unique | intros _].
  preserve.
Qed.

Lemma sync_customer_keeps_unique (env : Env) (customer : Id * Customer)
    (locals : Z * Z * list SyncError) :
  preserves keeps_unique (Sync.sync_customer env customer locals).
Proof.
  destruct locals as [[synced failed] errors], customer as [customerId c].
  unfold Sync.sync_customer.
  destruct (Sync.is_manual _); [preserve |].
  apply preserves_bind; [exact _ | | intros [items | error]; [| preserve]].
  - apply preserves_try_catch; [exact _ | | intros error; preserve].
    apply preserves_bind; [exact _ | | intros items; preserve].
    apply preserves_call_polar. intros w. by apply same_db_keeps_unique.
  - apply preserves_bind; [exact _ | | intros [synced' [error |]]; preserve].
    apply preserves_count_until_throw; [exact _ |]. intros polarSub. preserve.
Qed.

Lemma sync_invoice_keeps_unique (env : Env) (invoice : Id * Invoice)
    (locals : Z * Z) :
  preserves keeps_unique (Sync.sync_invoice env invoice locals).
Proof.
  destruct locals as [updated failed], invoice as [invoiceId i].
  unfold Sync.sync_invoice.
  destruct (Sync.is_manual _); [preserve |].
  apply preserves_try_catch; [exact _ | | intros error; preserve].
  apply preserves_bind; [exact _ | | intros [order |]; preserve].
  apply preserves_call_polar. intros w. by apply same_db_keeps_unique.
Qed.

Lemma breaker_steps_keep_unique (env : Env) :
  preserves keeps_unique (Sync.checkCircuitBreaker env)
  /\ preserves keeps_unique Sync.recordSuccess
  /\ preserves keeps_unique (Sync.recordFailure env).
Proof.
  (split; [| split]); intros w; apply same_db_keeps_unique.
  - unfold Sync.checkCircuitBreaker.
    destruct (CircuitBreaker.isOpen (w_breaker w)),
      (CircuitBreaker.nextRetry (w_breaker w)); try done.
    by destruct (CircuitBreaker.checkCircuitBreaker _ _).
  - done.
  - unfold Sync.recordFailure. by destruct (3 <=? _).
Qed.

Lemma syncAllSubscriptions_keeps_unique (env : Env) (batchSize : option nat) :
  preserves keeps_unique (Sync.syncAllSubscriptions env batchSize).
Proof.
  destruct (breaker_steps_keep_unique env) as (Hcheck & Hsuccess & Hfailure).
  unfold Sync.syncAllSubscriptions.
  apply preserves_bind; [exact _ | exact Hcheck | intros allowed].
  destruct (negb allowed); [intros w; apply stable_refl |].
  apply preserves_bind; [exact _ | preserve | intros startTime].
  apply preserves_try_catch; [exact _ | | intros error].
  - apply preserves_bind; [exact _ | preserve | intros customers].
    apply preserves_bind; [exact _ | | intros [[synced failed] errors]].
    + apply preserves_fold_action; [exact _ |]. intros customer locals.
      apply sync_customer_keeps_unique.
    + apply preserves_bind; [exact _ | preserve | intros finished].
      apply preserves_bind; [exact _ | preserve | intros _].
      apply preserves_bind; [exact _ | exact Hsuccess | intros _; preserve].
  - apply preserves_bind; [exact _ | exact Hfailure | intros _].
    preserve.
Qed.

Lemma syncPendingInvoices_keeps_unique (env : Env) :
  preserves keeps_unique (Sync.syncPendingInvoices env).
Proof.
  destruct (breaker_steps_keep_unique env) as (Hcheck & Hsuccess & Hfailure).
  unfold Sync.syncPendingInvoices.
  apply preserves_bind; [exact _ | exact Hcheck | intros allowed].
  destruct (negb allowed); [preserve |].
  apply preserves_bind; [exact _ | preserve | intros startTime].
  apply preserves_try_catch; [exact _ | | intros error].
  - apply preserves_bind; [exact _ | preserve | intros pendingInvoices].
    apply preserves_bind; [exact _ | | intros [updated failed]].
    + apply preserves_fold_action; [exact _ |]. intros invoice locals.
      apply sync_invoice_keeps_unique.
    + apply preserves_bind; [exact _ | exact Hsuccess | intros _; preserve].
  - apply preserves_bind; [exact _ | exact Hfailure | intros _; preserve].
Qed.

(** X12.  The upserts keep the external ids unique.  If no two
    customers share a Polar customer id, no two subscriptions a Polar
    subscription id, no two invoices a Polar invoice id and no two
    payment methods a Polar payment method id, the same holds after any
    delivery to the dispatcher (whatever the request), after a
    subscription sync and after an invoice sync (whatever the processor
    answers). *)
Theorem external_ids_stay_unique (env : Env) (w : World) :
  external_ids_unique (w_db w) ->
  (forall request,
      external_ids_unique
        (w_db (snd (Webhooks.handlePolarWebhook env request w))))
  /\ (forall batchSize,
        external_ids_unique
          (w_db (snd (Sync.syncAllSubscriptions env batchSize w))))
  /\ external_ids_unique (w_db (snd (Sync.syncPendingInvoices env w))).
Proof.
  intros Hu. split; [| split].
  - intros request.
    pose proof (handlePolarWebhook_try_keeps_unique env request w Hu) as Hkept.
    unfold Webhooks.handlePolarWebhook.
    by destruct (Webhooks.handlePolarWebhook_try env request w) as [[r | e] w'].
  - intros batchSize. by apply syncAllSubscriptions_keeps_unique.
  - by apply syncPendingInvoices_keeps_unique.
Qed.

Lemma unique_on_short {A} (key : A -> string) (t : Table A) :
  length t <= 1 -> unique_on key t.
Proof.
  intros Hlen i j a b Hi Hj _.
  apply db_get_lt in Hi, Hj. lia.
Qed.

Lemma sample_world_ids_stay_unique :
  external_ids_unique
    (w_db (snd (Webhooks.handlePolarWebhook sample_env signed_request
                  sample_world))).
Proof.
  apply (external_ids_stay_unique sample_env sample_world).
  repeat split; apply unique_on_short; simpl; lia.
Defined.

(** ** Mutators of the dispatcher: repeated calls (webhooks.ts,
    checkout.ts) *)




(** X14.  [createPaymentMethod] and [deletePaymentMethod] round trip.
    For a Polar payment method id that is not stored: the create inserts
    a row that is found under the id; creating again, with whatever
    other arguments, returns the same row id and writes nothing; the
    delete then removes the row, after which the id is not found and
    every other payment method is as before. *)
Theorem payment_method_attach_detach
    (userId customerId : Id) (pmid : string) (type : PaymentMethodType)
    (brand last4 : option string) (expMonth expYear : option Z)
    (now : string) (db : Db) :
  Webhooks.payment_method_by_polar_id pmid db = None ->
  exists id db1 db2,
    Webhooks.createPaymentMethod userId customerId pmid type brand last4
      expMonth expYear now db = Ok (id, db1)
    /\ (exists row, Webhooks.payment_method_by_polar_id pmid db1 = Some (id, row)
                    /\ pm_isDefault row = false)
    /\ (forall userId' customerId' type' brand' last4' expMonth' expYear' now',
          Webhooks.createPaymentMethod userId' customerId' pmid type' brand'
            last4' expMonth' expYear' now' db1 = Ok (id, db1))
    /\ (forall now', Webhooks.deletePaymentMethod pmid now' db1 = Ok (tt, db2))
    /\ Webhooks.payment_method_by_polar_id pmid db2 = None
    /\ (forall other,
          other <> id ->
          db_get (paymentMethods db2) other = db_get (paymentMethods db) other).
Proof.
  intros Hnone. unfold Webhooks.createPaymentMethod. rewrite Hnone.
  unfold Webhooks.payment_method_by_polar_id in *.
  set (row := {| pm_userId := userId; pm_customerId := Some customerId;
                 pm_polarPaymentMethodId := pmid; pm_type := type;
                 pm_brand := brand; pm_last4 := last4;
                 pm_expMonth := expMonth; pm_expYear := expYear;
                 pm_isDefault := false; pm_createdAt := now |}).
  set (id := length (paymentMethods db)).
  assert (Hfound :
            first (fun m => String.eqb (pm_polarPaymentMethodId m) pmid)
                  (fst (db_insert (paymentMethods db) row))
            = Some (id, row)).
  { rewrite first_insert, Hnone. simpl. by rewrite String.eqb_refl. }
  simpl in Hfound.
  exists id, (with_paymentMethods db (paymentMethods db ++ [Some row])),
    (with_paymentMethods db
       (db_delete (paymentMethods db ++ [Some row]) id)).
  split; [done |]. split; [by exists row |]. split; [| split; [| split]].
  - intros. simpl. by rewrite Hfound.
  - intros now'. unfold Webhooks.deletePaymentMethod,
      Webhooks.payment_method_by_polar_id. simpl. by rewrite Hfound.
  - simpl. apply first_None. intros i m Hget.
    destruct (decide (i = id)) as [-> | Hne].
    + unfold db_get, db_delete in Hget.
      rewrite list_lookup_insert_eq in Hget; [done |].
      rewrite length_app. simpl. subst id. lia.
    + unfold db_get, db_delete in Hget.
      rewrite list_lookup_insert_ne in Hget by done.
      destruct (decide (i < id)) as [Hlt | Hge].
      * rewrite lookup_app_l in Hget by done.
        apply (proj1 (first_None _ _) Hnone i m). unfold db_get. exact Hget.
      * rewrite lookup_ge_None_2 in Hget; [done |].
        rewrite length_app. simpl. subst id. lia.
  - intros other Hne. simpl. unfold db_get, db_delete.
    rewrite list_lookup_insert_ne by done.
    destruct (decide (other < id)) as [Hlt | Hge].
    + by rewrite lookup_app_l.
    + rewrite !lookup_ge_None_2; [done | subst id; lia |].
      rewrite length_app. simpl. subst id. lia.
Qed.

Lemma payment_method_attach_detach_sample :
  exists id db1 db2,
    Webhooks.createPaymentMethod 0 0 "pm_1" PmCard (Some "visa") (Some "4242")
      (Some 12%Z) (Some 2030%Z) "2024-02-01T00:00:00.000Z" sample_db
    = Ok (id, db1)
    /\ Webhooks.deletePaymentMethod "pm_1" "2024-02-02T00:00:00.000Z" db1
       = Ok (tt, db2)
    /\ Webhooks.payment_method_by_polar_id "pm_1" db2 = None.
Proof.
  destruct (payment_method_attach_detach 0 0 "pm_1" PmCard (Some "visa")
              (Some "4242") (Some 12%Z) (Some 2030%Z)
              "2024-02-01T00:00:00.000Z" sample_db eq_refl)
    as (id & db1 & db2 & Hcreate & _ & _ & Hdelete & Hgone & _).
  exists id, db1, db2. split; [exact Hcreate |]. split; [| exact Hgone].
  apply Hdelete.
Defined.



(** ** The sync jobs when the processor fails (sync.ts) *)

(** [args.batchSize || 50]. *)
Definition subscription_batch (batchSize : option nat) : nat :=
  match batchSize with
  | Some 0 | None => 50
  | Some n => n
  end.

(** The call the subscription sync makes for a customer: none for a
    manual one. *)
Definition calls_for_customer (customer : Id * Customer) : list PolarCall :=
  if Sync.is_manual (cus_polarCustomerId (snd customer)) then []
  else [CallSubscriptionsList (cus_polarCustomerId (snd customer))].

Definition calls_for_invoice (invoice : Id * Invoice) : list PolarCall :=
  if Sync.is_manual (inv_polarInvoiceId (snd invoice)) then []
  else [CallOrdersGet (inv_polarInvoiceId (snd invoice))].

(** The local variables of the subscription sync: [failed] counts the
    entries of [errors]. *)
Definition tallied (locals : Z * Z * list SyncError) : Prop :=
  snd (fst locals) = Z.of_nat (length (snd locals)).

Section SyncRuns.

Context (env : Env).

Lemma count_until_throw_Ok {A} (f : A -> Action unit) (l : list A) (n : Z)
    (w : World) :
  exists r w', count_until_throw f l n w = (Ok r, w').
Proof.
  revert n w. induction l as [| x rest IH]; intros n w; simpl; [by eauto |].
  destruct (f x w) as [[[] | e] w1]; [apply IH | by eauto].
Qed.

Lemma sync_customer_run (customer : Id * Customer)
    (locals : Z * Z * list SyncError) (w : World) :
  exists locals' w',
    Sync.sync_customer env customer locals w = (Ok locals', w')
    /\ (tallied locals -> tallied locals')
    /\ w_calls w' = w_calls w ++ calls_for_customer customer
    /\ w_breaker w' = w_breaker w.
Proof.
  destruct locals as [[synced failed] errors], customer as [customerId c].
  unfold Sync.sync_customer, calls_for_customer. simpl.
  destruct (Sync.is_manual (cus_polarCustomerId c)).
  { exists (synced, failed, errors), w. by rewrite app_nil_r. }
  unfold bind, try_catch, call_polar.
  destruct (subscriptions_list (polarApi env) (length (w_calls w))
              (cus_polarCustomerId c)) as [items | error]; simpl.
  - set (w1 := log_call w _).
    set (f := fun polarSub =>
                runMutation env
                  (Sync.syncSubscription customerId (Sync.sync_arg_of polarSub))).
    destruct (count_until_throw_Ok f items synced w1) as ([n thrown] & w2 & Hrun).
    assert (Hcalls : calls_kept w1 w2).
    { pose proof (preserves_count_until_throw calls_kept f items synced) as Hk.
      specialize (Hk (fun x => preserves_runMutation calls_kept env _
                                 (mutation_within_calls_kept _)) w1).
      by rewrite Hrun in Hk. }
    assert (Hbreaker : breaker_kept w1 w2).
    { pose proof (preserves_count_until_throw breaker_kept f items synced) as Hk.
      specialize (Hk (fun x => preserves_runMutation breaker_kept env _
                                 (mutation_within_breaker_kept _)) w1).
      by rewrite Hrun in Hk. }
    rewrite Hrun. unfold calls_kept, breaker_kept in *.
    destruct thrown as [error |]; simpl; do 2 eexists;
      (split; [reflexivity |]); (split; [| by rewrite Hcalls, Hbreaker]).
    + unfold tallied. simpl. intros ->. rewrite length_app. simpl. lia.
    + done.
  - do 2 eexists. split; [reflexivity |]. split; [| done].
    unfold tallied. simpl. intros ->. rewrite length_app. simpl. lia.
Qed.

Lemma sync_customers_run (customers : list (Id * Customer)) :
  forall (locals : Z * Z * list SyncError) (w : World),
    exists locals' w',
      fold_action (Sync.sync_customer env) customers locals w = (Ok locals', w')
      /\ (tallied locals -> tallied locals')
      /\ w_calls w' = w_calls w ++ flat_map calls_for_customer customers
      /\ w_breaker w' = w_breaker w.
Proof.
  induction customers as [| customer rest IH]; intros locals w.
  - exists locals, w. simpl. by rewrite app_nil_r.
  - destruct (sync_customer_run customer locals w)
      as (locals1 & w1 & Hrun & Htally & Hcalls & Hbreaker).
    destruct (IH locals1 w1) as (locals2 & w2 & Hrest & Htally' & Hcalls' & Hbreaker').
    exists locals2, w2. simpl. unfold bind. rewrite Hrun.
    split; [exact Hrest |]. split; [by auto |]. split.
    + rewrite Hcalls', Hcalls. by rewrite <- app_assoc.
    + by rewrite Hbreaker', Hbreaker.
Qed.

Lemma sync_invoice_run (invoice : Id * Invoice) (locals : Z * Z) (w : World) :
  exists locals' w',
    Sync.sync_invoice env invoice locals w = (Ok locals', w')
    /\ w_calls w' = w_calls w ++ calls_for_invoice invoice
    /\ w_breaker w' = w_breaker w.
Proof.
  destruct locals as [updated failed], invoice as [invoiceId i].
  unfold Sync.sync_invoice, calls_for_invoice. simpl.
  destruct (Sync.is_manual (inv_polarInvoiceId i)).
  { exists (updated, failed), w. by rewrite app_nil_r. }
  unfold try_catch, bind, call_polar.
  destruct (orders_get (polarApi env) (length (w_calls w))
              (inv_polarInvoiceId i)) as [[order |] | error]; simpl;
    [| by eauto | by eauto].
  unfold now, runMutation. simpl.
  destruct (Sync.updateInvoiceStatus invoiceId "paid" _ _ _) as [[[] db'] | e];
    simpl; by eauto.
Qed.

Lemma sync_invoices_run (pending : list (Id * Invoice)) :
  forall (locals : Z * Z) (w : World),
    exists locals' w',
      fold_action (Sync.sync_invoice env) pending locals w = (Ok locals', w')
      /\ w_calls w' = w_calls w ++ flat_map calls_for_invoice pending
      /\ w_breaker w' = w_breaker w.
Proof.
  induction pending as [| invoice rest IH]; intros locals w.
  - exists locals, w. simpl. by rewrite app_nil_r.
  - destruct (sync_invoice_run invoice locals w)
      as (locals1 & w1 & Hrun & Hcalls & Hbreaker).
    destruct (IH locals1 w1) as (locals2 & w2 & Hrest & Hcalls' & Hbreaker').
    exists locals2, w2. simpl. unfold bind. rewrite Hrun.
    split; [exact Hrest |]. split.
    + rewrite Hcalls', Hcalls. by rewrite <- app_assoc.
    + by rewrite Hbreaker', Hbreaker.
Qed.

End SyncRuns.

(** X16.  Failures of the processor never reach the circuit breaker.
    A subscription sync that passes the gate runs to completion whatever
    the processor answers: the errors of the Polar calls and of
    [syncSubscription] are counted per customer ([failed] is the length
    of the error list, of which the result shows the first ten), one
    list call is made per customer of the batch that is not manual, the
    status row is written with the whole error list, and the breaker is
    left closed with no failure counted.  The invoice sync likewise
    completes with the breaker closed, after one call per pending
    invoice that is not manual. *)
Theorem sync_jobs_survive_processor_failures (env : Env) (w : World) :
  breaker_denies env w = false ->
  (forall batchSize,
      exists synced failed duration errors w',
        Sync.syncAllSubscriptions env batchSize w
        = (Ok (Sync.SubCompleted synced failed duration (take 10 errors)), w')
        /\ failed = Z.of_nat (length errors)
        /\ CircuitBreaker.isOpen (w_breaker w') = false
        /\ CircuitBreaker.failures (w_breaker w') = 0
        /\ w_calls w'
           = w_calls w
             ++ flat_map calls_for_customer
                  (Sync.getAllCustomers (subscription_batch batchSize) (w_db w))
        /\ exists row,
             last (billingSettings (w_db w')) = Some (Some row)
             /\ set_key row = "lastSync_subscriptions"
             /\ set_status row
                = (if (failed =? 0)%Z then SyncSuccess else SyncPartial)
             /\ set_errors row = errors)
  /\ (exists updated failed duration w',
        Sync.syncPendingInvoices env w
        = (Ok (Sync.InvCompleted updated failed duration), w')
        /\ CircuitBreaker.isOpen (w_breaker w') = false
        /\ CircuitBreaker.failures (w_breaker w') = 0
        /\ w_calls w'
           = w_calls w
             ++ flat_map calls_for_invoice (Sync.getPendingInvoices (w_db w))).
Proof.
  intros Hallowed.
  destruct (check_when_allowed env w Hallowed) as (w1 & Hcheck & Hdb & Hcalls).
  split.
  - intros batchSize.
    destruct (sync_customers_run env
                (Sync.getAllCustomers (subscription_batch batchSize) (w_db w))
                (0%Z, 0%Z, []) (tick w1))
      as ([[synced failed] errors] & w2 & Hrun & Htally & Hcalls2 & Hbreaker2).
    unfold Sync.syncAllSubscriptions. unfold bind at 1. rewrite Hcheck.
    cbn [negb]. unfold bind at 1, now at 1. cbn [fst snd].
    unfold try_catch. unfold bind at 1, runQuery at 1.
    cbn [w_db tick]. rewrite Hdb.
    fold (subscription_batch batchSize).
    unfold bind at 1. rewrite Hrun.
    unfold bind, now, runMutation, Sync.recordSyncStatus, Sync.recordSuccess,
      db_insert, ret. simpl.
    do 5 eexists. split; [reflexivity |]. simpl.
    split; [by apply Htally |]. split; [done |]. split; [done |].
    split; [by rewrite Hcalls2, <- Hcalls |].
    eexists. rewrite last_snoc. by repeat split.
  - destruct (sync_invoices_run env (Sync.getPendingInvoices (w_db w))
                (0%Z, 0%Z) (tick w1))
      as ([updated failed] & w2 & Hrun & Hcalls2 & Hbreaker2).
    unfold Sync.syncPendingInvoices. unfold bind at 1. rewrite Hcheck.
    cbn [negb]. unfold bind at 1, now at 1. cbn [fst snd].
    unfold try_catch. unfold bind at 1, runQuery at 1.
    cbn [w_db tick]. rewrite Hdb.
    unfold bind at 1. rewrite Hrun.
    unfold bind, now, Sync.recordSuccess, ret. simpl.
    do 4 eexists. split; [reflexivity |]. simpl.
    split; [done |]. split; [done |]. by rewrite Hcalls2, <- Hcalls.
Qed.

(** A processor that is down: every call throws. *)
Definition down_polarApi : PolarApi :=
  {| subscriptions_list := fun _ _ =>
       Throw (ErrorObj "Polar API error: Service Unavailable");
     subscriptions_get := fun _ _ =>
       Throw (ErrorObj "Polar API error: Service Unavailable");
     customers_get := fun _ _ =>
       Throw (ErrorObj "Polar API error: Service Unavailable");
     orders_get := fun _ _ =>
       Throw (ErrorObj "Polar API error: Service Unavailable");
     metrics_ingestEvents := fun _ _ =>
       Throw (ErrorObj "Polar API error: Service Unavailable") |}.

Definition down_env : Env :=
  {| POLAR_WEBHOOK_SECRET := Some "whsec_test";
     clock := clock sample_env;
     hmac_sha256_hex := fun _ _ => "5f2c";
     JSON_parse := JSON_parse sample_env;
     polarApi := down_polarApi |}.

Lemma sync_completes_while_processor_down :
  exists synced failed duration errors w',
    Sync.syncAllSubscriptions down_env None sample_world
    = (Ok (Sync.SubCompleted synced failed duration (take 10 errors)), w')
    /\ failed = Z.of_nat (length errors)
    /\ CircuitBreaker.isOpen (w_breaker w') = false
    /\ w_calls w' = [CallSubscriptionsList "cus_1"].
Proof.
  destruct (proj1 (sync_jobs_survive_processor_failures down_env sample_world
                     eq_refl) None)
    as (synced & failed & duration & errors & w' & Hrun & Htally & Hopen & _
        & Hcalls & _).
  exists synced, failed, duration, errors, w'.
  split; [exact Hrun |]. split; [exact Htally |]. split; [exact Hopen |].
  exact Hcalls.
Defined.

(** ** Maintenance (sync.ts): the sync status and the cleanup job *)

Module Maintenance.

(** [getLastSyncStatus]: the [value] of the first settings row with key
    ["lastSync_subscriptions"]; a stored value is an object, hence
    truthy. *)
Definition getLastSyncStatus : Query (option BillingSetting) :=
  fun db =>
    snd <$> first (fun s => String.eqb (set_key s) "lastSync_subscriptions")
                  (billingSettings db).

(** [getOldWebhookEvents], [getOldUsageEvents], [getOldAuditLogs]: the
    first hundred documents created before the cutoff; the timestamps
    are ISO strings and are compared as strings. *)
Definition getOldWebhookEvents (cutoff : string)
    : Query (list (Id * WebhookEvent)) :=
  fun db =>
    take_docs 100 (fun e => String.ltb (evt_receivedAt e) cutoff)
              (webhookEvents db).

Definition getOldUsageEvents (cutoff : string)
    : Query (list (Id * UsageEvent)) :=
  fun db =>
    take_docs 100 (fun e => String.ltb (use_createdAt e) cutoff)
              (usageEvents db).

Definition getOldAuditLogs (cutoff : string) : Query (list (Id * AuditLog)) :=
  fun db =>
    take_docs 100 (fun l => String.ltb (log_createdAt l) cutoff) (auditLogs db).

(** [ctx.db.delete(id)] throws when there is no such document. *)
Definition DeleteMissingDocument : Thrown :=
  ErrorObj "Delete on nonexistent document".

(** [deleteWebhookEvent]. *)
Definition deleteWebhookEvent (eventId : Id) : Mutation unit :=
  fun _ db =>
    match db_get (webhookEvents db) eventId with
    | Some _ =>
        Ok (tt, with_webhookEvents db (db_delete (webhookEvents db) eventId))
    | None => Throw DeleteMissingDocument
    end.

(** [deleteUsageEvent]. *)
Definition deleteUsageEvent (eventId : Id) : Mutation unit :=
  fun _ db =>
    match db_get (usageEvents db) eventId with
    | Some _ =>
        Ok (tt, with_usageEvents db (db_delete (usageEvents db) eventId))
    | None => Throw DeleteMissingDocument
    end.

(** The [cleaned] counters and the result
    [{ status: "completed", cleaned, cutoffDate }]. *)
Record Cleaned : Type := mkCleaned {
  cleaned_webhookEvents : Z;
  cleaned_usageEvents : Z;
  cleaned_auditLogs : Z;
}.

Record CleanupResult : Type := mkCleanupResult {
  cleanup_cleaned : Cleaned;
  cleanup_cutoffDate : string;
}.

Section Cleanup.

Variable env : Env.

(** [cutoffDate.setDate(cutoffDate.getDate() - daysToKeep)] followed by
    [toISOString()]: the calendar arithmetic of [Date]. *)
Variable days_before : Instant -> Z -> string.

(** One turn of the loop over old webhook events, on the counter. *)
Definition clean_webhook_event (event : Id * WebhookEvent) (n : Z) : Action Z :=
  match evt_processingResult (snd event) with
  | Some ResultSuccess =>
      runMutation env (deleteWebhookEvent (fst event)) ;; ret (n + 1)%Z
  | _ => ret n
  end.

(** One turn of the loop over old usage events. *)
Definition clean_usage_event (event : Id * UsageEvent) (n : Z) : Action Z :=
  if use_processed (snd event)
  then runMutation env (deleteUsageEvent (fst event)) ;; ret (n + 1)%Z
  else ret n.

(** [args.daysToKeep || 90]. *)
Definition days_to_keep (daysToKeep : option Z) : Z :=
  match daysToKeep with
  | Some 0%Z | None => 90%Z
  | Some d => d
  end.

(** [cleanupOldRecords]. *)
Definition cleanupOldRecords (daysToKeep : option Z) : Action CleanupResult :=
  let* t := now env in
  let cutoff := days_before t (days_to_keep daysToKeep) in
  let* oldWebhookEvents := runQuery (getOldWebhookEvents cutoff) in
  let* webhookEvents := fold_action clean_webhook_event oldWebhookEvents 0%Z in
  let* oldUsageEvents := runQuery (getOldUsageEvents cutoff) in
  let* usageEvents := fold_action clean_usage_event oldUsageEvents 0%Z in
  let* oldAuditLogs := runQuery (getOldAuditLogs cutoff) in
  ret {| cleanup_cleaned :=
           {| cleaned_webhookEvents := webhookEvents;
              cleaned_usageEvents := usageEvents;
              cleaned_auditLogs := Z.of_nat (length oldAuditLogs) |};
         cleanup_cutoffDate := cutoff |}.

End Cleanup.

End Maintenance.

(** Subscription syncs in a row, each with its own surroundings. *)
Fixpoint sync_many (runs : list (Env * option nat)) (w : World) : World :=
  match runs with
  | [] => w
  | (env, batchSize) :: rest =>
      sync_many rest (snd (Sync.syncAllSubscriptions env batchSize w))
  end.

Section SyncPreserves.

Context (R : World -> World -> Prop) `{!Stable R}.

Hypothesis same_db : forall w w', w_db w' = w_db w -> R w w'.
Hypothesis within_syncSubscription :
  forall customerId a, mutation_within R (Sync.syncSubscription customerId a).
Hypothesis within_recordSyncStatus :
  forall type status synced failed duration errors,
    mutation_within R
      (Sync.recordSyncStatus type status synced failed duration errors).

#[local] Hint Resolve within_syncSubscription within_recordSyncStatus : frame.

Lemma breaker_steps_preserve (env : Env) :
  preserves R (Sync.checkCircuitBreaker env)
  /\ preserves R Sync.recordSuccess
  /\ preserves R (Sync.recordFailure env).
Proof.
  (split; [| split]); intros w; apply same_db.
  - unfold Sync.checkCircuitBreaker.
    destruct (CircuitBreaker.isOpen (w_breaker w)),
      (CircuitBreaker.nextRetry (w_breaker w)); try done.
    by destruct (CircuitBreaker.checkCircuitBreaker _ _).
  - done.
  - unfold Sync.recordFailure. by destruct (3 <=? _).
Qed.

Lemma sync_customer_preserves (env : Env) (customer : Id * Customer)
    (locals : Z * Z * list SyncError) :
  preserves R (Sync.sync_customer env customer locals).
Proof.
  destruct locals as [[synced failed] errors], customer as [customerId c].
  unfold Sync.sync_customer.
  destruct (Sync.is_manual _); [preserve |].
  apply preserves_bind; [exact _ | | intros [items | error]; [| preserve]].
  - apply preserves_try_catch; [exact _ | | intros error; preserve].
    apply preserves_bind; [exact _ | | intros items; preserve].
    apply preserves_call_polar. intros w. by apply same_db.
  - apply preserves_bind; [exact _ | | intros [synced' [error |]]; preserve].
    apply preserves_count_until_throw; [exact _ |]. intros polarSub. preserve.
Qed.

Lemma syncAllSubscriptions_preserves (env : Env) (batchSize : option nat) :
  preserves R (Sync.syncAllSubscriptions env batchSize).
Proof.
  destruct (breaker_steps_preserve env) as (Hcheck & Hsuccess & Hfailure).
  unfold Sync.syncAllSubscriptions.
  apply preserves_bind; [exact _ | exact Hcheck | intros allowed].
  destruct (negb allowed); [intros w; apply stable_refl |].
  apply preserves_bind; [exact _ | preserve | intros startTime].
  apply preserves_try_catch; [exact _ | | intros error].
  - apply preserves_bind; [exact _ | preserve | intros customers].
    apply preserves_bind; [exact _ | | intros [[synced failed] errors]].
    + apply preserves_fold_action; [exact _ |]. intros customer locals.
      apply sync_customer_preserves.
    + apply preserves_bind; [exact _ | preserve | intros finished].
      apply preserves_bind; [exact _ | preserve | intros _].
      apply preserves_bind; [exact _ | exact Hsuccess | intros _; preserve].
  - apply preserves_bind; [exact _ | exact Hfailure | intros _].
    preserve.
Qed.

Lemma sync_many_preserves (runs : list (Env * option nat)) (w : World) :
  R w (sync_many runs w).
Proof.
  revert w. induction runs as [| [env batchSize] rest IH]; intros w; simpl.
  - apply stable_refl.
  - eapply stable_trans; [apply syncAllSubscriptions_preserves | apply IH].
Qed.

End SyncPreserves.

(** What [getLastSyncStatus] answers stays what it is. *)
Definition status_kept (w w' : World) : Prop :=
  forall v,
    Maintenance.getLastSyncStatus (w_db w) = Some v ->
    Maintenance.getLastSyncStatus (w_db w') = Some v.

#[global] Instance status_kept_stable : Stable status_kept.
Proof. split; unfold status_kept; simpl; auto. Qed.

Lemma recordSyncStatus_status_kept type status synced failed duration errors :
  mutation_within status_kept
    (Sync.recordSyncStatus type status synced failed duration errors).
Proof.
  intros now w [] db' Hrun v. unfold Sync.recordSyncStatus, db_insert in Hrun.
  simpl in Hrun. simplify_eq. unfold Maintenance.getLastSyncStatus. simpl.
  rewrite first_append.
  by destruct (first _ (billingSettings (w_db w))).
Qed.

Lemma syncSubscription_status_kept customerId a :
  mutation_within status_kept (Sync.syncSubscription customerId a).
Proof.
  intros now w [] db' Hrun v. unfold Sync.syncSubscription in Hrun.
  unfold Maintenance.getLastSyncStatus.
  mutation_cases Hrun.
Qed.

(** X17.  [getLastSyncStatus] reads the first row with key
    "lastSync_subscriptions" and [recordSyncStatus] always inserts a new
    row, so the status it returns is that of the first sync ever
    recorded: once a status is returned, recording another leaves the
    answer as it is, and so does any number of subscription syncs.  Only
    the first recording changes the answer. *)
Theorem last_sync_status_never_advances (v : BillingSetting) :
  (forall status synced failed duration errors now db,
      Maintenance.getLastSyncStatus db = Some v ->
      Maintenance.getLastSyncStatus
        (commit (Sync.recordSyncStatus "subscriptions" status synced failed
                   duration errors) now db) = Some v)
  /\ (forall runs w,
        Maintenance.getLastSyncStatus (w_db w) = Some v ->
        Maintenance.getLastSyncStatus (w_db (sync_many runs w)) = Some v)
  /\ (forall status synced failed duration errors now db,
        Maintenance.getLastSyncStatus db = None ->
        set_status <$>
          Maintenance.getLastSyncStatus
            (commit (Sync.recordSyncStatus "subscriptions" status synced failed
                       duration errors) now db) = Some status).
Proof.
  split; [| split].
  - intros status synced failed duration errors now db Hfirst.
    unfold commit, Sync.recordSyncStatus, Maintenance.getLastSyncStatus in *.
    simpl. rewrite first_append.
    by destruct (first _ (billingSettings db)).
  - intros runs w Hfirst.
    apply (sync_many_preserves status_kept); try done.
    + intros w1 w2 Hdb v'. by rewrite Hdb.
    + apply syncSubscription_status_kept.
    + apply recordSyncStatus_status_kept.
  - intros status synced failed duration errors now db Hnone.
    unfold commit, Sync.recordSyncStatus, Maintenance.getLastSyncStatus in *.
    simpl. rewrite first_append.
    by destruct (first _ (billingSettings db)).
Qed.

(** X17 at the sample deployment: a sync that succeeds, then one while
    the processor is down (recorded as partial); the status read back is
    still that of the first. *)
Lemma last_sync_status_sample :
  set_status <$>
    Maintenance.getLastSyncStatus
      (w_db (sync_many [(sample_env, None); (down_env, None)] sample_world))
  = Some SyncSuccess.
Proof.
  change (sync_many [(sample_env, None); (down_env, None)] sample_world)
    with (sync_many [(down_env, None)]
            (snd (Sync.syncAllSubscriptions sample_env None sample_world))).
  destruct (Maintenance.getLastSyncStatus
              (w_db (snd (Sync.syncAllSubscriptions sample_env None
                            sample_world)))) as [v |] eqn:Hfirst;
    [| vm_compute in Hfirst; discriminate].
  rewrite (proj1 (proj2 (last_sync_status_never_advances v))
             [(down_env, None)] _ Hfirst).
  vm_compute in Hfirst. injection Hfirst as <-. reflexivity.
Defined.

Section StoreDelete.

Context {A : Type}.
Implicit Types (t : Table A) (p : A -> bool) (id : Id) (d : A).

Lemma db_get_delete t id id' :
  db_get (db_delete t id) id' = if decide (id' = id) then None else db_get t id'.
Proof.
  unfold db_get, db_delete. destruct (decide (id' = id)) as [-> | Hne].
  - destruct (decide (id < length t)).
    + by rewrite list_lookup_insert_eq.
    + rewrite list_insert_ge by lia. by rewrite lookup_ge_None_2 by lia.
  - by rewrite list_lookup_insert_ne.
Qed.

Lemma docs_from_NoDup (k : Id) t : NoDup (map fst (docs_from k t)).
Proof.
  revert k. induction t as [| slot rest IH]; intros k; simpl; [constructor |].
  destruct slot as [d |]; [| apply IH]. simpl. constructor; [| apply IH].
  intros Hin. apply list_elem_of_In, in_map_iff in Hin as ([id d'] & Hid & Hin).
  simpl in Hid. subst id. apply docs_from_In in Hin. lia.
Qed.

Lemma NoDup_fst_filter {B} (f : Id * B -> bool) (l : list (Id * B)) :
  NoDup (map fst l) -> NoDup (map fst (List.filter f l)).
Proof.
  induction l as [| x rest IH]; simpl; [done |].
  intros Hnd. apply NoDup_cons in Hnd as [Hnotin Hrest].
  destruct (f x); simpl; [| by apply IH].
  apply NoDup_cons. split; [| by apply IH].
  intros Hin. apply Hnotin.
  apply list_elem_of_In, in_map_iff in Hin as (y & Hy & Hin).
  apply filter_In in Hin as [Hin _].
  apply list_elem_of_In, in_map_iff. by exists y.
Qed.

Lemma NoDup_fst_take {B} (n : nat) (l : list (Id * B)) :
  NoDup (map fst l) -> NoDup (map fst (take n l)).
Proof.
  revert n. induction l as [| x rest IH]; intros [| n] Hnd; simpl;
    [constructor | constructor | constructor |].
  apply NoDup_cons in Hnd as [Hnotin Hrest].
  apply NoDup_cons. split; [| by apply IH].
  intros Hin. apply Hnotin.
  apply list_elem_of_In, in_map_iff in Hin as (y & Hy & Hin).
  apply take_In in Hin. apply list_elem_of_In, in_map_iff. by exists y.
Qed.

(** The documents a [.take(n)] query returns have distinct ids and are
    stored. *)
Lemma take_docs_NoDup (n : nat) p t : NoDup (map fst (take_docs n p t)).
Proof.
  unfold take_docs, collect, documents.
  apply NoDup_fst_take, NoDup_fst_filter, docs_from_NoDup.
Qed.

Lemma take_docs_In (n : nat) p t id d :
  In (id, d) (take_docs n p t) -> db_get t id = Some d /\ p d = true.
Proof. unfold take_docs. intros Hin. by apply take_In, collect_In in Hin. Qed.

End StoreDelete.

(** A loop that deletes the eligible documents of a list read from one
    table [tbl], counting them. *)
Section DeleteLoop.

Context {A : Type} (env : Env).
Variable tbl : Db -> Table A.
Variable upd : Db -> Table A -> Db.
Variable delete : Id -> Mutation unit.
Variable eligible : A -> bool.
Variable step : Id * A -> Z -> Action Z.

Hypothesis delete_spec : forall id now db,
  delete id now db
  = match db_get (tbl db) id with
    | Some _ => Ok (tt, upd db (db_delete (tbl db) id))
    | None => Throw Maintenance.DeleteMissingDocument
    end.
Hypothesis tbl_upd : forall db t, tbl (upd db t) = t.
Hypothesis upd_tbl : forall db, upd db (tbl db) = db.
Hypothesis upd_upd : forall db t t', upd (upd db t) t' = upd db t'.
Hypothesis step_spec : forall event n,
  step event n
  = if eligible (snd event)
    then (runMutation env (delete (fst event)) ;; ret (n + 1)%Z)
    else ret n.

(** The ids the loop deletes. *)
Definition removed (events : list (Id * A)) : list Id :=
  map fst (List.filter (fun event => eligible (snd event)) events).

Lemma delete_loop_run (events : list (Id * A)) :
  forall (n : Z) (w : World),
    NoDup (map fst events) ->
    (forall event, In event events ->
                   is_Some (db_get (tbl (w_db w)) (fst event))) ->
    exists w' t,
      fold_action step events n w
      = (Ok (n + Z.of_nat (length (removed events)))%Z, w')
      /\ w_db w' = upd (w_db w) t
      /\ (forall id,
            db_get t id
            = if decide (id ∈ removed events) then None
              else db_get (tbl (w_db w)) id)
      /\ w_calls w' = w_calls w
      /\ w_breaker w' = w_breaker w.
Proof.
  induction events as [| [id0 d0] rest IH]; intros n w Hnd Hstored.
  - exists w, (tbl (w_db w)). simpl. rewrite Z.add_0_r, upd_tbl.
    by repeat split.
  - simpl in Hnd. apply NoDup_cons in Hnd as [Hnotin Hnd'].
    simpl fold_action. unfold bind at 1. rewrite step_spec. cbn [fst snd].
    unfold removed. simpl List.filter.
    destruct (eligible d0) eqn:Heligible.
    + destruct (Hstored (id0, d0)) as [d Hget]; [by left |]. simpl in Hget.
      unfold bind at 1, runMutation at 1. rewrite delete_spec, Hget.
      cbn [fst snd]. unfold ret at 1.
      set (w1 := tick (set_db w (upd (w_db w) (db_delete (tbl (w_db w)) id0)))).
      destruct (IH (n + 1)%Z w1 Hnd') as (w' & t & Hrun & Hdb & Hget' & Hcalls
                                          & Hbreaker).
      { intros [id' d'] Hin. simpl. rewrite tbl_upd, db_get_delete.
        rewrite decide_False; [apply (Hstored (id', d')); by right |].
        intros ->. apply Hnotin. apply list_elem_of_In, in_map_iff.
        by exists (id0, d'). }
      exists w', t. split; [| split; [| split]].
      * rewrite Hrun. simpl length. f_equal. f_equal.
        fold (removed rest). lia.
      * rewrite Hdb. simpl. apply upd_upd.
      * intros id. rewrite Hget'. simpl. rewrite tbl_upd, db_get_delete.
        fold (removed rest).
        destruct (decide (id ∈ removed rest)) as [Hin | Hout].
        -- rewrite decide_True; [done |]. by right.
        -- destruct (decide (id = id0)) as [-> | Hne].
           ++ rewrite decide_True; [done |]. by left.
           ++ rewrite decide_False; [done |].
              intros Hin. apply elem_of_cons in Hin as [? | ?]; done.
      * by rewrite Hcalls, Hbreaker.
    + destruct (IH n w Hnd') as (w' & t & Hrun & Hrest).
      { intros event Hin. apply Hstored. by right. }
      exists w', t. split; [| exact Hrest].
      unfold ret at 1. exact Hrun.
Qed.

End DeleteLoop.

(** A webhook event whose processing succeeded. *)
Definition successful (e : WebhookEvent) : bool :=
  match evt_processingResult e with
  | Some ResultSuccess => true
  | _ => false
  end.

Section CleanupProps.

Import Maintenance.

Context (env : Env) (days_before : Instant -> Z -> string).

Lemma clean_webhook_events_run (events : list (Id * WebhookEvent)) (w : World) :
  NoDup (map fst events) ->
  (forall event, In event events ->
                 is_Some (db_get (webhookEvents (w_db w)) (fst event))) ->
  exists w' t,
    fold_action (clean_webhook_event env) events 0%Z w
    = (Ok (Z.of_nat (length (removed successful events))), w')
    /\ w_db w' = with_webhookEvents (w_db w) t
    /\ (forall id,
          db_get t id
          = if decide (id ∈ removed successful events) then None
            else db_get (webhookEvents (w_db w)) id)
    /\ w_calls w' = w_calls w
    /\ w_breaker w' = w_breaker w.
Proof.
  intros Hnd Hstored.
  apply (delete_loop_run env webhookEvents with_webhookEvents
           deleteWebhookEvent successful (clean_webhook_event env));
    try done.
  - by intros [].
  - intros [id e] n. unfold clean_webhook_event, successful. simpl.
    by destruct (evt_processingResult e) as [[] |].
Qed.

Lemma clean_usage_events_run (events : list (Id * UsageEvent)) (w : World) :
  NoDup (map fst events) ->
  (forall event, In event events ->
                 is_Some (db_get (usageEvents (w_db w)) (fst event))) ->
  exists w' t,
    fold_action (clean_usage_event env) events 0%Z w
    = (Ok (Z.of_nat (length (removed use_processed events))), w')
    /\ w_db w' = with_usageEvents (w_db w) t
    /\ (forall id,
          db_get t id
          = if decide (id ∈ removed use_processed events) then None
            else db_get (usageEvents (w_db w)) id)
    /\ w_calls w' = w_calls w
    /\ w_breaker w' = w_breaker w.
Proof.
  intros Hnd Hstored.
  apply (delete_loop_run env usageEvents with_usageEvents
           deleteUsageEvent use_processed (clean_usage_event env));
    try done.
  by intros [].
Qed.

(** The old documents among the removed ones. *)
Lemma removed_In {A} (eligible : A -> bool) (events : list (Id * A)) (id : Id) :
  id ∈ removed eligible events ->
  exists d, In (id, d) events /\ eligible d = true.
Proof.
  unfold removed. intros Hin.
  apply list_elem_of_In, in_map_iff in Hin as ([id' d] & Hid & Hin).
  simpl in Hid. subst id'. apply filter_In in Hin as [Hin Heligible].
  by exists d.
Qed.

Lemma removed_length {A} (eligible : A -> bool) (events : list (Id * A)) :
  length (removed eligible events) <= length events.
Proof.
  unfold removed. rewrite length_map. apply filter_length_le.
Qed.

End CleanupProps.

(** X18.  [cleanupOldRecords] always completes, and it deletes exactly
    these documents: among the first hundred webhook events received
    before the cutoff, those processed with result [success]; among the
    first hundred usage events created before the cutoff, those already
    processed.  Every other webhook event and usage event is as it was:
    an event that failed or was never processed, an unprocessed usage
    event and a record that is not older than the cutoff are never
    deleted.  Audit logs are only counted, no other table changes, and no
    call is made to the processor. *)
Theorem cleanup_deletes_only_old_processed_records
    (env : Env) (days_before : Instant -> Z -> string)
    (daysToKeep : option Z) (w : World) :
  let cutoff :=
    days_before (clock env (w_ticks w)) (Maintenance.days_to_keep daysToKeep) in
  let deleted_events :=
    removed successful (Maintenance.getOldWebhookEvents cutoff (w_db w)) in
  let deleted_usage :=
    removed use_processed (Maintenance.getOldUsageEvents cutoff (w_db w)) in
  exists w',
    Maintenance.cleanupOldRecords env days_before daysToKeep w
    = (Ok {| Maintenance.cleanup_cleaned :=
               {| Maintenance.cleaned_webhookEvents :=
                    Z.of_nat (length deleted_events);
                  Maintenance.cleaned_usageEvents :=
                    Z.of_nat (length deleted_usage);
                  Maintenance.cleaned_auditLogs :=
                    Z.of_nat (length (Maintenance.getOldAuditLogs cutoff
                                        (w_db w))) |};
             Maintenance.cleanup_cutoffDate := cutoff |}, w')
    /\ (forall id,
          db_get (webhookEvents (w_db w')) id
          = if decide (id ∈ deleted_events) then None
            else db_get (webhookEvents (w_db w)) id)
    /\ (forall id,
          db_get (usageEvents (w_db w')) id
          = if decide (id ∈ deleted_usage) then None
            else db_get (usageEvents (w_db w)) id)
    /\ (forall id, id ∈ deleted_events ->
          exists e,
            db_get (webhookEvents (w_db w)) id = Some e
            /\ evt_processingResult e = Some ResultSuccess
            /\ String.ltb (evt_receivedAt e) cutoff = true)
    /\ (forall id, id ∈ deleted_usage ->
          exists e,
            db_get (usageEvents (w_db w)) id = Some e
            /\ use_processed e = true
            /\ String.ltb (use_createdAt e) cutoff = true)
    /\ length deleted_events <= 100 /\ length deleted_usage <= 100
    /\ auditLogs (w_db w') = auditLogs (w_db w)
    /\ customers (w_db w') = customers (w_db w)
    /\ subscriptions (w_db w') = subscriptions (w_db w)
    /\ invoices (w_db w') = invoices (w_db w)
    /\ orders (w_db w') = orders (w_db w)
    /\ paymentMethods (w_db w') = paymentMethods (w_db w)
    /\ billingSettings (w_db w') = billingSettings (w_db w)
    /\ w_calls w' = w_calls w.
Proof.
  intros cutoff deleted_events deleted_usage.
  destruct (clean_webhook_events_run env
              (Maintenance.getOldWebhookEvents cutoff (w_db w)) (tick w))
    as (w1 & t1 & Hrun1 & Hdb1 & Hget1 & Hcalls1 & _).
  { apply take_docs_NoDup. }
  { intros [id e] Hin. apply take_docs_In in Hin as [Hget _]. by exists e. }
  destruct (clean_usage_events_run env
              (Maintenance.getOldUsageEvents cutoff (w_db w)) w1)
    as (w2 & t2 & Hrun2 & Hdb2 & Hget2 & Hcalls2 & _).
  { apply take_docs_NoDup. }
  { intros [id e] Hin. apply take_docs_In in Hin as [Hget _].
    rewrite Hdb1. simpl. by exists e. }
  assert (Husage1 : usageEvents (w_db w1) = usageEvents (w_db w))
    by (by rewrite Hdb1).
  assert (Hlogs2 : auditLogs (w_db w2) = auditLogs (w_db w))
    by (by rewrite Hdb2, Hdb1).
  exists w2. split.
  { unfold Maintenance.cleanupOldRecords.
    unfold bind at 1, now at 1. cbn [fst snd].
    unfold bind at 1, runQuery at 1. cbn [w_db tick].
    fold cutoff. unfold bind at 1. rewrite Hrun1.
    unfold bind at 1, runQuery at 1.
    unfold Maintenance.getOldUsageEvents at 1. rewrite Husage1.
    fold (Maintenance.getOldUsageEvents cutoff (w_db w)).
    unfold bind at 1. rewrite Hrun2.
    unfold bind, runQuery, ret.
    unfold Maintenance.getOldAuditLogs at 1. by rewrite Hlogs2. }
  split.
  { intros id. rewrite Hdb2, Hdb1. simpl. apply Hget1. }
  split.
  { intros id. rewrite Hdb2. simpl. rewrite Hget2. by rewrite Husage1. }
  split.
  { intros id Hin. apply removed_In in Hin as (e & Hin & Hok).
    apply take_docs_In in Hin as [Hget Hold]. exists e.
    split; [done |]. split; [| done].
    unfold successful in Hok. by destruct (evt_processingResult e) as [[] |]. }
  split.
  { intros id Hin. apply removed_In in Hin as (e & Hin & Hok).
    apply take_docs_In in Hin as [Hget Hold]. by exists e. }
  split.
  { etrans; [apply removed_length |].
    unfold Maintenance.getOldWebhookEvents, take_docs. rewrite length_take. lia. }
  split.
  { etrans; [apply removed_length |].
    unfold Maintenance.getOldUsageEvents, take_docs. rewrite length_take. lia. }
  rewrite Hcalls2, Hcalls1, Hdb2, Hdb1. simpl. by repeat split.
Qed.

(** X18 at the sample usage events, both created before a cutoff of
    2025-01-01 and neither processed: the cleanup deletes nothing. *)
Lemma cleanup_keeps_unprocessed_usage :
  db_get
    (usageEvents
       (w_db (snd (Maintenance.cleanupOldRecords sample_env
                     (fun _ _ => "2025-01-01T00:00:00.000Z") None usage_world))))
    0
  = Some (sample_usage (Some "cus_1")).
Proof.
  destruct (cleanup_deletes_only_old_processed_records sample_env
              (fun _ _ => "2025-01-01T00:00:00.000Z") None usage_world)
    as (w' & Hrun & _ & Husage & _).
  rewrite Hrun. cbn [snd]. rewrite Husage.
  rewrite decide_False; [reflexivity |].
  vm_compute. apply not_elem_of_nil.
Defined.

(** ** The subscription mutator of the lifecycle actions
    (subscriptions.ts) *)

Module SubscriptionLifecycle.






End SubscriptionLifecycle.

Section LifecycleProps.

Import SubscriptionLifecycle.


End LifecycleProps.







(** ** Notifications that arrive before what they refer to *)

(** The dispatcher on a new notification whose handler returns without
    writing. *)
Lemma idle_handler_acknowledged
    (env : Env) (request : Request) (payload : Payload) (eventId : string)
    (w : World) :
  authentic env request ->
  JSON_parse env (req_body request) = Some payload ->
  p_id payload = Some eventId ->
  eventId <> "" ->
  ~ recorded eventId (w_db w) ->
  (forall ws,
      domain_kept (w_db w) (w_db ws) ->
      exists ws',
        Webhooks.dispatch env (p_type payload) payload ws = (Ok tt, ws')
        /\ w_db ws' = w_db ws) ->
  let run := Webhooks.handlePolarWebhook env request w in
  fst run = Webhooks.ok_response
  /\ (exists id event,
        Webhooks.getWebhookEventById eventId (w_db (snd run)) = Some (id, event)
        /\ evt_processingResult event = Some ResultSuccess)
  /\ domain_kept (w_db w) (w_db (snd run))
  /\ Webhooks.handlePolarWebhook env request (snd run)
     = (Webhooks.ok_response, snd run).
Proof.
  intros Hauth Hparse Hid Hne Hnew Hidle run. subst run.
  assert (Hnone : Webhooks.getWebhookEventById eventId (w_db w) = None).
  { destruct (Webhooks.getWebhookEventById eventId (w_db w)) eqn:Hfound;
      [| done].
    exfalso. apply Hnew. unfold recorded. by rewrite Hfound. }
  rewrite (handle_authentic env request payload eventId w) by done.
  rewrite Hnone. cbv zeta. rewrite process_event_outcome.
  set (ws := snd (runMutation env _ (tick w))).
  assert (Hstored :
            exists event,
              Webhooks.getWebhookEventById eventId (w_db ws)
              = Some (length (webhookEvents (w_db w)), event)).
  { subst ws. unfold Webhooks.getWebhookEventById in *. simpl.
    rewrite first_append, Hnone. simpl. rewrite String.eqb_refl. by eexists. }
  destruct Hstored as (event & Hstored).
  destruct (Hidle ws) as (ws' & Hrun & Hdb).
  { subst ws. unfold domain_kept. simpl. by repeat split. }
  rewrite Hrun. cbn [fst snd].
  set (w2 := snd (runMutation env _ ws')).
  assert (Hmarked :
            exists id marked,
              Webhooks.getWebhookEventById eventId (w_db w2) = Some (id, marked)
              /\ evt_processingResult marked = Some ResultSuccess).
  { subst w2. unfold runMutation, Webhooks.markWebhookEventProcessed.
    rewrite Hdb, Hstored. simpl. eexists _, _. split.
    - unfold Webhooks.getWebhookEventById in *. simpl.
      eapply first_put; [exact Hstored |].
      apply first_Some in Hstored as [_ Hp]. exact Hp.
    - reflexivity. }
  split; [done |]. split; [exact Hmarked |]. split.
  - subst w2. unfold runMutation, Webhooks.markWebhookEventProcessed.
    rewrite Hdb, Hstored. subst ws. unfold domain_kept. simpl.
    by repeat split.
  - destruct Hmarked as (id & marked & Hget & _).
    rewrite (handle_authentic env request payload eventId w2) by done.
    by rewrite Hget.
Qed.

(** The notifications that update a subscription. *)
Definition subscription_update_types : list string :=
  [ "subscription.updated"; "subscription.active";
    "subscription.canceled"; "subscription.revoked" ].

Lemma dispatch_unknown_subscription (env : Env) (payload : Payload)
    (polarSubscriptionId : string) (w : World) :
  In (p_type payload) subscription_update_types ->
  d_id (p_data payload) = Some polarSubscriptionId ->
  Subscriptions.getSubscriptionByPolarId polarSubscriptionId (w_db w) = None ->
  exists w',
    Webhooks.dispatch env (p_type payload) payload w = (Ok tt, w')
    /\ w_db w' = w_db w.
Proof.
  intros Htype Hid Hnone. simpl in Htype.
  destruct Htype as [<- | [<- | [<- | [<- | []]]]];
    unfold Webhooks.dispatch; simpl;
    unfold Webhooks.handleSubscriptionUpdated, Webhooks.handleSubscriptionActive,
      Webhooks.handleSubscriptionCanceled, Webhooks.handleSubscriptionRevoked,
      Webhooks.update_subscription, Webhooks.or_now;
    rewrite Hid.
  - unfold bind, required, ret, runMutation,
      Subscriptions.updateSubscriptionFromWebhook. simpl.
    rewrite Hnone. by eexists.
  - unfold bind, required, ret, runMutation,
      Subscriptions.updateSubscriptionFromWebhook. simpl.
    rewrite Hnone. by eexists.
  - destruct (truthy_ostr (d_canceled_at (p_data payload)));
      unfold bind, required, ret, now, runMutation,
        Subscriptions.updateSubscriptionFromWebhook; simpl;
      rewrite Hnone; by eexists.
  - destruct (truthy_ostr (d_ended_at (p_data payload)));
      unfold bind, required, ret, now, runMutation,
        Subscriptions.updateSubscriptionFromWebhook; simpl;
      rewrite Hnone; by eexists.
Qed.

(** X21.  An update for a subscription that is not mirrored yet is
    dropped for good.  When a new authenticated [subscription.updated],
    [.active], [.canceled] or [.revoked] notification names a Polar
    subscription id that no local subscription has, the dispatcher
    answers 200, marks the event [success] and changes no table but the
    event store; and since the event is now stored, a redelivery is
    answered 200 without processing, also after the subscription has
    been created. *)
Theorem update_for_unknown_subscription_dropped
    (env : Env) (request : Request) (payload : Payload) (eventId : string)
    (polarSubscriptionId : string) (w : World) :
  authentic env request ->
  JSON_parse env (req_body request) = Some payload ->
  p_id payload = Some eventId ->
  eventId <> "" ->
  ~ recorded eventId (w_db w) ->
  In (p_type payload) subscription_update_types ->
  d_id (p_data payload) = Some polarSubscriptionId ->
  Subscriptions.getSubscriptionByPolarId polarSubscriptionId (w_db w) = None ->
  let run := Webhooks.handlePolarWebhook env request w in
  fst run = Webhooks.ok_response
  /\ (exists id event,
        Webhooks.getWebhookEventById eventId (w_db (snd run)) = Some (id, event)
        /\ evt_processingResult event = Some ResultSuccess)
  /\ domain_kept (w_db w) (w_db (snd run))
  /\ (forall later,
        recorded eventId (w_db later) ->
        Webhooks.handlePolarWebhook env request later
        = (Webhooks.ok_response, later)).
Proof.
  intros Hauth Hparse Hid Hne Hnew Htype Hdata Hnone run.
  destruct (idle_handler_acknowledged env request payload eventId w Hauth
              Hparse Hid Hne Hnew) as (Hresponse & Hmarked & Hkept & _).
  { intros ws (_ & _ & Hsubs & _).
    apply (dispatch_unknown_subscription env payload polarSubscriptionId);
      [done | done |].
    unfold Subscriptions.getSubscriptionByPolarId in *. by rewrite Hsubs. }
  split; [exact Hresponse |]. split; [exact Hmarked |]. split; [exact Hkept |].
  intros later [found Hfound].
  rewrite (handle_authentic env request payload eventId later) by done.
  by rewrite Hfound.
Qed.

(** A "subscription.canceled" notification for [sub_9], which is not
    mirrored. *)
Definition early_payload : Payload :=
  {| p_id := Some "evt_4";
     p_type := "subscription.canceled";
     p_data :=
       {| d_id := Some "sub_9"; d_email := None; d_email_verified := None;
          d_metadata := None; d_created_at := None; d_modified_at := None;
          d_customer_id := Some "cus_1"; d_customer_email := None;
          d_product_id := Some "prod_1"; d_status := Some "canceled";
          d_current_period_start := None; d_current_period_end := None;
          d_trial_start := None; d_trial_end := None;
          d_cancel_at_period_end := Some false;
          d_canceled_at := Some "2024-02-01T00:00:00Z"; d_ended_at := None;
          d_amount := None; d_currency := None; d_number := None;
          d_amount_due := None; d_subscription_id := None;
          d_due_date := None; d_period_start := None; d_period_end := None;
          d_paid_at := None; d_amount_paid := None; d_type := None;
          d_card := None |} |}.

Definition early_body : string :=
  "{id:evt_4,type:subscription.canceled,data:{id:sub_9}}".

Definition early_env : Env :=
  {| POLAR_WEBHOOK_SECRET := Some "whsec_test";
     clock := clock sample_env;
     hmac_sha256_hex := fun _ _ => "5f2c";
     JSON_parse := fun body =>
       if String.eqb body early_body then Some early_payload else None;
     polarApi := sample_polarApi |}.

Definition early_request : Request :=
  {| req_body := early_body;
     req_headers := {[ "x-webhook-signature" := "5f2c" ]} |}.

Lemma early_cancellation_dropped :
  fst (Webhooks.handlePolarWebhook early_env early_request sample_world)
  = Webhooks.ok_response
  /\ domain_kept (w_db sample_world)
       (w_db (snd (Webhooks.handlePolarWebhook early_env early_request
                     sample_world))).
Proof.
  assert (Hauth : authentic early_env early_request)
    by (repeat split; vm_compute; reflexivity).
  assert (Hne : "evt_4" <> "") by discriminate.
  assert (Hnew : ~ recorded "evt_4" (w_db sample_world)).
  { intros [found Hfound]. vm_compute in Hfound. discriminate. }
  assert (Htype : In (p_type early_payload) subscription_update_types)
    by (simpl; tauto).
  destruct (update_for_unknown_subscription_dropped early_env early_request
              early_payload "evt_4" "sub_9" sample_world Hauth eq_refl eq_refl
              Hne Hnew Htype eq_refl eq_refl)
    as (Hresponse & _ & Hkept & _).
  split; [exact Hresponse | exact Hkept].
Defined.

(** ** A created subscription is mirrored with its customer *)




(** ** Meter aggregates (usageTracking.ts) *)

Module Meters.

(** A row of the [meters] table (schema.ts); units are whole numbers. *)
Record Meter : Type := mkMeter {
  mtr_customerId : Id;
  mtr_subscriptionId : option Id;
  mtr_meterName : string;
  mtr_periodKey : string;
  mtr_consumedUnits : Z;
  mtr_creditedUnits : option Z;
  mtr_balance : Z;
  mtr_lastSyncedAt : string;
}.

(** [.withIndex("byCustomerIdAndPeriod", q => q.eq("customerId",
    ...).eq("periodKey", ...)).filter(q => q.eq(q.field("meterName"),
    ...)).first()], the lookup of [updateMeterAggregates] and of
    [getMeterUsage]. *)
Definition meter_matches (customerId : Id) (meterName periodKey : string)
    (m : Meter) : bool :=
  Nat.eqb (mtr_customerId m) customerId
  && String.eqb (mtr_periodKey m) periodKey
  && String.eqb (mtr_meterName m) meterName.




End Meters.

Section MeterProps.

Import Meters.

Context (customerId : Id) (meterName periodKey : string).


Lemma meter_matches_key (m : Meter) :
  meter_matches customerId meterName periodKey m = true ->
  mtr_customerId m = customerId
  /\ mtr_meterName m = meterName /\ mtr_periodKey m = periodKey.
Proof.
  unfold meter_matches. intros Hm.
  apply andb_true_iff in Hm as [Hm Hname].
  apply andb_true_iff in Hm as [Hcustomer Hperiod].
  apply Nat.eqb_eq in Hcustomer. apply String.eqb_eq in Hperiod, Hname. done.
Qed.




End MeterProps.

